(** * The per-height round state machine of the consensus engine

    A shallow embedding of [consensus/state.go]: the round state, the
    step functions ([enterNewRound] ... [finalizeCommit]), proposal and
    sign-aggregate acceptance, BLS aggregate construction and
    verification, and the receive loop, followed by the properties of
    the specification that are stated about them. *)

From Stdlib Require Import ZArith Lia.
From Stdlib Require Strings.Byte.
From stdpp Require Import base tactics option list numbers strings sorting.

Local Open Scope Z_scope.

(** ** Go machine integers

    [int], [int64] and [time.Duration] are 64-bit two's complement on the
    platforms the engine runs on; arithmetic wraps around silently. *)
Module GoInt.
Definition wrap (x : Z) : Z := (x + 2 ^ 63) mod 2 ^ 64 - 2 ^ 63.
Definition add (x y : Z) : Z := wrap (x + y).
Definition sub (x y : Z) : Z := wrap (x - y).
Definition mul (x y : Z) : Z := wrap (x * y).
(** Go's [/] truncates toward zero. *)
Definition quo (x y : Z) : Z := wrap (Z.quot x y).
End GoInt.

(** ** Plain data of the [types] package *)

Definition Bytes := list Byte.byte.
Definition PubKey := Bytes.
Definition Signature := Bytes.

#[global] Instance byte_eq_dec : EqDecision Byte.byte := Byte.byte_eq_dec.

(** [types.VoteTypePrevote] and [types.VoteTypePrecommit]: the vote kind is a
    Go [byte], so other values can arrive from the wire. *)
Definition VoteTypePrevote : Z := 1.
Definition VoteTypePrecommit : Z := 2.

Module PartSetHeader.
(** Modelled from the spec: the [types.PartSetHeader] declaration is not
      part of the sources; the spec gives it as (total-count,
      Merkle-root-of-parts), and the zero header is [PartSetHeader{}]. *)
Record t := mk { Total : Z; Hash : Bytes }.
Definition zero : t := mk 0 [].
Definition IsZero (h : t) : bool := bool_decide (Total h = 0).
End PartSetHeader.

Module BlockID.
(** [types.BlockID{hash, header}]; the nil BlockID has an empty hash and a
      zero header. *)
Record t := mk { Hash : Bytes; PartsHeader : PartSetHeader.t }.
Definition zero : t := mk [] PartSetHeader.zero.
Definition IsZero (b : t) : bool :=
    bool_decide (length (Hash b) = 0%nat) && PartSetHeader.IsZero (PartsHeader b).
End BlockID.

Module Proposal.
Record t := mk {
    Height : Z;
    Round : Z;
    Hash : Bytes;
    BlockPartsHeader : PartSetHeader.t;
    POLRound : Z;
    POLBlockID : BlockID.t;
    ProposerNetAddr : string;
    ProposerPeerKey : string;
    Signature : Signature
  }.
Definition set_Signature (sig : Bytes) (p : t) : t :=
  mk (Height p) (Round p) (Hash p) (BlockPartsHeader p) (POLRound p)
     (POLBlockID p) (ProposerNetAddr p) (ProposerPeerKey p) sig.
End Proposal.

Module Vote.
Record t := mk {
    ValidatorAddress : Bytes;
    ValidatorIndex : Z;
    Height : Z;
    Round : Z;
    Type_ : Z;
    BlockID : BlockID.t;
    Signature : Signature;
    SignBytes : Bytes
  }.
Definition set_signed (sig signBytes : Bytes) (v : t) : t :=
  mk (ValidatorAddress v) (ValidatorIndex v) (Height v) (Round v) (Type_ v)
     (BlockID v) sig signBytes.
End Vote.

Module Validator.
Record t := mk {
    Address : Bytes;
    PubKey : PubKey;
    VotingPower : Z;
    Accum : Z
  }.
End Validator.

(** [BitArray] of go-common: a fixed number of bits, all clear when made;
    [SetIndex] outside the size does nothing. *)
Module BitArray.
Abbreviation t := (list bool).
Definition NewBitArray (bits : nat) : t := replicate bits false.
Definition Size (b : t) : Z := Z.of_nat (length b).
Definition GetIndex (b : t) (i : nat) : bool := default false (b !! i).
Definition SetIndex (i : nat) (v : bool) (b : t) : t := <[i:=v]> b.
End BitArray.

Module ValidatorSet.
Record t := mk { Validators : list Validator.t }.

Definition Size (vs : t) : Z := Z.of_nat (length (Validators vs)).

Definition HasAddress (vs : t) (addr : Bytes) : bool :=
    existsb (fun v => bool_decide (Validator.Address v = addr)) (Validators vs).

Fixpoint index_of (addr : Bytes) (l : list Validator.t) (i : Z) : Z :=
    match l with
    | [] => -1
    | v :: l' => if bool_decide (Validator.Address v = addr) then i
                 else index_of addr l' (i + 1)
    end.

(** Modelled from the spec: [Size], [HasAddress] and [GetByAddress] are not
    part of the sources; a validator's index in the set is its position, and
    [GetByAddress] returns index -1 when the address is absent. *)
Definition GetByAddress (vs : t) (addr : Bytes) : Z :=
    index_of addr (Validators vs) 0.

(** Modelled from the spec: [ValidatorSet.TotalVotingPower] is not part of
      the sources; the spec gives it as the sum of the validators' voting
      power, here accumulated in an int64. *)
Definition TotalVotingPower (vs : t) : Z :=
    fold_left (fun acc v => GoInt.add acc (Validator.VotingPower v))
              (Validators vs) 0.

(** Modelled from the spec: [ValidatorSet.TalliedVotingPower] is not part of
      the sources; the spec says "tally voting power over the bitmap": the
      int64 sum of the power of every validator whose bit is set. *)
Fixpoint tally (l : list Validator.t) (bits : BitArray.t) (acc : Z) : Z :=
    match l, bits with
    | v :: l', b :: bits' =>
        tally l' bits' (if b then GoInt.add acc (Validator.VotingPower v) else acc)
    | _, _ => acc
    end.

Definition TalliedVotingPower (vs : t) (bits : BitArray.t) : Z :=
    tally (Validators vs) bits 0.
End ValidatorSet.

Module SignAggr.
(** Modelled from the spec: the [types.SignAggr] declaration is not part of
      the sources; the fields are the ones [MakeSignAggr], [SetMaj23] and the
      callers in [state.go] name. The aggregated signature may be nil. *)
Record t := mk {
    Height : Z;
    Round : Z;
    Type_ : Z;
    NumValidators : Z;
    BlockID : BlockID.t;
    Maj23 : BlockID.t;
    ChainID : string;
    BitArray : BitArray.t;
    SignatureAggr : option Signature;
    SignBytes : Bytes
  }.

Definition MakeSignAggr (height round : Z) (type_ : Z) (numValidators : Z)
      (blockID : BlockID.t) (chainID : string) (bitArray : BitArray.t)
      (signAggr : option Signature) : t :=
    mk height round type_ numValidators blockID BlockID.zero chainID bitArray
       signAggr [].

Definition SetMaj23 (maj23 : BlockID.t) (sa : t) : t :=
    mk (Height sa) (Round sa) (Type_ sa) (NumValidators sa) (BlockID sa) maj23
       (ChainID sa) (BitArray sa) (SignatureAggr sa) (SignBytes sa).

Definition set_SignBytes (ss : Bytes) (sa : t) : t :=
    mk (Height sa) (Round sa) (Type_ sa) (NumValidators sa) (BlockID sa)
       (Maj23 sa) (ChainID sa) (BitArray sa) (SignatureAggr sa) ss.
End SignAggr.

(** ** Round steps: numeric and ordered *)

Inductive RoundStepType :=
| RoundStepNewHeight
| RoundStepNewRound
| RoundStepPropose
| RoundStepPrevote
| RoundStepPrevoteWait
| RoundStepPrecommit
| RoundStepPrecommitWait
| RoundStepCommit
| RoundStepTest.

Definition step_code (s : RoundStepType) : Z :=
  match s with
  | RoundStepNewHeight => 1
  | RoundStepNewRound => 2
  | RoundStepPropose => 3
  | RoundStepPrevote => 4
  | RoundStepPrevoteWait => 5
  | RoundStepPrecommit => 6
  | RoundStepPrecommitWait => 7
  | RoundStepCommit => 8
  | RoundStepTest => 9
  end.

Definition step_leb (a b : RoundStepType) : bool := step_code a <=? step_code b.
Definition step_ltb (a b : RoundStepType) : bool := step_code a <? step_code b.
Definition step_eqb (a b : RoundStepType) : bool := step_code a =? step_code b.

(** ** Errors *)

Inductive error :=
| ErrInvalidProposalSignature
| ErrInvalidProposalPOLRound
| ErrAddingVote
| ErrVoteHeightMismatch
| ErrInvalidSignatureAggr
| ErrDuplicateSignatureAggr
| ErrNotMaj23SignatureAggr
| ErrVoteConflictingVotes
| ErrOther (msg : string).

(** ** Timeout parameters *)

Record TimeoutParams := {
  Propose0 : Z;
  ProposeDelta : Z;
  Prevote0 : Z;
  PrevoteDelta : Z;
  Precommit0 : Z;
  PrecommitDelta : Z;
  Commit0 : Z;
  SkipTimeoutCommit : bool
}.

Definition Millisecond : Z := 1000000.

Definition tp_Propose (tp : TimeoutParams) (round : Z) : Z :=
  GoInt.mul (GoInt.add (Propose0 tp) (GoInt.mul (ProposeDelta tp) round)) Millisecond.
Definition tp_Prevote (tp : TimeoutParams) (round : Z) : Z :=
  GoInt.mul (GoInt.add (Prevote0 tp) (GoInt.mul (PrevoteDelta tp) round)) Millisecond.
Definition tp_Precommit (tp : TimeoutParams) (round : Z) : Z :=
  GoInt.mul (GoInt.add (Precommit0 tp) (GoInt.mul (PrecommitDelta tp) round)) Millisecond.
Definition tp_Commit (tp : TimeoutParams) (t : Z) : Z :=
  GoInt.add t (GoInt.mul (Commit0 tp) Millisecond).

Definition newHeightChangeSleepDuration : Z := 2000 * Millisecond.
Definition sendPrecommitSleepDuration : Z := 100 * Millisecond.

Record timeoutInfo := {
  ti_Duration : Z;
  ti_Height : Z;
  ti_Round : Z;
  ti_Step : RoundStepType
}.

Record PrivValidator := {
  GetAddress : Bytes;
  GetPubKey : PubKey;
  (* SignVote and SignProposal fill in the signature (and, for a vote, the
     bytes that were signed); None is the error return. *)
  SignVote : string -> Vote.t -> option (Signature * Bytes);
  SignProposal : string -> Proposal.t -> option Signature
}.

Record NodeInfo := { ListenAddres : string; KeyString : string }.

Record Config := {
  chain_id : string;
  block_size : Z;
  block_part_size : Z
}.

(** ** Effects

    A step function is a state transformer that also emits the calls it makes
    on its collaborators and may panic. [defer] is Go's [defer]: the deferred
    function runs when the body returns and also when it panics. *)

Inductive Outcome (S E A : Type) :=
| Ret (a : A) (s : S) (tr : list E)
| Panic (msg : string) (s : S) (tr : list E).
Arguments Ret {S E A} a s tr.
Arguments Panic {S E A} msg s tr.

Definition M (S E A : Type) := S -> Outcome S E A.

Definition ret {S E A} (a : A) : M S E A := fun s => Ret a s [].

Definition bind {S E A B} (m : M S E A) (k : A -> M S E B) : M S E B :=
  fun s =>
    match m s with
    | Ret a s1 tr1 =>
        match k a s1 with
        | Ret b s2 tr2 => Ret b s2 (tr1 ++ tr2)
        | Panic msg s2 tr2 => Panic msg s2 (tr1 ++ tr2)
        end
    | Panic msg s1 tr1 => Panic msg s1 tr1
    end.

Definition emit {S E} (e : E) : M S E unit := fun s => Ret tt s [e].
Definition gets {S E A} (f : S -> A) : M S E A := fun s => Ret (f s) s [].
Definition modify {S E} (f : S -> S) : M S E unit := fun s => Ret tt (f s) [].
Definition panic {S E A} (msg : string) : M S E A := fun s => Panic msg s [].

Definition defer {S E A} (body : M S E A) (deferred : M S E unit) : M S E A :=
  fun s =>
    match body s with
    | Ret a s1 tr1 =>
        match deferred s1 with
        | Ret _ s2 tr2 => Ret a s2 (tr1 ++ tr2)
        | Panic msg s2 tr2 => Panic msg s2 (tr1 ++ tr2)
        end
    | Panic msg s1 tr1 =>
        match deferred s1 with
        | Ret _ s2 tr2 => Panic msg s2 (tr1 ++ tr2)
        | Panic msg' s2 tr2 => Panic msg' s2 (tr1 ++ tr2)
        end
    end.

Definition when {S E} (b : bool) (m : M S E unit) : M S E unit :=
  if b then m else ret tt.

Definition out_state {S E A} (o : Outcome S E A) : S :=
  match o with Ret _ s _ => s | Panic _ s _ => s end.
Definition out_trace {S E A} (o : Outcome S E A) : list E :=
  match o with Ret _ _ tr => tr | Panic _ _ tr => tr end.
Definition out_value {S E A} (o : Outcome S E A) : option A :=
  match o with Ret a _ _ => Some a | Panic _ _ _ => None end.

Notation "'let*' x ':=' m 'in' k" := (bind m (fun x => k))
  (at level 10, x name, k at level 200).
Notation "'let*' ' p ':=' m 'in' k" := (bind m (fun x => match x with p => k end))
  (at level 10, p pattern, k at level 200).
Notation "m ;;; k" := (bind m (fun _ => k))
  (at level 100, k at level 200, right associativity).

(** [sound R P m]: whatever the start state, [m] ends (returning or
    panicking) in a state related to it by [R], having emitted only effects
    that satisfy [P]. *)
Definition sound {S E A} (R : relation S) (P : E -> Prop) (m : M S E A) : Prop :=
  forall s, R s (out_state (m s)) /\ Forall P (out_trace (m s)).


(** ** The collaborators of the core

    The block, part-set, vote-set, epoch, mempool and application-state
    types, the BLS primitives and the canonical encodings live outside
    [state.go]. The engine only calls them, so they are an interface here.
    A receiver of type [option T] is a Go pointer that may be nil. *)
Class Collaborators := {
  Block : Type;
  PartSet : Type;
  Part : Type;
  Commit : Type;
  Tx : Type;
  ep_Epoch : Type;
  Mempool : Type;
  sm_State : Type;
  VoteSet : Type;
  HeightVoteSet : Type;
  HeightVoteSignAggr : Type;

  (* types.Block *)
  Block_Hash : option Block -> Bytes;
  Block_HashesTo : option Block -> Bytes -> bool;
  Block_Height : option Block -> Z;
  Block_ExData : option Block -> Bytes;
  MakeBlock : Z -> string -> list Tx -> Commit -> BlockID.t -> Bytes -> Bytes ->
              Bytes -> Z -> option Block * option PartSet;
  ReadBlock : PartSet -> Block * option error;
  EmptyCommit : Commit;

  (* types.PartSet *)
  PartSet_Header : option PartSet -> PartSetHeader.t;
  PartSet_HasHeader : option PartSet -> PartSetHeader.t -> bool;
  PartSet_Total : option PartSet -> Z;
  PartSet_GetPart : option PartSet -> Z -> Part;
  PartSet_AddPart : PartSet -> Part -> bool -> PartSet * bool * option error;
  PartSet_IsComplete : PartSet -> bool;
  NewPartSetFromHeader : PartSetHeader.t -> option PartSet;

  (* types.Proposal, canonical encodings, crypto *)
  Proposal_BlockHeaderHash : Proposal.t -> Bytes;
  SignBytes_Proposal : string -> Proposal.t -> Bytes;
  SignBytes_Vote : string -> Vote.t -> Bytes;
  VerifyBytes : PubKey -> Bytes -> Signature -> bool;
  BLSSignatureAggregate : list Signature -> option Signature;

  (* types.ValidatorSet *)
  GetProposer : ValidatorSet.t -> option Validator.t;
  IncrementAccum : Z -> ValidatorSet.t -> ValidatorSet.t;
  ValidatorSet_Hash : ValidatorSet.t -> Bytes;
  AggrPubKey : ValidatorSet.t -> BitArray.t -> option PubKey;

  (* types.SignAggr *)
  SignAggr_TwoThirdsMajority : option SignAggr.t -> BlockID.t * bool;
  SignAggr_HasTwoThirdsMajority : option SignAggr.t -> ValidatorSet.t -> bool;
  SignAggr_MakeCommit : option SignAggr.t -> Commit;

  (* HeightVoteSignAggr *)
  NewHeightVoteSignAggr : string -> Z -> ValidatorSet.t -> HeightVoteSignAggr;
  HVSA_Prevotes : HeightVoteSignAggr -> Z -> option SignAggr.t;
  HVSA_Precommits : HeightVoteSignAggr -> Z -> option SignAggr.t;
  HVSA_getSignAggr : HeightVoteSignAggr -> Z -> Z -> option SignAggr.t;
  HVSA_POLInfo : HeightVoteSignAggr -> Z * BlockID.t;
  HVSA_SetRound : Z -> HeightVoteSignAggr -> HeightVoteSignAggr;
  HVSA_AddSignAggr : SignAggr.t -> HeightVoteSignAggr -> HeightVoteSignAggr;
  HVSA_isNil : HeightVoteSignAggr -> bool;

  (* HeightVoteSet and types.VoteSet *)
  NewHeightVoteSet : string -> Z -> ValidatorSet.t -> HeightVoteSet;
  HVS_chainID : HeightVoteSet -> string;
  HVS_Prevotes : HeightVoteSet -> Z -> VoteSet;
  HVS_Precommits : HeightVoteSet -> Z -> VoteSet;
  HVS_AddVote : Vote.t -> string -> HeightVoteSet -> HeightVoteSet * bool * option error;
  VoteSet_HasTwoThirdsAny : VoteSet -> bool;
  VoteSet_HasTwoThirdsMajority : VoteSet -> bool;
  VoteSet_TwoThirdsMajority : VoteSet -> BlockID.t * bool;
  VoteSet_Votes : VoteSet -> list (option Vote.t);

  (* sm.State *)
  State_ChainID : sm_State -> string;
  State_LastBlockHeight : sm_State -> Z;
  State_LastBlockID : sm_State -> BlockID.t;
  State_AppHash : sm_State -> Bytes;
  State_Epoch : sm_State -> ep_Epoch;
  State_GetValidators : sm_State -> ValidatorSet.t * ValidatorSet.t;
  State_ValidateBlock : sm_State -> option Block -> bool;
  State_ApplyBlock : sm_State -> option Block -> PartSetHeader.t -> Mempool -> sm_State * bool;

  (* epoch and mempool *)
  Mempool_Reap : Mempool -> Z -> list Tx;
  Epoch_ProposeTransactions : ep_Epoch -> string -> Z -> option (list Tx);
  Epoch_ShouldProposeNextEpoch : ep_Epoch -> Z -> bool;
  Epoch_ProposeNextEpoch : ep_Epoch -> Z -> ep_Epoch;
  Epoch_SetNextEpoch : ep_Epoch -> ep_Epoch -> ep_Epoch;
  Epoch_NextEpochBytes : ep_Epoch -> Bytes;
  Epoch_FromBytes : Bytes -> option ep_Epoch;
  Epoch_ValidateNextEpoch : ep_Epoch -> ep_Epoch -> Z -> bool;

  (* the logger: whether [logger.Fatal] ends the process *)
  logger_Fatal_exits : bool
}.

Section Engine.
Context `{Collab : Collaborators}.

(** ** Messages, WAL records, events *)

Inductive ConsensusMessage :=
| ProposalMessage (proposal : Proposal.t)
| BlockPartMessage (height round : Z) (part : Part)
| VoteMessage (vote : Vote.t)
| Maj23SignAggrMessage (signAggr : SignAggr.t)
| UnknownMessage.

Record msgInfo := { Msg : ConsensusMessage; PeerKey : string }.

(** [types.EventDataRoundState]: what [RoundStateEvent] exposes. *)
Record EventDataRoundState := {
  ev_Height : Z;
  ev_Round : Z;
  ev_Step : RoundStepType
}.

Inductive WALMessage :=
| WalMsgInfo (mi : msgInfo)
| WalTimeoutInfo (ti : timeoutInfo)
| WalRoundState (rs : EventDataRoundState).

Inductive Event :=
| EventNewRoundStep (rs : EventDataRoundState)
| EventNewRound (rs : EventDataRoundState)
| EventCompleteProposal (rs : EventDataRoundState)
| EventPolka (rs : EventDataRoundState)
| EventUnlock (rs : EventDataRoundState)
| EventRelock (rs : EventDataRoundState)
| EventLock (rs : EventDataRoundState)
| EventTimeoutPropose (rs : EventDataRoundState)
| EventTimeoutWait (rs : EventDataRoundState)
| EventProposalBlockParts (p : Proposal.t) (parts : option PartSet)
| EventVote2Proposer (v : Vote.t) (proposerKey : string)
| EventSignAggr (sa : SignAggr.t)
| EventNewBlock (b : option Block)
| EventNewBlockHeader (b : option Block)
| EventCacheFlush.

(** The calls the engine makes on its collaborators, in the order it makes
    them. *)
Inductive Effect :=
| WalSave (m : WALMessage)
| WalEndHeight (h : Z)
| WalStop
| Fire (e : Event)
| ScheduleTimeout (ti : timeoutInfo)
| SendInternal (mi : msgInfo)
| Sleep (d : Z)
| MakeSeenCommit (precommits : option SignAggr.t) (c : Commit)
| SaveBlock (b : option Block) (parts : option PartSet) (seenCommit : Commit)
| ApplyBlock (b : option Block) (h : PartSetHeader.t)
| CloseDone.

(** ** RoundState *)

Record RoundState := {
  Height : Z;
  Round : Z;
  Step : RoundStepType;
  StartTime : Z;
  CommitTime : Z;
  Epoch : ep_Epoch;
  Validators : ValidatorSet.t;
  Proposal : option Proposal.t;
  ProposalBlock : option Block;
  ProposalBlockParts : option PartSet;
  ProposerNetAddr : string;
  ProposerPeerKey : string;
  LockedRound : Z;
  LockedBlock : option Block;
  LockedBlockParts : option PartSet;
  Votes : HeightVoteSet;
  VoteSignAggr : HeightVoteSignAggr;
  CommitRound : Z;
  LastCommit : option SignAggr.t;
  LastValidators : ValidatorSet.t;
  PrevoteMaj23SignAggr : option SignAggr.t;
  PrecommitMaj23SignAggr : option SignAggr.t
}.

(** Field updates of [RoundState] ([cs.X = v]). *)
Definition set_Height v (r : RoundState) : RoundState :=
  Build_RoundState v (Round r) (Step r) (StartTime r) (CommitTime r) (Epoch r) (Validators r) (Proposal r) (ProposalBlock r) (ProposalBlockParts r) (ProposerNetAddr r) (ProposerPeerKey r) (LockedRound r) (LockedBlock r) (LockedBlockParts r) (Votes r) (VoteSignAggr r) (CommitRound r) (LastCommit r) (LastValidators r) (PrevoteMaj23SignAggr r) (PrecommitMaj23SignAggr r).
Definition set_Round v (r : RoundState) : RoundState :=
  Build_RoundState (Height r) v (Step r) (StartTime r) (CommitTime r) (Epoch r) (Validators r) (Proposal r) (ProposalBlock r) (ProposalBlockParts r) (ProposerNetAddr r) (ProposerPeerKey r) (LockedRound r) (LockedBlock r) (LockedBlockParts r) (Votes r) (VoteSignAggr r) (CommitRound r) (LastCommit r) (LastValidators r) (PrevoteMaj23SignAggr r) (PrecommitMaj23SignAggr r).
Definition set_Step v (r : RoundState) : RoundState :=
  Build_RoundState (Height r) (Round r) v (StartTime r) (CommitTime r) (Epoch r) (Validators r) (Proposal r) (ProposalBlock r) (ProposalBlockParts r) (ProposerNetAddr r) (ProposerPeerKey r) (LockedRound r) (LockedBlock r) (LockedBlockParts r) (Votes r) (VoteSignAggr r) (CommitRound r) (LastCommit r) (LastValidators r) (PrevoteMaj23SignAggr r) (PrecommitMaj23SignAggr r).
Definition set_StartTime v (r : RoundState) : RoundState :=
  Build_RoundState (Height r) (Round r) (Step r) v (CommitTime r) (Epoch r) (Validators r) (Proposal r) (ProposalBlock r) (ProposalBlockParts r) (ProposerNetAddr r) (ProposerPeerKey r) (LockedRound r) (LockedBlock r) (LockedBlockParts r) (Votes r) (VoteSignAggr r) (CommitRound r) (LastCommit r) (LastValidators r) (PrevoteMaj23SignAggr r) (PrecommitMaj23SignAggr r).
Definition set_CommitTime v (r : RoundState) : RoundState :=
  Build_RoundState (Height r) (Round r) (Step r) (StartTime r) v (Epoch r) (Validators r) (Proposal r) (ProposalBlock r) (ProposalBlockParts r) (ProposerNetAddr r) (ProposerPeerKey r) (LockedRound r) (LockedBlock r) (LockedBlockParts r) (Votes r) (VoteSignAggr r) (CommitRound r) (LastCommit r) (LastValidators r) (PrevoteMaj23SignAggr r) (PrecommitMaj23SignAggr r).
Definition set_Epoch v (r : RoundState) : RoundState :=
  Build_RoundState (Height r) (Round r) (Step r) (StartTime r) (CommitTime r) v (Validators r) (Proposal r) (ProposalBlock r) (ProposalBlockParts r) (ProposerNetAddr r) (ProposerPeerKey r) (LockedRound r) (LockedBlock r) (LockedBlockParts r) (Votes r) (VoteSignAggr r) (CommitRound r) (LastCommit r) (LastValidators r) (PrevoteMaj23SignAggr r) (PrecommitMaj23SignAggr r).
Definition set_Validators v (r : RoundState) : RoundState :=
  Build_RoundState (Height r) (Round r) (Step r) (StartTime r) (CommitTime r) (Epoch r) v (Proposal r) (ProposalBlock r) (ProposalBlockParts r) (ProposerNetAddr r) (ProposerPeerKey r) (LockedRound r) (LockedBlock r) (LockedBlockParts r) (Votes r) (VoteSignAggr r) (CommitRound r) (LastCommit r) (LastValidators r) (PrevoteMaj23SignAggr r) (PrecommitMaj23SignAggr r).
Definition set_Proposal v (r : RoundState) : RoundState :=
  Build_RoundState (Height r) (Round r) (Step r) (StartTime r) (CommitTime r) (Epoch r) (Validators r) v (ProposalBlock r) (ProposalBlockParts r) (ProposerNetAddr r) (ProposerPeerKey r) (LockedRound r) (LockedBlock r) (LockedBlockParts r) (Votes r) (VoteSignAggr r) (CommitRound r) (LastCommit r) (LastValidators r) (PrevoteMaj23SignAggr r) (PrecommitMaj23SignAggr r).
Definition set_ProposalBlock v (r : RoundState) : RoundState :=
  Build_RoundState (Height r) (Round r) (Step r) (StartTime r) (CommitTime r) (Epoch r) (Validators r) (Proposal r) v (ProposalBlockParts r) (ProposerNetAddr r) (ProposerPeerKey r) (LockedRound r) (LockedBlock r) (LockedBlockParts r) (Votes r) (VoteSignAggr r) (CommitRound r) (LastCommit r) (LastValidators r) (PrevoteMaj23SignAggr r) (PrecommitMaj23SignAggr r).
Definition set_ProposalBlockParts v (r : RoundState) : RoundState :=
  Build_RoundState (Height r) (Round r) (Step r) (StartTime r) (CommitTime r) (Epoch r) (Validators r) (Proposal r) (ProposalBlock r) v (ProposerNetAddr r) (ProposerPeerKey r) (LockedRound r) (LockedBlock r) (LockedBlockParts r) (Votes r) (VoteSignAggr r) (CommitRound r) (LastCommit r) (LastValidators r) (PrevoteMaj23SignAggr r) (PrecommitMaj23SignAggr r).
Definition set_ProposerNetAddr v (r : RoundState) : RoundState :=
  Build_RoundState (Height r) (Round r) (Step r) (StartTime r) (CommitTime r) (Epoch r) (Validators r) (Proposal r) (ProposalBlock r) (ProposalBlockParts r) v (ProposerPeerKey r) (LockedRound r) (LockedBlock r) (LockedBlockParts r) (Votes r) (VoteSignAggr r) (CommitRound r) (LastCommit r) (LastValidators r) (PrevoteMaj23SignAggr r) (PrecommitMaj23SignAggr r).
Definition set_ProposerPeerKey v (r : RoundState) : RoundState :=
  Build_RoundState (Height r) (Round r) (Step r) (StartTime r) (CommitTime r) (Epoch r) (Validators r) (Proposal r) (ProposalBlock r) (ProposalBlockParts r) (ProposerNetAddr r) v (LockedRound r) (LockedBlock r) (LockedBlockParts r) (Votes r) (VoteSignAggr r) (CommitRound r) (LastCommit r) (LastValidators r) (PrevoteMaj23SignAggr r) (PrecommitMaj23SignAggr r).
Definition set_LockedRound v (r : RoundState) : RoundState :=
  Build_RoundState (Height r) (Round r) (Step r) (StartTime r) (CommitTime r) (Epoch r) (Validators r) (Proposal r) (ProposalBlock r) (ProposalBlockParts r) (ProposerNetAddr r) (ProposerPeerKey r) v (LockedBlock r) (LockedBlockParts r) (Votes r) (VoteSignAggr r) (CommitRound r) (LastCommit r) (LastValidators r) (PrevoteMaj23SignAggr r) (PrecommitMaj23SignAggr r).
Definition set_LockedBlock v (r : RoundState) : RoundState :=
  Build_RoundState (Height r) (Round r) (Step r) (StartTime r) (CommitTime r) (Epoch r) (Validators r) (Proposal r) (ProposalBlock r) (ProposalBlockParts r) (ProposerNetAddr r) (ProposerPeerKey r) (LockedRound r) v (LockedBlockParts r) (Votes r) (VoteSignAggr r) (CommitRound r) (LastCommit r) (LastValidators r) (PrevoteMaj23SignAggr r) (PrecommitMaj23SignAggr r).
Definition set_LockedBlockParts v (r : RoundState) : RoundState :=
  Build_RoundState (Height r) (Round r) (Step r) (StartTime r) (CommitTime r) (Epoch r) (Validators r) (Proposal r) (ProposalBlock r) (ProposalBlockParts r) (ProposerNetAddr r) (ProposerPeerKey r) (LockedRound r) (LockedBlock r) v (Votes r) (VoteSignAggr r) (CommitRound r) (LastCommit r) (LastValidators r) (PrevoteMaj23SignAggr r) (PrecommitMaj23SignAggr r).
Definition set_Votes v (r : RoundState) : RoundState :=
  Build_RoundState (Height r) (Round r) (Step r) (StartTime r) (CommitTime r) (Epoch r) (Validators r) (Proposal r) (ProposalBlock r) (ProposalBlockParts r) (ProposerNetAddr r) (ProposerPeerKey r) (LockedRound r) (LockedBlock r) (LockedBlockParts r) v (VoteSignAggr r) (CommitRound r) (LastCommit r) (LastValidators r) (PrevoteMaj23SignAggr r) (PrecommitMaj23SignAggr r).
Definition set_VoteSignAggr v (r : RoundState) : RoundState :=
  Build_RoundState (Height r) (Round r) (Step r) (StartTime r) (CommitTime r) (Epoch r) (Validators r) (Proposal r) (ProposalBlock r) (ProposalBlockParts r) (ProposerNetAddr r) (ProposerPeerKey r) (LockedRound r) (LockedBlock r) (LockedBlockParts r) (Votes r) v (CommitRound r) (LastCommit r) (LastValidators r) (PrevoteMaj23SignAggr r) (PrecommitMaj23SignAggr r).
Definition set_CommitRound v (r : RoundState) : RoundState :=
  Build_RoundState (Height r) (Round r) (Step r) (StartTime r) (CommitTime r) (Epoch r) (Validators r) (Proposal r) (ProposalBlock r) (ProposalBlockParts r) (ProposerNetAddr r) (ProposerPeerKey r) (LockedRound r) (LockedBlock r) (LockedBlockParts r) (Votes r) (VoteSignAggr r) v (LastCommit r) (LastValidators r) (PrevoteMaj23SignAggr r) (PrecommitMaj23SignAggr r).
Definition set_LastCommit v (r : RoundState) : RoundState :=
  Build_RoundState (Height r) (Round r) (Step r) (StartTime r) (CommitTime r) (Epoch r) (Validators r) (Proposal r) (ProposalBlock r) (ProposalBlockParts r) (ProposerNetAddr r) (ProposerPeerKey r) (LockedRound r) (LockedBlock r) (LockedBlockParts r) (Votes r) (VoteSignAggr r) (CommitRound r) v (LastValidators r) (PrevoteMaj23SignAggr r) (PrecommitMaj23SignAggr r).
Definition set_LastValidators v (r : RoundState) : RoundState :=
  Build_RoundState (Height r) (Round r) (Step r) (StartTime r) (CommitTime r) (Epoch r) (Validators r) (Proposal r) (ProposalBlock r) (ProposalBlockParts r) (ProposerNetAddr r) (ProposerPeerKey r) (LockedRound r) (LockedBlock r) (LockedBlockParts r) (Votes r) (VoteSignAggr r) (CommitRound r) (LastCommit r) v (PrevoteMaj23SignAggr r) (PrecommitMaj23SignAggr r).
Definition set_PrevoteMaj23SignAggr v (r : RoundState) : RoundState :=
  Build_RoundState (Height r) (Round r) (Step r) (StartTime r) (CommitTime r) (Epoch r) (Validators r) (Proposal r) (ProposalBlock r) (ProposalBlockParts r) (ProposerNetAddr r) (ProposerPeerKey r) (LockedRound r) (LockedBlock r) (LockedBlockParts r) (Votes r) (VoteSignAggr r) (CommitRound r) (LastCommit r) (LastValidators r) v (PrecommitMaj23SignAggr r).
Definition set_PrecommitMaj23SignAggr v (r : RoundState) : RoundState :=
  Build_RoundState (Height r) (Round r) (Step r) (StartTime r) (CommitTime r) (Epoch r) (Validators r) (Proposal r) (ProposalBlock r) (ProposalBlockParts r) (ProposerNetAddr r) (ProposerPeerKey r) (LockedRound r) (LockedBlock r) (LockedBlockParts r) (Votes r) (VoteSignAggr r) (CommitRound r) (LastCommit r) (LastValidators r) (PrevoteMaj23SignAggr r) v.

(** ** ConsensusState

    [roundState] is the embedded [RoundState]; [blockStoreHeight] is what
    [cs.blockStore.Height()] returns; [evsw] and [wal] record whether the
    pointer is set; [now] is what [time.Now()] returns. The message queues
    and the ticker are collaborators: sends to them are emitted effects. *)
Record WAL := { light : bool }.

Record ConsensusState := {
  config : Config;
  blockStoreHeight : Z;
  mempool : Mempool;
  privValidator : option PrivValidator;
  nodeInfo : option NodeInfo;
  roundState : RoundState;
  epoch : ep_Epoch;
  state : option sm_State;
  timeoutParams : TimeoutParams;
  evsw : bool;
  wal : option WAL;
  replayMode : bool;
  nSteps : Z;
  now : Z
}.

Definition cs_set_blockStoreHeight v (c : ConsensusState) : ConsensusState :=
  Build_ConsensusState (config c) v (mempool c) (privValidator c) (nodeInfo c) (roundState c) (epoch c) (state c) (timeoutParams c) (evsw c) (wal c) (replayMode c) (nSteps c) (now c).
Definition cs_set_roundState v (c : ConsensusState) : ConsensusState :=
  Build_ConsensusState (config c) (blockStoreHeight c) (mempool c) (privValidator c) (nodeInfo c) v (epoch c) (state c) (timeoutParams c) (evsw c) (wal c) (replayMode c) (nSteps c) (now c).
Definition cs_set_epoch v (c : ConsensusState) : ConsensusState :=
  Build_ConsensusState (config c) (blockStoreHeight c) (mempool c) (privValidator c) (nodeInfo c) (roundState c) v (state c) (timeoutParams c) (evsw c) (wal c) (replayMode c) (nSteps c) (now c).
Definition cs_set_state v (c : ConsensusState) : ConsensusState :=
  Build_ConsensusState (config c) (blockStoreHeight c) (mempool c) (privValidator c) (nodeInfo c) (roundState c) (epoch c) v (timeoutParams c) (evsw c) (wal c) (replayMode c) (nSteps c) (now c).
Definition cs_set_nSteps v (c : ConsensusState) : ConsensusState :=
  Build_ConsensusState (config c) (blockStoreHeight c) (mempool c) (privValidator c) (nodeInfo c) (roundState c) (epoch c) (state c) (timeoutParams c) (evsw c) (wal c) (replayMode c) v (now c).
Definition cs_set_now v (c : ConsensusState) : ConsensusState :=
  Build_ConsensusState (config c) (blockStoreHeight c) (mempool c) (privValidator c) (nodeInfo c) (roundState c) (epoch c) (state c) (timeoutParams c) (evsw c) (wal c) (replayMode c) (nSteps c) v.

Definition Eff := M ConsensusState Effect.

Definition rs_get {A} (f : RoundState -> A) : Eff A :=
  gets (fun cs => f (roundState cs)).
Definition rs_upd (f : RoundState -> RoundState) : Eff unit :=
  modify (fun cs => cs_set_roundState (f (roundState cs)) cs).

Definition RoundStateEvent (rs : RoundState) : EventDataRoundState :=
  {| ev_Height := Height rs; ev_Round := Round rs; ev_Step := Step rs |}.

(** [fire mk] is [types.FireEventX(cs.evsw, cs.RoundStateEvent())]. *)
Definition fire (mk : EventDataRoundState -> Event) : Eff unit :=
  let* rs := rs_get RoundStateEvent in emit (Fire (mk rs)).

(** Modelled from the spec: the WAL is not part of the sources; [Save] hands
    the record to the append-only log, and a nil WAL ignores the call. *)
Definition wal_Save (m : WALMessage) : Eff unit :=
  let* w := gets wal in
  match w with
  | Some _ => emit (WalSave m)
  | None => ret tt
  end.

Definition updateHeight (height : Z) : Eff unit := rs_upd (set_Height height).

Definition updateRoundStep (round : Z) (step : RoundStepType) : Eff unit :=
  rs_upd (set_Round round) ;;; rs_upd (set_Step step).

Definition scheduleTimeout (duration height round : Z) (step : RoundStepType) : Eff unit :=
  emit (ScheduleTimeout {| ti_Duration := duration; ti_Height := height;
                           ti_Round := round; ti_Step := step |}).

Definition scheduleRound0 : Eff unit :=
  let* rs := gets roundState in
  let* t := gets now in
  scheduleTimeout (GoInt.sub (StartTime rs) t) (Height rs) 0 RoundStepNewHeight.

Definition sendInternalMessage (mi : msgInfo) : Eff unit := emit (SendInternal mi).

Definition newStep : Eff unit :=
  let* rs := rs_get RoundStateEvent in
  wal_Save (WalRoundState rs) ;;;
  modify (fun cs => cs_set_nSteps (GoInt.add (nSteps cs) 1) cs) ;;;
  let* sw := gets evsw in
  when sw (emit (Fire (EventNewRoundStep rs))).

(** Dereferencing [cs.state] or a nil proposer is a run-time panic. *)
Definition deref {A} (what : string) (o : option A) : Eff A :=
  match o with
  | Some a => ret a
  | None => panic ("nil pointer dereference: " +:+ what)
  end.

Definition PanicSanity {A} (msg : string) : Eff A := panic ("Panic on Sanity Check: " +:+ msg).
Definition PanicConsensus {A} (msg : string) : Eff A := panic ("Panic on Consensus Failure: " +:+ msg).

Fixpoint forM_ {A} (l : list A) (f : A -> Eff unit) : Eff unit :=
  match l with
  | [] => ret tt
  | a :: l' => f a ;;; forM_ l' f
  end.

(** Modelled from the spec: [types.BytesToHash160] is not part of the
    sources; a block hash stays the byte string it is given, so that the nil
    BlockID is the one with the empty hash. *)
Definition BytesToHash160 (b : Bytes) : Bytes := b.

(** ** Signing our own votes *)

Definition signVote (pv : PrivValidator) (type_ : Z) (hash : Bytes)
    (header : PartSetHeader.t) : Eff (Vote.t * bool) :=
  let addr := GetAddress pv in
  let* validators := rs_get Validators in
  let valIndex := ValidatorSet.GetByAddress validators addr in
  let* height := rs_get Height in
  let* round := rs_get Round in
  let vote := Vote.mk (BytesToHash160 addr) valIndex height round type_
                      (BlockID.mk (BytesToHash160 hash) header) [] [] in
  let* st := gets state in
  let* st := deref "cs.state" st in
  match SignVote pv (State_ChainID st) vote with
  | Some (sig, signBytes) => ret (Vote.set_signed sig signBytes vote, true)
  | None => ret (vote, false)
  end.

Definition IsProposer (pv : PrivValidator) : Eff bool :=
  let* validators := rs_get Validators in
  let* proposer := deref "GetProposer()" (GetProposer validators) in
  ret (bool_decide (Validator.Address proposer = GetAddress pv)).

(** Sign the vote and publish it on the internal message queue. *)
Definition signAddVote (type_ : Z) (hash : Bytes) (header : PartSetHeader.t)
    : Eff (option Vote.t) :=
  let* opv := gets privValidator in
  let* validators := rs_get Validators in
  match opv with
  | None => ret None
  | Some pv =>
      if negb (ValidatorSet.HasAddress validators (GetAddress pv)) then ret None
      else
        let* '(vote, ok) := signVote pv type_ hash header in
        if ok then
          sendInternalMessage {| Msg := VoteMessage vote; PeerKey := "" |} ;;;
          let* isProp := IsProposer pv in
          let* key := rs_get ProposerPeerKey in
          when (negb isProp && negb (bool_decide (key = "")))
               (emit (Fire (EventVote2Proposer vote key))) ;;;
          ret (Some vote)
        else ret None
  end.

(** ** Prevote *)

Definition newDoPrevote (height round : Z) : Eff unit :=
  let* rs := gets roundState in
  match LockedBlock rs with
  | Some _ =>
      (* If a block is locked, prevote that. *)
      signAddVote VoteTypePrevote (Block_Hash (LockedBlock rs))
                  (PartSet_Header (LockedBlockParts rs)) ;;; ret tt
  | None =>
      match Proposal rs with
      | None =>
          (* If Proposal is nil, prevote nil. *)
          signAddVote VoteTypePrevote [] PartSetHeader.zero ;;; ret tt
      | Some proposal =>
          signAddVote VoteTypePrevote (Proposal_BlockHeaderHash proposal)
                      (Proposal.BlockPartsHeader proposal) ;;; ret tt
      end
  end.

Definition defaultDoPrevote (height round : Z) : Eff unit :=
  let* rs := gets roundState in
  match LockedBlock rs with
  | Some _ =>
      signAddVote VoteTypePrevote (Block_Hash (LockedBlock rs))
                  (PartSet_Header (LockedBlockParts rs)) ;;; ret tt
  | None =>
      match ProposalBlock rs with
      | None =>
          (* If ProposalBlock is nil, prevote nil. *)
          signAddVote VoteTypePrevote [] PartSetHeader.zero ;;; ret tt
      | Some _ =>
          let* st := gets state in
          let* st := deref "cs.state" st in
          if negb (State_ValidateBlock st (ProposalBlock rs)) then
            (* ProposalBlock is invalid, prevote nil. *)
            signAddVote VoteTypePrevote [] PartSetHeader.zero ;;; ret tt
          else
            let nextEpochInvalid :=
              match Epoch_FromBytes (Block_ExData (ProposalBlock rs)) with
              | Some proposedNextEpoch =>
                  negb (Epoch_ValidateNextEpoch (Epoch rs) proposedNextEpoch height)
              | None => false
              end in
            if nextEpochInvalid then
              signAddVote VoteTypePrevote [] PartSetHeader.zero ;;; ret tt
            else
              let* proposal := deref "cs.Proposal" (Proposal rs) in
              signAddVote VoteTypePrevote (Proposal_BlockHeaderHash proposal)
                          (Proposal.BlockPartsHeader proposal) ;;; ret tt
      end
  end.

(** [NewConsensusState] installs [newDoPrevote] as the [doPrevote] hook. *)
Definition doPrevote : Z -> Z -> Eff unit := newDoPrevote.

Definition enterPrevote (height round : Z) : Eff unit :=
  let* rs := gets roundState in
  if bool_decide (Height rs ≠ height) || (round <? Round rs)
     || (bool_decide (Round rs = round) && step_leb RoundStepPrevote (Step rs))
  then ret tt
  else
    defer
      (when (bool_decide (Proposal rs = None)) (fire EventCompleteProposal) ;;;
       (* Sign and broadcast vote as necessary *)
       doPrevote height round)
      ((* Done enterPrevote: *)
       updateRoundStep round RoundStepPrevote ;;; newStep).

(** ** Propose *)

(** Returns true if the proposal block is complete and, if a POLRound was
    proposed, we have +2/3 prevotes from there. *)
Definition isProposalComplete (rs : RoundState) : bool :=
  match Proposal rs, ProposalBlock rs with
  | Some proposal, Some _ =>
      if Proposal.POLRound proposal <? 0 then true
      else SignAggr_HasTwoThirdsMajority
             (HVSA_Prevotes (VoteSignAggr rs) (Proposal.POLRound proposal))
             (Validators rs)
  | _, _ => false
  end.

(** Create the next block to propose; a nil block is the error return. The
    epoch object is shared by [cs.Epoch] and [cs.epoch]. *)
Definition createProposalBlock : Eff (option Block * option PartSet) :=
  let* rs := gets roundState in
  let* cfg := gets config in
  let* pool := gets mempool in
  let commit :=
    if bool_decide (Height rs = 1) then Some EmptyCommit
    else if SignAggr_HasTwoThirdsMajority (LastCommit rs) (Validators rs)
         then Some (SignAggr_MakeCommit (LastCommit rs))
         else None in
  match commit with
  | None => ret (None, None)
  | Some commit =>
      let txs := Mempool_Reap pool (block_size cfg) in
      match Epoch_ProposeTransactions (Epoch rs) "proposer" (Height rs) with
      | None => ret (None, None)
      | Some epTxs =>
          let txs := if bool_decide (length epTxs ≠ 0%nat) then txs ++ epTxs else txs in
          let* epochBytes :=
            if Epoch_ShouldProposeNextEpoch (Epoch rs) (Height rs) then
              let e := Epoch_SetNextEpoch (Epoch rs)
                         (Epoch_ProposeNextEpoch (Epoch rs) (Height rs)) in
              rs_upd (set_Epoch e) ;;;
              modify (cs_set_epoch e) ;;;
              ret (Epoch_NextEpochBytes e)
            else ret [] in
          let* st := gets state in
          let* st := deref "cs.state" st in
          let val := snd (State_GetValidators st) in
          ret (MakeBlock (Height rs) (State_ChainID st) txs commit
                 (State_LastBlockID st) (ValidatorSet_Hash val) (State_AppHash st)
                 epochBytes (block_part_size cfg))
      end
  end.

(** Modelled from the spec: [types.NewProposal] is not part of the sources;
    it fills the fields of an unsigned proposal from its arguments. *)
Definition NewProposal (height round : Z) (hash : Bytes) (header : PartSetHeader.t)
    (polRound : Z) (polBlockID : BlockID.t) (netAddr peerKey : string) : Proposal.t :=
  Proposal.mk height round hash header polRound polBlockID netAddr peerKey [].

Definition defaultDecideProposal (height round : Z) : Eff unit :=
  let* rs := gets roundState in
  (* Decide on block *)
  let* '(block, blockParts) :=
    match LockedBlock rs with
    | Some _ => ret (LockedBlock rs, LockedBlockParts rs)
    | None => createProposalBlock
    end in
  match block with
  | None => ret tt (* on error *)
  | Some _ =>
      let* ni := gets nodeInfo in
      match ni with
      | None => panic "cs.nodeInfo is nil when decide the next block"
      | Some ni =>
          let proposerNetAddr := ListenAddres ni in
          let proposerPeerKey := KeyString ni in
          (* Make proposal *)
          let* vsa := rs_get VoteSignAggr in
          let '(polRound, polBlockID) := HVSA_POLInfo vsa in
          let proposal := NewProposal height round (Block_Hash block)
                            (PartSet_Header blockParts) polRound polBlockID
                            proposerNetAddr proposerPeerKey in
          let* pv := gets privValidator in
          let* pv := deref "cs.privValidator" pv in
          let* st := gets state in
          let* st := deref "cs.state" st in
          match SignProposal pv (State_ChainID st) proposal with
          | Some sig =>
              let proposal := Proposal.set_Signature sig proposal in
              (* send proposal and block parts on internal msg queue *)
              emit (Fire (EventProposalBlockParts proposal blockParts)) ;;;
              sendInternalMessage {| Msg := ProposalMessage proposal; PeerKey := "" |} ;;;
              forM_ (seqZ 0 (PartSet_Total blockParts)) (fun i =>
                let* h := rs_get Height in
                let* r := rs_get Round in
                sendInternalMessage
                  {| Msg := BlockPartMessage h r (PartSet_GetPart blockParts i);
                     PeerKey := "" |})
          | None => ret tt
          end
      end
  end.

(** [NewConsensusState] installs [defaultDecideProposal] as the
    [decideProposal] hook. *)
Definition decideProposal : Z -> Z -> Eff unit := defaultDecideProposal.

Definition enterPropose (height round : Z) : Eff unit :=
  let* rs := gets roundState in
  if bool_decide (Height rs ≠ height) || (round <? Round rs)
     || (bool_decide (Round rs = round) && step_leb RoundStepPropose (Step rs))
  then ret tt
  else
    defer
      ((* If we don't get the proposal quick enough, enterPrevote *)
       (let* tp := gets timeoutParams in
        scheduleTimeout (tp_Propose tp round) height round RoundStepPropose) ;;;
       let* opv := gets privValidator in
       match opv with
       | None => ret tt (* Nothing more to do if we're not a validator *)
       | Some pv =>
           let* validators := rs_get Validators in
           let* proposer := deref "GetProposer()" (GetProposer validators) in
           if negb (bool_decide (Validator.Address proposer = GetAddress pv))
           then ret tt
           else decideProposal height round
       end)
      ((* Done enterPropose: *)
       updateRoundStep round RoundStepPropose ;;;
       newStep ;;;
       (* enter prevote without waiting for complete block *)
       let* rs' := gets roundState in
       match Proposal rs' with
       | Some _ => enterPrevote height (Round rs')
       | None => ret tt
       end).

(** ** New round *)

Definition enterNewRound (height round : Z) : Eff unit :=
  let* rs := gets roundState in
  if bool_decide (Height rs ≠ height) || (round <? Round rs)
     || (bool_decide (Round rs = round)
         && negb (step_eqb (Step rs) RoundStepNewHeight))
  then ret tt
  else
    (* Increment validators if necessary *)
    let validators :=
      if Round rs <? round
      then IncrementAccum (GoInt.sub round (Round rs)) (Validators rs)
      else Validators rs in
    (* Setup new round *)
    updateRoundStep round RoundStepNewRound ;;;
    rs_upd (set_Validators validators) ;;;
    (if bool_decide (round = 0) then
       (* We've already reset these upon new height, and meanwhile we might
          have received a proposal for round 0. *)
       ret tt
     else
       rs_upd (set_Proposal None) ;;;
       rs_upd (set_ProposalBlock None) ;;;
       rs_upd (set_ProposalBlockParts None) ;;;
       rs_upd (set_PrevoteMaj23SignAggr None) ;;;
       rs_upd (set_PrecommitMaj23SignAggr None)) ;;;
    (* also track next round (round+1) to allow round-skipping *)
    rs_upd (fun r => set_VoteSignAggr (HVSA_SetRound (GoInt.add round 1) (VoteSignAggr r)) r) ;;;
    fire EventNewRound ;;;
    (* Immediately go to enterPropose. *)
    enterPropose height round.

(** ** Prevote wait, precommit, precommit wait *)

Definition enterPrevoteWait (height round : Z) : Eff unit :=
  let* rs := gets roundState in
  if bool_decide (Height rs ≠ height) || (round <? Round rs)
     || (bool_decide (Round rs = round) && step_leb RoundStepPrevoteWait (Step rs))
  then ret tt
  else if negb (VoteSet_HasTwoThirdsAny (HVS_Prevotes (Votes rs) round))
  then PanicSanity "enterPrevoteWait, but Prevotes does not have any +2/3 votes"
  else
    defer
      (let* tp := gets timeoutParams in
       scheduleTimeout (tp_Prevote tp round) height round RoundStepPrevoteWait)
      (updateRoundStep round RoundStepPrevoteWait ;;; newStep).

Definition precommit_nil : Eff unit :=
  signAddVote VoteTypePrecommit [] PartSetHeader.zero ;;; ret tt.

Definition enterPrecommit (height round : Z) : Eff unit :=
  let* rs := gets roundState in
  if bool_decide (Height rs ≠ height) || (round <? Round rs)
     || (bool_decide (Round rs = round) && step_leb RoundStepPrecommit (Step rs))
  then ret tt
  else
    defer
      (let prevotes := HVSA_Prevotes (VoteSignAggr rs) round in
       let '(blockID, ok) := SignAggr_TwoThirdsMajority prevotes in
       (* the source prints the BlockID field of the aggregate here *)
       let* _ := deref "cs.VoteSignAggr.Prevotes(round)" prevotes in
       (* If we don't have a polka, we must precommit nil *)
       if negb ok then precommit_nil
       else
         (* At this point +2/3 prevoted for a particular block or nil *)
         fire EventPolka ;;;
         (* the latest POLRound should be this round *)
         let polRound := fst (HVSA_POLInfo (VoteSignAggr rs)) in
         if polRound <? round then PanicSanity "This POLRound should be the round"
         else if bool_decide (length (BlockID.Hash blockID) = 0%nat) then
           (* +2/3 prevoted nil. Unlock and precommit nil. *)
           (match LockedBlock rs with
            | None => ret tt
            | Some _ =>
                rs_upd (set_LockedRound 0) ;;;
                rs_upd (set_LockedBlock None) ;;;
                rs_upd (set_LockedBlockParts None) ;;;
                fire EventUnlock
            end) ;;;
           precommit_nil
         else if Block_HashesTo (LockedBlock rs) (BlockID.Hash blockID) then
           (* If we're already locked on that block, precommit it, and update
              the LockedRound *)
           rs_upd (set_LockedRound round) ;;;
           fire EventRelock ;;;
           signAddVote VoteTypePrecommit (BlockID.Hash blockID)
                       (BlockID.PartsHeader blockID) ;;; ret tt
         else if Block_HashesTo (ProposalBlock rs) (BlockID.Hash blockID) then
           (* If +2/3 prevoted for proposal block, stage and precommit it *)
           let* st := gets state in
           let* st := deref "cs.state" st in
           if negb (State_ValidateBlock st (ProposalBlock rs)) then
             PanicConsensus "enterPrecommit: +2/3 prevoted for an invalid block"
           else
             rs_upd (set_LockedRound round) ;;;
             rs_upd (set_LockedBlock (ProposalBlock rs)) ;;;
             rs_upd (set_LockedBlockParts (ProposalBlockParts rs)) ;;;
             fire EventLock ;;;
             signAddVote VoteTypePrecommit (BlockID.Hash blockID)
                         (BlockID.PartsHeader blockID) ;;; ret tt
         else
           (* There was a polka in this round for a block we don't have.
              Fetch that block, unlock, and precommit nil. *)
           rs_upd (set_LockedRound 0) ;;;
           rs_upd (set_LockedBlock None) ;;;
           rs_upd (set_LockedBlockParts None) ;;;
           when (negb (PartSet_HasHeader (ProposalBlockParts rs)
                                         (BlockID.PartsHeader blockID)))
                (rs_upd (set_ProposalBlock None) ;;;
                 rs_upd (set_ProposalBlockParts
                           (NewPartSetFromHeader (BlockID.PartsHeader blockID)))) ;;;
           fire EventUnlock ;;;
           precommit_nil)
      ((* Done enterPrecommit: *)
       updateRoundStep round RoundStepPrecommit ;;; newStep).

Definition enterPrecommitWait (height round : Z) : Eff unit :=
  let* rs := gets roundState in
  if bool_decide (Height rs ≠ height) || (round <? Round rs)
     || (bool_decide (Round rs = round) && step_leb RoundStepPrecommitWait (Step rs))
  then ret tt
  else if negb (VoteSet_HasTwoThirdsAny (HVS_Precommits (Votes rs) round))
  then PanicSanity "enterPrecommitWait, but Precommits does not have any +2/3 votes"
  else
    defer
      (let* tp := gets timeoutParams in
       scheduleTimeout (tp_Precommit tp round) height round RoundStepPrecommitWait)
      (updateRoundStep round RoundStepPrecommitWait ;;; newStep).

(** ** Commit *)

(** Updates ConsensusState and increments height to match that of state.
    The round becomes 0 and cs.Step becomes RoundStepNewHeight. *)
Definition updateToStateAndEpoch (st : sm_State) (epoch : ep_Epoch) : Eff unit :=
  let* rs := gets roundState in
  let* cur := gets state in
  if (-1 <? CommitRound rs) && (0 <? Height rs)
     && bool_decide (Height rs ≠ State_LastBlockHeight st)
  then PanicSanity "updateToState() expected state height"
  else if match cur with
          | Some c => bool_decide (GoInt.add (State_LastBlockHeight c) 1 ≠ Height rs)
          | None => false
          end
  then PanicSanity "Inconsistent cs.state.LastBlockHeight+1 vs cs.Height"
  else if match cur with
          | Some c => State_LastBlockHeight st <=? State_LastBlockHeight c
          | None => false
          end
  then ret tt (* If state isn't further out than cs.state, just ignore. *)
  else
    (* Reset fields based on state. *)
    let validators := snd (State_GetValidators st) in
    let lastPrecommits :=
      if (-1 <? CommitRound rs) && negb (HVSA_isNil (VoteSignAggr rs))
      then HVSA_Precommits (VoteSignAggr rs) (CommitRound rs)
      else None in
    (* Next desired block height *)
    let height := GoInt.add (State_LastBlockHeight st) 1 in
    let* cfg := gets config in
    let* tp := gets timeoutParams in
    let* t := gets now in
    (* RoundState fields *)
    updateHeight height ;;;
    updateRoundStep 0 RoundStepNewHeight ;;;
    (if bool_decide (CommitTime rs = 0)
     then rs_upd (set_StartTime (tp_Commit tp t))
     else rs_upd (set_StartTime (tp_Commit tp (CommitTime rs)))) ;;;
    rs_upd (set_Validators validators) ;;;
    rs_upd (set_Proposal None) ;;;
    rs_upd (set_ProposalBlock None) ;;;
    rs_upd (set_ProposalBlockParts None) ;;;
    rs_upd (set_PrevoteMaj23SignAggr None) ;;;
    rs_upd (set_PrecommitMaj23SignAggr None) ;;;
    rs_upd (set_LockedRound 0) ;;;
    rs_upd (set_LockedBlock None) ;;;
    rs_upd (set_LockedBlockParts None) ;;;
    rs_upd (set_Votes (NewHeightVoteSet (chain_id cfg) height validators)) ;;;
    rs_upd (set_VoteSignAggr (NewHeightVoteSignAggr (chain_id cfg) height validators)) ;;;
    rs_upd (set_CommitRound (-1)) ;;;
    rs_upd (set_LastCommit lastPrecommits) ;;;
    rs_upd (set_Epoch epoch) ;;;
    rs_upd (set_LastValidators (fst (State_GetValidators st))) ;;;
    modify (cs_set_state (Some st)) ;;;
    modify (cs_set_epoch epoch) ;;;
    newStep.

(** Increment height and goto RoundStepNewHeight. [fail.Fail()] is the
    crash-test hook and does nothing in a normal run. *)
Definition finalizeCommit (height : Z) : Eff unit :=
  let* rs := gets roundState in
  if bool_decide (Height rs ≠ height) || negb (step_eqb (Step rs) RoundStepCommit)
  then ret tt
  else
    let '(blockID, ok) :=
      SignAggr_TwoThirdsMajority (HVSA_Precommits (VoteSignAggr rs) (CommitRound rs)) in
    let block := ProposalBlock rs in
    let blockParts := ProposalBlockParts rs in
    let* st := gets state in
    if negb ok then
      PanicSanity "Cannot finalizeCommit, commit does not have two thirds majority"
    else if negb (PartSet_HasHeader blockParts (BlockID.PartsHeader blockID)) then
      PanicSanity "Expected ProposalBlockParts header to be commit header"
    else if negb (Block_HashesTo block (BlockID.Hash blockID)) then
      PanicSanity "Cannot finalizeCommit, ProposalBlock does not hash to commit hash"
    else
      let* st := deref "cs.state" st in
      if negb (State_ValidateBlock st block) then
        PanicConsensus "+2/3 committed an invalid block"
      else
        emit (Sleep newHeightChangeSleepDuration) ;;;
        (* Save to blockStore. *)
        (let* bsHeight := gets blockStoreHeight in
         if bsHeight <? Block_Height block then
           (* NOTE: the seenCommit is local justification to commit this block,
              but may differ from the LastCommit included in the next block *)
           let precommits := HVSA_Precommits (VoteSignAggr rs) (CommitRound rs) in
           let seenCommit := SignAggr_MakeCommit precommits in
           emit (MakeSeenCommit precommits seenCommit) ;;;
           emit (SaveBlock block blockParts seenCommit) ;;;
           modify (cs_set_blockStoreHeight (Block_Height block))
         else
           (* Happens during replay if we already saved the block but didn't
              commit *)
           ret tt) ;;;
        (* Finish writing to the WAL for this height. *)
        (let* w := gets wal in
         when (bool_decide (w ≠ None)) (emit (WalEndHeight height))) ;;;
        (* Create a copy of the state for staging. Execute and commit the
           block, update and save the state, and update the mempool. *)
        let* pool := gets mempool in
        emit (ApplyBlock block (PartSet_Header blockParts)) ;;;
        let '(stateCopy, applied) :=
          State_ApplyBlock st block (PartSet_Header blockParts) pool in
        if negb applied then ret tt
        else
          (* Fire event for new block. *)
          emit (Fire (EventNewBlock block)) ;;;
          emit (Fire (EventNewBlockHeader block)) ;;;
          emit (Fire EventCacheFlush) ;;;
          (* NewHeightStep! *)
          updateToStateAndEpoch stateCopy (State_Epoch stateCopy) ;;;
          (* cs.StartTime is already set. Schedule Round0 to start soon. *)
          scheduleRound0.

(** If we have the block AND +2/3 commits for it, finalize. *)
Definition tryFinalizeCommit (height : Z) : Eff unit :=
  let* rs := gets roundState in
  if bool_decide (Height rs ≠ height) then
    PanicSanity "tryFinalizeCommit() cs.Height vs height"
  else
    let '(blockID, ok) :=
      SignAggr_TwoThirdsMajority (HVSA_Precommits (VoteSignAggr rs) (CommitRound rs)) in
    if negb ok || bool_decide (length (BlockID.Hash blockID) = 0%nat) then ret tt
    else if negb (Block_HashesTo (ProposalBlock rs) (BlockID.Hash blockID)) then ret tt
    else finalizeCommit height.

(** Enter: +2/3 precommits for block *)
Definition enterCommit (height commitRound : Z) : Eff unit :=
  let* rs := gets roundState in
  if bool_decide (Height rs ≠ height) || step_leb RoundStepCommit (Step rs)
  then ret tt
  else
    defer
      (let '(blockID, ok) :=
         SignAggr_TwoThirdsMajority (HVSA_Precommits (VoteSignAggr rs) commitRound) in
       if negb ok then PanicSanity "RunActionCommit() expects +2/3 precommits"
       else
         (* The Locked* fields no longer matter. Move them over to
            ProposalBlock if they match the commit hash. *)
         when (Block_HashesTo (LockedBlock rs) (BlockID.Hash blockID))
              (rs_upd (set_ProposalBlock (LockedBlock rs)) ;;;
               rs_upd (set_ProposalBlockParts (LockedBlockParts rs))) ;;;
         (* If we don't have the block being committed, set up to get it. *)
         let* rs1 := gets roundState in
         when (negb (Block_HashesTo (ProposalBlock rs1) (BlockID.Hash blockID))
               && negb (PartSet_HasHeader (ProposalBlockParts rs1)
                                          (BlockID.PartsHeader blockID)))
              (rs_upd (set_ProposalBlock None) ;;;
               rs_upd (set_ProposalBlockParts
                         (NewPartSetFromHeader (BlockID.PartsHeader blockID)))))
      ((* Done enterCommit: keep cs.Round the same, commitRound points to the
          right Precommits set. *)
       (let* r := rs_get Round in updateRoundStep r RoundStepCommit) ;;;
       rs_upd (set_CommitRound commitRound) ;;;
       (let* t := gets now in rs_upd (set_CommitTime t)) ;;;
       newStep ;;;
       (* Maybe finalize immediately. *)
       tryFinalizeCommit height).

(** ** Proposal acceptance

    A nil error return is [None]. *)

(** The proposal pointer is taken to be non-nil: both functions read
    [proposal.Height] right after the first test. *)
Definition newSetProposal (proposal : Proposal.t) : Eff (option error) :=
  let* rs := gets roundState in
  match Proposal rs with
  | Some _ => ret None (* Already have one *)
  | None =>
      (* Does not apply *)
      if bool_decide (Proposal.Height proposal ≠ Height rs)
         || bool_decide (Proposal.Round proposal ≠ Round rs)
      then ret None
      (* We don't care about the proposal if we're already in
         RoundStepCommit. *)
      else if step_leb RoundStepCommit (Step rs) then ret None
      (* Verify POLRound, which must be -1 or between 0 and proposal.Round
         exclusive. *)
      else if bool_decide (Proposal.POLRound proposal ≠ -1)
              && ((Proposal.POLRound proposal <? 0)
                  || (Proposal.Round proposal <=? Proposal.POLRound proposal))
      then ret (Some ErrInvalidProposalPOLRound)
      else
        (* Verify signature *)
        let* proposer := deref "GetProposer()" (GetProposer (Validators rs)) in
        let* st := gets state in
        let* st := deref "cs.state" st in
        if negb (VerifyBytes (Validator.PubKey proposer)
                   (SignBytes_Proposal (State_ChainID st) proposal)
                   (Proposal.Signature proposal))
        then ret (Some ErrInvalidProposalSignature)
        else
          rs_upd (set_Proposal (Some proposal)) ;;;
          rs_upd (set_ProposalBlockParts
                    (NewPartSetFromHeader (Proposal.BlockPartsHeader proposal))) ;;;
          rs_upd (set_ProposerNetAddr (Proposal.ProposerNetAddr proposal)) ;;;
          rs_upd (set_ProposerPeerKey (Proposal.ProposerPeerKey proposal)) ;;;
          ret None
  end.

Definition defaultSetProposal (proposal : Proposal.t) : Eff (option error) :=
  let* rs := gets roundState in
  match Proposal rs with
  | Some _ => ret None (* Already have one *)
  | None =>
      (* Does not apply *)
      if bool_decide (Proposal.Height proposal ≠ Height rs)
         || bool_decide (Proposal.Round proposal ≠ Round rs)
      then ret None
      (* We don't care about the proposal if we're already in
         RoundStepCommit. *)
      else if step_leb RoundStepCommit (Step rs) then ret None
      (* Verify POLRound, which must be -1 or between 0 and proposal.Round
         exclusive. *)
      else if bool_decide (Proposal.POLRound proposal ≠ -1)
              && ((Proposal.POLRound proposal <? 0)
                  || (Proposal.Round proposal <=? Proposal.POLRound proposal))
      then ret (Some ErrInvalidProposalPOLRound)
      else
        (* Verify signature *)
        let* proposer := deref "GetProposer()" (GetProposer (Validators rs)) in
        let* st := gets state in
        let* st := deref "cs.state" st in
        if negb (VerifyBytes (Validator.PubKey proposer)
                   (SignBytes_Proposal (State_ChainID st) proposal)
                   (Proposal.Signature proposal))
        then ret (Some ErrInvalidProposalSignature)
        else
          rs_upd (set_Proposal (Some proposal)) ;;;
          rs_upd (set_ProposalBlockParts
                    (NewPartSetFromHeader (Proposal.BlockPartsHeader proposal))) ;;;
          rs_upd (set_ProposerPeerKey (Proposal.ProposerPeerKey proposal)) ;;;
          ret None
  end.

(** [NewConsensusState] installs [newSetProposal] as the [setProposal] hook. *)
Definition setProposal : Proposal.t -> Eff (option error) := newSetProposal.

(** NOTE: block is not necessarily valid. *)
Definition addProposalBlockPart (height : Z) (part : Part) (verify : bool)
    : Eff (bool * option error) :=
  let* rs := gets roundState in
  (* Blocks might be reused, so round mismatch is OK *)
  if bool_decide (Height rs ≠ height) then ret (false, None)
  else
    match ProposalBlockParts rs with
    | None => ret (false, None) (* We're not expecting a block part. *)
    | Some parts =>
        let '(parts', added, err) := PartSet_AddPart parts part verify in
        rs_upd (set_ProposalBlockParts (Some parts')) ;;;
        match err with
        | Some e => ret (added, Some e)
        | None =>
            if added && PartSet_IsComplete parts' then
              (* Added and completed! *)
              let '(block, err') := ReadBlock parts' in
              rs_upd (set_ProposalBlock (Some block)) ;;;
              ret (true, err')
            else ret (added, None)
        end
    end.

(** ** Sign-aggregate verification and acceptance *)

Definition BLSVerifySignAggr (rs : RoundState) (signAggr : option SignAggr.t)
    : bool * option error :=
  match signAggr with
  | None => (false, Some (ErrOther "Invalid SignAggr(nil)"))
  | Some signAggr =>
      match SignAggr.SignatureAggr signAggr with
      | None => (false, Some (ErrOther "Invalid BLSSignature(nil)"))
      | Some sig =>
          let bitMap := SignAggr.BitArray signAggr in
          let validators := Validators rs in
          let quorum :=
            GoInt.add (GoInt.quo (GoInt.mul (ValidatorSet.TotalVotingPower validators) 2) 3) 1 in
          if bool_decide (ValidatorSet.Size validators ≠ BitArray.Size bitMap) then
            (false, Some (ErrOther "validators are not matched"))
          else
            let powerSum := ValidatorSet.TalliedVotingPower validators bitMap in
            match AggrPubKey validators bitMap with
            | None => (false, Some (ErrOther "can not aggregate pubkeys"))
            | Some aggrPubKey =>
                let vote := Vote.mk [] 0 (SignAggr.Height signAggr)
                              (SignAggr.Round signAggr) (SignAggr.Type_ signAggr)
                              (SignAggr.BlockID signAggr) [] [] in
                if negb (VerifyBytes aggrPubKey
                           (SignBytes_Vote (SignAggr.ChainID signAggr) vote) sig)
                then (false, Some (ErrOther "Invalid aggregate signature"))
                else (quorum <=? powerSum, None)
            end
      end
  end.

Definition verifyMaj23SignAggr (rs : RoundState) (signAggr : SignAggr.t)
    : bool * option error :=
  let '(maj23, err) := BLSVerifySignAggr rs (Some signAggr) in
  match err with
  | Some e => (false, Some e)
  | None => (maj23, err)
  end.

Definition setMaj23SignAggr (signAggr : SignAggr.t) : Eff (option error * bool) :=
  let* rs := gets roundState in
  (* Does not apply *)
  if bool_decide (SignAggr.Height signAggr ≠ Height rs)
     || bool_decide (SignAggr.Round signAggr ≠ Round rs)
  then ret (None, false)
  else
    let '(maj23, err) := verifyMaj23SignAggr rs signAggr in
    if bool_decide (err ≠ None) || negb maj23 then
      ret (Some ErrInvalidSignatureAggr, false)
    else if bool_decide (SignAggr.Type_ signAggr = VoteTypePrevote) then
      match PrevoteMaj23SignAggr rs with
      | Some _ => ret (Some ErrDuplicateSignatureAggr, false)
      | None =>
          rs_upd (fun r => set_VoteSignAggr (HVSA_AddSignAggr signAggr (VoteSignAggr r)) r) ;;;
          rs_upd (set_PrevoteMaj23SignAggr (Some signAggr)) ;;;
          let* rs1 := gets roundState in
          if isProposalComplete rs1 then
            enterPrecommit (Height rs1) (Round rs1) ;;; ret (None, true)
          else ret (None, false)
      end
    else if bool_decide (SignAggr.Type_ signAggr = VoteTypePrecommit) then
      match PrecommitMaj23SignAggr rs with
      | Some _ => ret (Some ErrDuplicateSignatureAggr, false)
      | None =>
          rs_upd (fun r => set_VoteSignAggr (HVSA_AddSignAggr signAggr (VoteSignAggr r)) r) ;;;
          rs_upd (set_PrecommitMaj23SignAggr (Some signAggr)) ;;;
          let* rs1 := gets roundState in
          if isProposalComplete rs1 then
            enterCommit (Height rs1) (Round rs1) ;;; ret (None, true)
          else ret (None, false)
      end
    else ret (Some ErrInvalidSignatureAggr, false).

(** ** Building the +2/3 sign-aggregate *)

(** The loop of [sendMaj23SignAggr] over [votes]: every vote that is present
    overwrites [blockID] and [ss], sets its bit and appends its signature. *)
Fixpoint collect_votes (votes : list (option Vote.t)) (index : nat)
    (acc : BlockID.t * Bytes * BitArray.t * list Signature)
    : BlockID.t * Bytes * BitArray.t * list Signature :=
  match votes with
  | [] => acc
  | None :: votes' => collect_votes votes' (S index) acc
  | Some vote :: votes' =>
      let '(_, _, signBitArray, sigs) := acc in
      collect_votes votes' (S index)
        (Vote.BlockID vote, Vote.SignBytes vote,
         BitArray.SetIndex index true signBitArray,
         sigs ++ [Vote.Signature vote])
  end.

Definition logger_Fatal (msg : string) : Eff unit :=
  if logger_Fatal_exits then panic ("logger.Fatal: " +:+ msg) else ret tt.

(** Build the 2/3+ signature aggregation based on vote set and send it to
    other validators. *)
Definition sendMaj23SignAggr (voteType : Z) : Eff unit :=
  let* rs := gets roundState in
  let '(votes, (maj23, ok)) :=
    if bool_decide (voteType = VoteTypePrevote) then
      (VoteSet_Votes (HVS_Prevotes (Votes rs) (Round rs)),
       VoteSet_TwoThirdsMajority (HVS_Prevotes (Votes rs) (Round rs)))
    else if bool_decide (voteType = VoteTypePrecommit) then
      (VoteSet_Votes (HVS_Precommits (Votes rs) (Round rs)),
       VoteSet_TwoThirdsMajority (HVS_Prevotes (Votes rs) (Round rs)))
    else ([], (BlockID.zero, false)) in
  when (negb ok) (logger_Fatal "Votset does not have +2/3 voting") ;;;
  let numValidators := ValidatorSet.Size (Validators rs) in
  let '(blockID, ss, signBitArray, sigs) :=
    collect_votes votes 0
      (BlockID.zero, [], BitArray.NewBitArray (Z.to_nat numValidators), []) in
  (* step 1: build BLS signature aggregation based on signatures in votes *)
  match BLSSignatureAggregate sigs with
  | None => logger_Fatal "Can not aggregate signature"
  | Some signature =>
      let signAggr :=
        SignAggr.MakeSignAggr (Height rs) (Round rs) voteType numValidators blockID
          (HVS_chainID (Votes rs)) signBitArray (Some signature) in
      let signAggr := SignAggr.set_SignBytes ss signAggr in
      if BlockID.IsZero maj23 then panic "Invalid maj23"
      else
        (* Set ma23 block ID *)
        let signAggr := SignAggr.SetMaj23 maj23 signAggr in
        emit (Fire (EventSignAggr signAggr)) ;;;
        (* send sign aggregate msg on internal msg queue *)
        sendInternalMessage {| Msg := Maj23SignAggrMessage signAggr; PeerKey := "" |}
  end.

(** ** Votes *)

Definition addVote (vote : Vote.t) (peerKey : string) : Eff (bool * option error) :=
  let* rs := gets roundState in
  (* A prevote/precommit for this height? *)
  if bool_decide (Vote.Height vote = Height rs) then
    let '(votes', added, err) := HVS_AddVote vote peerKey (Votes rs) in
    rs_upd (set_Votes votes') ;;;
    when added
      (if bool_decide (Vote.Type_ vote = VoteTypePrevote) then
         (* If 2/3+ votes received, send them to other validators *)
         when (VoteSet_HasTwoThirdsMajority (HVS_Prevotes votes' (Round rs)))
              (sendMaj23SignAggr (Vote.Type_ vote))
       else if bool_decide (Vote.Type_ vote = VoteTypePrecommit) then
         when (VoteSet_HasTwoThirdsMajority (HVS_Precommits votes' (Round rs)))
              (sendMaj23SignAggr (Vote.Type_ vote))
       else ret tt) ;;;
    ret (added, err)
  else
    (* Height mismatch, bad peer? *)
    ret (false, Some ErrVoteHeightMismatch).

(** Attempt to add the vote. *)
Definition tryAddVote (vote : Vote.t) (peerKey : string) : Eff (option error) :=
  let* '(_, err) := addVote vote peerKey in
  match err with
  | None => ret None
  | Some ErrVoteHeightMismatch => ret (Some ErrVoteHeightMismatch)
  | Some ErrVoteConflictingVotes => ret (Some ErrVoteConflictingVotes)
  | Some _ => ret (Some ErrAddingVote) (* Probably an invalid signature. *)
  end.

(** ** The receive routine *)

(** State transitions on complete-proposal, 2/3-any, 2/3-one. *)
Definition handleMsg (mi : msgInfo) (rs : RoundState) : Eff unit :=
  let peerKey := PeerKey mi in
  match Msg mi with
  | ProposalMessage proposal =>
      (* will not cause transition. once proposal is set, we can receive
         block parts *)
      let* err := setProposal proposal in
      match err with
      | None =>
          (* enterPrevote don't wait for complete block *)
          let* r := gets roundState in enterPrevote (Height r) (Round r)
      | Some _ => ret tt
      end
  | BlockPartMessage height round part =>
      (* if the proposal is complete, we'll enterPrevote or tryFinalizeCommit *)
      let* '(_, err) := addProposalBlockPart height part (negb (bool_decide (peerKey = ""))) in
      let* r := gets roundState in
      let err := if bool_decide (err ≠ None) && bool_decide (round ≠ Round r)
                 then None else err in
      when (bool_decide (err = None) && isProposalComplete r
            && step_eqb (Step r) RoundStepPrevote)
        (let sign_aggr := HVSA_getSignAggr (VoteSignAggr r) (Round r) VoteTypePrevote in
         when (bool_decide (sign_aggr ≠ None)
               && SignAggr_HasTwoThirdsMajority sign_aggr (Validators r))
              (enterPrecommit (Height r) (Round r)))
  | Maj23SignAggrMessage signAggr =>
      (* Msg saying a set of 2/3+ signatures had been received *)
      setMaj23SignAggr signAggr ;;; ret tt
  | VoteMessage vote =>
      (* attempt to add the vote *)
      tryAddVote vote peerKey ;;;
      let* r := gets roundState in
      when (bool_decide (PrecommitMaj23SignAggr r ≠ None))
           (emit (Sleep sendPrecommitSleepDuration))
  | UnknownMessage => ret tt
  end.

Definition handleTimeout (ti : timeoutInfo) (rs : RoundState) : Eff unit :=
  (* timeouts must be for current height, round, step *)
  if bool_decide (ti_Height ti ≠ Height rs) || (ti_Round ti <? Round rs)
     || (bool_decide (ti_Round ti = Round rs) && step_ltb (ti_Step ti) (Step rs))
  then ret tt
  else
    (* the timeout will now cause a state transition *)
    match ti_Step ti with
    | RoundStepNewHeight =>
        enterNewRound (ti_Height ti) 0
    | RoundStepPropose =>
        fire EventTimeoutPropose ;;;
        enterPrevote (ti_Height ti) (ti_Round ti)
    | RoundStepPrevoteWait =>
        fire EventTimeoutWait ;;;
        enterPrecommit (ti_Height ti) (ti_Round ti)
    | RoundStepPrecommitWait =>
        fire EventTimeoutWait ;;;
        enterNewRound (ti_Height ti) (GoInt.add (ti_Round ti) 1)
    | _ => panic "Invalid timeout step"
    end.

(** What the [select] of the receive routine picked. *)
Inductive Selected :=
| FromPeerMsgQueue (mi : msgInfo)
| FromInternalMsgQueue (mi : msgInfo)
| FromTimeoutTicker (ti : timeoutInfo)
| FromQuit.

(** [receiveRoutine] handles messages which may cause state transitions.
    [inputs] is what the successive selects deliver; when it is exhausted the
    routine blocks. *)
Fixpoint receiveRoutine (maxSteps : Z) (inputs : list Selected) : Eff unit :=
  let* n := gets nSteps in
  if (0 <? maxSteps) && (maxSteps <=? n) then
    modify (cs_set_nSteps 0)
  else
    match inputs with
    | [] => ret tt
    | sel :: rest =>
        let* rs := gets roundState in
        match sel with
        | FromPeerMsgQueue mi =>
            wal_Save (WalMsgInfo mi) ;;;
            (* handles proposals, block parts, votes *)
            handleMsg mi rs ;;;
            receiveRoutine maxSteps rest
        | FromInternalMsgQueue mi =>
            wal_Save (WalMsgInfo mi) ;;;
            handleMsg mi rs ;;;
            receiveRoutine maxSteps rest
        | FromTimeoutTicker ti =>
            wal_Save (WalTimeoutInfo ti) ;;;
            (* if the timeout is relevant to the rs go to the next step *)
            handleTimeout ti rs ;;;
            receiveRoutine maxSteps rest
        | FromQuit =>
            (* close wal now that we're done writing to it *)
            (let* w := gets wal in when (bool_decide (w ≠ None)) (emit WalStop)) ;;;
            emit CloseDone
        end
    end.

(** ** Frames

    [static]: what no step function writes. [core]: the round state without
    round, step and epoch. *)
Definition static (cs : ConsensusState) :=
  (config cs, mempool cs, privValidator cs, nodeInfo cs, timeoutParams cs,
   evsw cs, wal cs, replayMode cs, now cs).

Definition core (rs : RoundState) :=
  (Height rs, StartTime rs, CommitTime rs, Validators rs, Proposal rs,
   ProposalBlock rs, ProposalBlockParts rs, ProposerNetAddr rs,
   ProposerPeerKey rs, LockedRound rs, LockedBlock rs, LockedBlockParts rs,
   Votes rs, VoteSignAggr rs, CommitRound rs, LastCommit rs, LastValidators rs,
   PrevoteMaj23SignAggr rs, PrecommitMaj23SignAggr rs).

Definition same_static (cs cs' : ConsensusState) : Prop := static cs = static cs'.

Definition same_core (cs cs' : ConsensusState) : Prop :=
  static cs = static cs' /\ core (roundState cs) = core (roundState cs')
  /\ state cs = state cs' /\ blockStoreHeight cs = blockStoreHeight cs'.

Definition any_effect (e : Effect) : Prop := True.

End Engine.

(** ** Vocabulary of the specification *)

Section Vocabulary.
Context `{Collab : Collaborators}.

(** The two proposal-acceptance functions of the source; the engine runs
    [newSetProposal] ([true]). *)
Definition setProposal_variant (new : bool) : Proposal.t -> Eff (option error) :=
  if new then newSetProposal else defaultSetProposal.

(** POLRound is -1 or in [0, round-1]. *)
Definition polround_ok (p : Proposal.t) : Prop :=
  Proposal.POLRound p = -1 \/ 0 <= Proposal.POLRound p < Proposal.Round p.

(** The proposal is dropped before any check of its content: there is a
    current proposal, or the height or round differs, or the step is at or
    past Commit. *)
Definition ignored (cs : ConsensusState) (p : Proposal.t) : Prop :=
  Proposal (roundState cs) <> None
  \/ Proposal.Height p <> Height (roundState cs)
  \/ Proposal.Round p <> Round (roundState cs)
  \/ step_code RoundStepCommit <= step_code (Step (roundState cs)).

(** No current proposal, same height and round, step below Commit. *)
Definition applies (cs : ConsensusState) (p : Proposal.t) : Prop :=
  Proposal (roundState cs) = None
  /\ Proposal.Height p = Height (roundState cs)
  /\ Proposal.Round p = Round (roundState cs)
  /\ step_code (Step (roundState cs)) < step_code RoundStepCommit.

(** The signature verifies under the current proposer's public key. *)
Definition signed_by_proposer (cs : ConsensusState) (p : Proposal.t) : Prop :=
  exists proposer st,
    GetProposer (Validators (roundState cs)) = Some proposer
    /\ state cs = Some st
    /\ VerifyBytes (Validator.PubKey proposer)
         (SignBytes_Proposal (State_ChainID st) p) (Proposal.Signature p) = true.

Definition accepts (cs : ConsensusState) (p : Proposal.t) : Prop :=
  applies cs p /\ polround_ok p /\ signed_by_proposer cs p.

(** The state after installing [p]: the proposal, a fresh part set made
    from its parts header, and the proposer's peer key (and, in
    [newSetProposal], net address). *)
Definition installed (new : bool) (p : Proposal.t) (cs : ConsensusState) : ConsensusState :=
  let rs := roundState cs in
  let rs := set_Proposal (Some p) rs in
  let rs := set_ProposalBlockParts
              (NewPartSetFromHeader (Proposal.BlockPartsHeader p)) rs in
  let rs := if new then set_ProposerNetAddr (Proposal.ProposerNetAddr p) rs else rs in
  let rs := set_ProposerPeerKey (Proposal.ProposerPeerKey p) rs in
  cs_set_roundState rs cs.

(** The votes put on the internal message queue, in order. *)
Definition sent_vote (e : Effect) : option Vote.t :=
  match e with
  | SendInternal {| Msg := VoteMessage v |} => Some v
  | _ => None
  end.

Definition sent_votes (tr : list Effect) : list Vote.t := omap sent_vote tr.

Definition no_vote (e : Effect) : Prop := sent_vote e = None.

(** The vote of kind [type_] for [(hash, header)] that this node signs in
    state [cs]: none when it has no key, is not in the validator set, has
    no chain state, or the signer refuses. *)
Definition our_vote (cs : ConsensusState) (type_ : Z) (hash : Bytes)
    (header : PartSetHeader.t) : option Vote.t :=
  match privValidator cs, state cs with
  | Some pv, Some st =>
      let rs := roundState cs in
      if ValidatorSet.HasAddress (Validators rs) (GetAddress pv) then
        let vote := Vote.mk (GetAddress pv)
                      (ValidatorSet.GetByAddress (Validators rs) (GetAddress pv))
                      (Height rs) (Round rs) type_ (BlockID.mk hash header) [] [] in
        match SignVote pv (State_ChainID st) vote with
        | Some (sig, signBytes) =>
            Some (Vote.mk (GetAddress pv)
                    (ValidatorSet.GetByAddress (Validators rs) (GetAddress pv))
                    (Height rs) (Round rs) type_ (BlockID.mk hash header)
                    sig signBytes)
        | None => None
        end
      else None
  | _, _ => None
  end.

(** The guard shared by the [enterX(height, round)] functions lets the call
    through: same height, not an earlier round, and in the same round only
    from a step before [step]. *)
Definition may_enter (cs : ConsensusState) (height round : Z) (step : RoundStepType) : Prop :=
  Height (roundState cs) = height
  /\ Round (roundState cs) <= round
  /\ (Round (roundState cs) = round ->
      step_code (Step (roundState cs)) < step_code step).




(** The guard of [enterNewRound] lets the call through: same height, not an
    earlier round, and the current round only from [RoundStepNewHeight]. *)
Definition may_enter_new_round (cs : ConsensusState) (height round : Z) : Prop :=
  Height (roundState cs) = height
  /\ Round (roundState cs) <= round
  /\ (Round (roundState cs) = round -> Step (roundState cs) = RoundStepNewHeight).

(** The stage of [finalizeCommit] an effect belongs to: building the
    seen-commit, saving the block, closing the height in the WAL, applying
    the block, and whatever follows. *)
Definition phase (e : Effect) : nat :=
  match e with
  | Sleep _ => 0
  | MakeSeenCommit _ _ => 1
  | SaveBlock _ _ _ => 2
  | WalEndHeight _ => 3
  | ApplyBlock _ _ => 4
  | _ => 5
  end.

Definition phase_le (e e' : Effect) : Prop := (phase e <= phase e')%nat.

Definition seen_commit_phase : nat := 1.
Definition save_block_phase : nat := 2.
Definition end_height_phase : nat := 3.
Definition apply_block_phase : nat := 4.

(** Every effect of stage [p] in [tr] comes before every effect of stage [q]. *)
Definition before (p q : nat) (tr : list Effect) : Prop :=
  forall i j e e',
    tr !! i = Some e -> tr !! j = Some e' -> phase e = p -> phase e' = q ->
    (i < j)%nat.

Definition after_apply (e : Effect) : Prop := phase e = 5%nat.

(** [finalizeCommit] gets past its guard and its sanity checks. *)
Definition finalizes (cs : ConsensusState) (height : Z) : Prop :=
  let rs := roundState cs in
  Height rs = height /\ Step rs = RoundStepCommit
  /\ exists blockID st,
       SignAggr_TwoThirdsMajority (HVSA_Precommits (VoteSignAggr rs) (CommitRound rs))
       = (blockID, true)
       /\ PartSet_HasHeader (ProposalBlockParts rs) (BlockID.PartsHeader blockID) = true
       /\ Block_HashesTo (ProposalBlock rs) (BlockID.Hash blockID) = true
       /\ state cs = Some st
       /\ State_ValidateBlock st (ProposalBlock rs) = true.

(** *** Voting power, as the specification counts it *)

(** The sum of the validators' voting power, as an unbounded integer. *)
Definition total_power (vs : ValidatorSet.t) : Z :=
  foldr (fun v acc => Validator.VotingPower v + acc) 0 (ValidatorSet.Validators vs).

(** The summed voting power of the validators whose bitmap bit is set. *)
Fixpoint power_of (l : list Validator.t) (bits : BitArray.t) : Z :=
  match l, bits with
  | v :: l', b :: bits' =>
      (if b then Validator.VotingPower v else 0) + power_of l' bits'
  | _, _ => 0
  end.

Definition signed_power (vs : ValidatorSet.t) (bits : BitArray.t) : Z :=
  power_of (ValidatorSet.Validators vs) bits.

(** The quorum: floor(2/3 * total) + 1. *)
Definition spec_quorum (vs : ValidatorSet.t) : Z := 2 * total_power vs / 3 + 1.

(** No validator has negative power and twice the total fits an int64, so
    the quorum computation does not wrap around. *)
Definition powers_fit (vs : ValidatorSet.t) : Prop :=
  Forall (fun v => 0 <= Validator.VotingPower v) (ValidatorSet.Validators vs)
  /\ 2 * total_power vs < 2 ^ 63.

(** The BLS check of the aggregate passes: there is a signature, the public
    keys of the bitmap aggregate, and the signature verifies over the
    canonical vote for (chain-id, height, round, kind, BlockID). *)
Definition signature_ok (rs : RoundState) (sa : SignAggr.t) : Prop :=
  exists sig aggrPubKey,
    SignAggr.SignatureAggr sa = Some sig
    /\ AggrPubKey (Validators rs) (SignAggr.BitArray sa) = Some aggrPubKey
    /\ VerifyBytes aggrPubKey
         (SignBytes_Vote (SignAggr.ChainID sa)
            (Vote.mk [] 0 (SignAggr.Height sa) (SignAggr.Round sa)
               (SignAggr.Type_ sa) (SignAggr.BlockID sa) [] []))
         sig = true.

Definition sizes_match (rs : RoundState) (sa : SignAggr.t) : Prop :=
  ValidatorSet.Size (Validators rs) = BitArray.Size (SignAggr.BitArray sa).

(** The aggregate is for the current height and round. *)
Definition aggr_applies (cs : ConsensusState) (sa : SignAggr.t) : Prop :=
  SignAggr.Height sa = Height (roundState cs)
  /\ SignAggr.Round sa = Round (roundState cs).

(** An aggregate of the same kind is already stored for this round. *)
Definition aggr_duplicate (cs : ConsensusState) (sa : SignAggr.t) : Prop :=
  (SignAggr.Type_ sa = VoteTypePrevote
   /\ PrevoteMaj23SignAggr (roundState cs) <> None)
  \/ (SignAggr.Type_ sa = VoteTypePrecommit
      /\ PrecommitMaj23SignAggr (roundState cs) <> None).

(** *** The receive loop, event by event *)

(** The WAL record the loop writes for what it selected. *)
Definition wal_record (sel : Selected) : option WALMessage :=
  match sel with
  | FromPeerMsgQueue mi | FromInternalMsgQueue mi => Some (WalMsgInfo mi)
  | FromTimeoutTicker ti => Some (WalTimeoutInfo ti)
  | FromQuit => None
  end.

(** The handler the loop dispatches to. *)
Definition handler (sel : Selected) (rs : RoundState) : Eff unit :=
  match sel with
  | FromPeerMsgQueue mi | FromInternalMsgQueue mi => handleMsg mi rs
  | FromTimeoutTicker ti => handleTimeout ti rs
  | FromQuit => ret tt
  end.

Definition max_steps_reached (maxSteps : Z) (cs : ConsensusState) : bool :=
  (0 <? maxSteps) && (maxSteps <=? nSteps cs).

(** [served maxSteps inputs cs tr]: [tr] is a run of the loop from [cs] in
    which every consumed event contributes one block, the WAL record of the
    event followed by what its handler emits when started in the very state
    the loop had when it selected the event. *)
Inductive served (maxSteps : Z) : list Selected -> ConsensusState -> list Effect -> Prop :=
| served_blocked cs :
    max_steps_reached maxSteps cs = false ->
    served maxSteps [] cs []
| served_max inputs cs :
    max_steps_reached maxSteps cs = true ->
    served maxSteps inputs cs []
| served_quit rest cs :
    max_steps_reached maxSteps cs = false ->
    served maxSteps (FromQuit :: rest) cs [WalStop; CloseDone]
| served_event sel rest cs m cs' tr tr' :
    max_steps_reached maxSteps cs = false ->
    wal_record sel = Some m ->
    handler sel (roundState cs) cs = Ret tt cs' tr ->
    served maxSteps rest cs' tr' ->
    served maxSteps (sel :: rest) cs (WalSave m :: tr ++ tr')
| served_panic sel rest cs m msg cs' tr :
    max_steps_reached maxSteps cs = false ->
    wal_record sel = Some m ->
    handler sel (roundState cs) cs = Panic msg cs' tr ->
    served maxSteps (sel :: rest) cs (WalSave m :: tr).

(** *** Building an aggregate *)

(** Validator [i] has a vote in the list, for whatever BlockID. *)
Definition present (votes : list (option Vote.t)) (i : nat) : bool :=
  match votes !! i with
  | Some (Some _) => true
  | _ => false
  end.

(** The votes [sendMaj23SignAggr] aggregates for a vote kind. *)
Definition votes_of_kind (rs : RoundState) (voteType : Z) : list (option Vote.t) :=
  if bool_decide (voteType = VoteTypePrevote) then
    VoteSet_Votes (HVS_Prevotes (Votes rs) (Round rs))
  else if bool_decide (voteType = VoteTypePrecommit) then
    VoteSet_Votes (HVS_Precommits (Votes rs) (Round rs))
  else [].

End Vocabulary.

(** ** A small instance of the collaborators

    A block is its height and hash, a part set is its header, the vote book
    of a height is one vote list with its tally, the aggregate book is the
    list of stored aggregates; a signature verifies when it repeats the
    public key. *)
Module Toy.

Definition block := (Z * Bytes)%type.
Definition voteset := (list (option Vote.t) * (BlockID.t * bool))%type.

Definition hashesTo (ob : option block) (h : Bytes) : bool :=
  match ob with
  | Some b => negb (bool_decide (length h = 0%nat)) && bool_decide (snd b = h)
  | None => false
  end.

Definition find_aggr (l : list SignAggr.t) (round type_ : Z) : option SignAggr.t :=
  List.find (fun sa => bool_decide (SignAggr.Round sa = round)
                       && bool_decide (SignAggr.Type_ sa = type_)) l.

Definition twoThirds (o : option SignAggr.t) : BlockID.t * bool :=
  match o with
  | Some sa => (SignAggr.Maj23 sa, true)
  | None => (BlockID.zero, false)
  end.

Definition polInfo (l : list SignAggr.t) : Z * BlockID.t :=
  match l with
  | sa :: _ => (SignAggr.Round sa, SignAggr.Maj23 sa)
  | [] => (-1, BlockID.zero)
  end.

#[export] Instance collab : Collaborators := {|
  Block := block;
  PartSet := PartSetHeader.t;
  Part := unit;
  Commit := option SignAggr.t;
  Tx := unit;
  ep_Epoch := unit;
  Mempool := unit;
  sm_State := (Z * ValidatorSet.t)%type;
  VoteSet := voteset;
  HeightVoteSet := voteset;
  HeightVoteSignAggr := list SignAggr.t;
  Block_Hash := fun ob => match ob with Some b => snd b | None => [] end;
  Block_HashesTo := hashesTo;
  Block_Height := fun ob => match ob with Some b => fst b | None => 0 end;
  Block_ExData := fun _ => [];
  MakeBlock := fun h _ _ _ _ _ _ _ _ => (Some (h, []), Some PartSetHeader.zero);
  ReadBlock := fun _ => ((0, []), None);
  EmptyCommit := None;
  PartSet_Header := fun o => default PartSetHeader.zero o;
  PartSet_HasHeader := fun o h =>
    match o with
    | Some p => bool_decide (PartSetHeader.Total p = PartSetHeader.Total h)
                && bool_decide (PartSetHeader.Hash p = PartSetHeader.Hash h)
    | None => false
    end;
  PartSet_Total := fun o => PartSetHeader.Total (default PartSetHeader.zero o);
  PartSet_GetPart := fun _ _ => tt;
  PartSet_AddPart := fun p _ _ => (p, false, None);
  PartSet_IsComplete := fun _ => false;
  NewPartSetFromHeader := fun h => Some h;
  Proposal_BlockHeaderHash := Proposal.Hash;
  SignBytes_Proposal := fun _ _ => [];
  SignBytes_Vote := fun _ _ => [];
  VerifyBytes := fun pk _ sig => bool_decide (sig = pk);
  BLSSignatureAggregate := fun sigs => Some (concat sigs);
  GetProposer := fun vs => head (ValidatorSet.Validators vs);
  IncrementAccum := fun _ vs => vs;
  ValidatorSet_Hash := fun _ => [];
  AggrPubKey := fun _ _ => Some [];
  SignAggr_TwoThirdsMajority := twoThirds;
  SignAggr_HasTwoThirdsMajority := fun o _ => snd (twoThirds o);
  SignAggr_MakeCommit := fun o => o;
  NewHeightVoteSignAggr := fun _ _ _ => [];
  HVSA_Prevotes := fun l r => find_aggr l r VoteTypePrevote;
  HVSA_Precommits := fun l r => find_aggr l r VoteTypePrecommit;
  HVSA_getSignAggr := find_aggr;
  HVSA_POLInfo := polInfo;
  HVSA_SetRound := fun _ l => l;
  HVSA_AddSignAggr := fun sa l => sa :: l;
  HVSA_isNil := fun _ => false;
  NewHeightVoteSet := fun _ _ _ => ([], (BlockID.zero, false));
  HVS_chainID := fun _ => "toy";
  HVS_Prevotes := fun v _ => v;
  HVS_Precommits := fun v _ => v;
  HVS_AddVote := fun _ _ v => (v, false, None);
  VoteSet_HasTwoThirdsAny := fun v => snd (snd v);
  VoteSet_HasTwoThirdsMajority := fun v => snd (snd v);
  VoteSet_TwoThirdsMajority := snd;
  VoteSet_Votes := fst;
  State_ChainID := fun _ => "toy";
  State_LastBlockHeight := fst;
  State_LastBlockID := fun _ => BlockID.zero;
  State_AppHash := fun _ => [];
  State_Epoch := fun _ => tt;
  State_GetValidators := fun st => (snd st, snd st);
  State_ValidateBlock := fun _ _ => true;
  State_ApplyBlock := fun st _ _ _ => ((fst st + 1, snd st), true);
  Mempool_Reap := fun _ _ => [];
  Epoch_ProposeTransactions := fun _ _ _ => Some [];
  Epoch_ShouldProposeNextEpoch := fun _ _ => false;
  Epoch_ProposeNextEpoch := fun e _ => e;
  Epoch_SetNextEpoch := fun e _ => e;
  Epoch_NextEpochBytes := fun _ => [];
  Epoch_FromBytes := fun _ => None;
  Epoch_ValidateNextEpoch := fun _ _ _ => true;
  logger_Fatal_exits := true
|}.

(** Four validators A, B, C, D of voting power 1. *)
Definition addrA : Bytes := [Byte.x0a].
Definition addrB : Bytes := [Byte.x0b].
Definition addrC : Bytes := [Byte.x0c].
Definition addrD : Bytes := [Byte.x0d].

Definition val (addr : Bytes) : Validator.t := Validator.mk addr addr 1 0.
Definition vals4 : ValidatorSet.t :=
  ValidatorSet.mk [val addrA; val addrB; val addrC; val addrD].

(** Validator A as the local signer. *)
Definition signerA : PrivValidator :=
  {| GetAddress := addrA; GetPubKey := addrA;
     SignVote := fun _ _ => Some (addrA, []);
     SignProposal := fun _ _ => Some addrA |}.

Definition hashB : Bytes := [Byte.xb0; Byte.x01].
Definition headerB : PartSetHeader.t := PartSetHeader.mk 1 [Byte.xb1].
Definition blockB : block := (1, hashB).
Definition idB : BlockID.t := BlockID.mk hashB headerB.

Definition tp0 : TimeoutParams :=
  {| Propose0 := 3000; ProposeDelta := 500; Prevote0 := 1000; PrevoteDelta := 500;
     Precommit0 := 1000; PrecommitDelta := 500; Commit0 := 1000;
     SkipTimeoutCommit := false |}.

Definition rs0 : RoundState :=
  {| Height := 1; Round := 0; Step := RoundStepNewHeight; StartTime := 0;
     CommitTime := 0; Epoch := tt; Validators := vals4; Proposal := None;
     ProposalBlock := None; ProposalBlockParts := None; ProposerNetAddr := "";
     ProposerPeerKey := ""; LockedRound := 0; LockedBlock := None;
     LockedBlockParts := None; Votes := ([], (BlockID.zero, false));
     VoteSignAggr := []; CommitRound := -1; LastCommit := None;
     LastValidators := vals4; PrevoteMaj23SignAggr := None;
     PrecommitMaj23SignAggr := None |}.

Definition cs_of (rs : RoundState) : ConsensusState :=
  {| config := {| chain_id := "toy"; block_size := 100; block_part_size := 10 |};
     blockStoreHeight := 0; mempool := tt; privValidator := Some signerA;
     nodeInfo := Some {| ListenAddres := "a:1"; KeyString := "ka" |};
     roundState := rs; epoch := tt; state := Some (0, vals4); timeoutParams := tp0;
     evsw := true; wal := Some {| light := false |}; replayMode := false;
     nSteps := 0; now := 0 |}.

(** An aggregate of height 1 with a good (toy) signature. *)
Definition aggr (round type_ : Z) (maj : BlockID.t) (bits : BitArray.t) : SignAggr.t :=
  SignAggr.mk 1 round type_ 4 maj maj "toy" bits (Some []) [].

(** Height 1, round 2, prevote step: locked on B since round 1, and the
    prevote aggregate of round 2 has +2/3 for nil. *)
Definition rs_nil_polka : RoundState :=
  set_Round 2 (set_Step RoundStepPrevote
    (set_LockedRound 1 (set_LockedBlock (Some blockB)
      (set_LockedBlockParts (Some headerB)
        (set_VoteSignAggr
           [aggr 2 VoteTypePrevote BlockID.zero [true; true; true; true]] rs0))))).

(** A proposal for B at height 1, round 0, signed by the proposer A. *)
Definition proposalB : Proposal.t :=
  Proposal.mk 1 0 hashB headerB (-1) BlockID.zero "a:1" "ka" addrA.

(** The same proposal with POLRound 0, which is not below its round 0. *)
Definition proposalB_badpol : Proposal.t :=
  Proposal.mk 1 0 hashB headerB 0 BlockID.zero "a:1" "ka" addrA.

(** The same proposal for height 2. *)
Definition proposalB_h2 : Proposal.t :=
  Proposal.mk 2 0 hashB headerB (-1) BlockID.zero "a:1" "ka" addrA.

(** Height 1, round 0, waiting on precommits: proposal B received, locked
    on B. *)
Definition rs_locked_r0 : RoundState :=
  set_Step RoundStepPrecommitWait
    (set_Proposal (Some proposalB) (set_ProposalBlock (Some blockB)
      (set_ProposalBlockParts (Some headerB)
        (set_LockedBlock (Some blockB) (set_LockedBlockParts (Some headerB) rs0))))).

(** Height 1 in the commit step: +2/3 precommits for B at round 0, block B
    complete, not yet stored. *)
Definition rs_commit : RoundState :=
  set_Step RoundStepCommit (set_CommitRound 0
    (set_ProposalBlock (Some blockB) (set_ProposalBlockParts (Some headerB)
      (set_VoteSignAggr
         [aggr 0 VoteTypePrecommit idB [true; true; true; false]] rs0)))).

(** Aggregates for height 1, round 0: three of four, and two of four. *)
Definition aggr_1110 : SignAggr.t := aggr 0 VoteTypePrevote idB [true; true; true; false].
Definition aggr_1100 : SignAggr.t := aggr 0 VoteTypePrevote idB [true; true; false; false].

(** Round 0 with a prevote aggregate already stored. *)
Definition rs_has_prevote_aggr : RoundState :=
  set_PrevoteMaj23SignAggr (Some aggr_1110) rs0.

(** Prevotes of round 0: A, B and C for block B, D for nil; the tally has
    +2/3 for B. *)
Definition prevote (addr : Bytes) (index : Z) (id : BlockID.t) : Vote.t :=
  Vote.mk addr index 1 0 VoteTypePrevote id addr [].

Definition votes_mixed : list (option Vote.t) :=
  [Some (prevote addrA 0 idB); Some (prevote addrB 1 idB);
   Some (prevote addrC 2 idB); Some (prevote addrD 3 BlockID.zero)].

Definition rs_mixed : RoundState := set_Votes (votes_mixed, (idB, true)) rs0.

Definition tick_propose : timeoutInfo :=
  {| ti_Duration := 3000; ti_Height := 1; ti_Round := 0; ti_Step := RoundStepPropose |}.

End Toy.

(** * Further vocabulary

    Positions, step records and the states the step functions leave, for
    the properties of the parts of [state.go] that the specification does
    not single out. *)

(** ** Comparing positions in the state machine *)

(** [CompareHRS]: three-way comparison of (height, round, step). *)
Definition CompareHRS (h1 r1 : Z) (s1 : RoundStepType) (h2 r2 : Z) (s2 : RoundStepType) : Z :=
  if h1 <? h2 then -1
  else if h1 >? h2 then 1
  else if r1 <? r2 then -1
  else if r1 >? r2 then 1
  else if step_code s1 <? step_code s2 then -1
  else if step_code s1 >? step_code s2 then 1
  else 0.

(** The lexicographic order on (height, round, step) that the comparison is
    meant to decide. *)
Definition hrs_lt (h1 r1 : Z) (s1 : RoundStepType) (h2 r2 : Z) (s2 : RoundStepType) : Prop :=
  h1 < h2 \/ (h1 = h2 /\ (r1 < r2 \/ (r1 = r2 /\ step_code s1 < step_code s2))).

(** [RoundStepType.String], on the numeric value of the step (a uint8). *)
Definition RoundStepType_String (rs : Z) : string :=
  match rs with
  | 1 => "RoundStepNewHeight"
  | 2 => "RoundStepNewRound"
  | 3 => "RoundStepPropose"
  | 4 => "RoundStepPrevote"
  | 5 => "RoundStepPrevoteWait"
  | 6 => "RoundStepPrecommit"
  | 7 => "RoundStepPrecommitWait"
  | 8 => "RoundStepCommit"
  | 9 => "RoundStepTest"
  | _ => "RoundStepUnknown" (* Cannot panic. *)
  end.

(** A timeout [base + delta * round] milliseconds that does not wrap
    around. *)
Definition timeout_fits (base delta round : Z) : Prop :=
  0 <= base /\ 0 <= delta /\ 0 <= round
  /\ (base + delta * round) * Millisecond < 2 ^ 63.

Section MoreVocabulary.
Context `{Collab : Collaborators}.

(** The position (height, round, step) of the engine does not move back
    from [cs] to [cs']. *)
Definition not_before (cs cs' : ConsensusState) : Prop :=
  CompareHRS (Height (roundState cs)) (Round (roundState cs)) (Step (roundState cs))
             (Height (roundState cs')) (Round (roundState cs')) (Step (roundState cs'))
  <= 0.


Definition same_height (cs cs' : ConsensusState) : Prop :=
  Height (roundState cs) = Height (roundState cs').

(** The state the "done" block of a step function leaves: round and step
    updated, one more step counted. *)
Definition stepped (round : Z) (step : RoundStepType) (cs : ConsensusState)
    : ConsensusState :=
  cs_set_nSteps (GoInt.add (nSteps cs) 1)
    (cs_set_roundState (set_Step step (set_Round round (roundState cs))) cs).

(** What [newStep] emits for it: the round state goes to the WAL, if there
    is one, and then to the event switch, if there is one. *)
Definition step_record (round : Z) (step : RoundStepType) (cs : ConsensusState)
    : list Effect :=
  let ev := {| ev_Height := Height (roundState cs); ev_Round := round;
               ev_Step := step |} in
  match wal cs with Some _ => [WalSave (WalRoundState ev)] | None => [] end
  ++ (if evsw cs then [Fire (EventNewRoundStep ev)] else []).

(** The state [enterNewRound] sets up before it proposes: round and step
    updated, the proposer rotated if the round is new, the proposal and the
    stored aggregates dropped unless this is round 0, and the aggregate book
    extended to the next round. *)
Definition new_round_setup (round : Z) (cs : ConsensusState) : ConsensusState :=
  let rs := roundState cs in
  let validators :=
    if Round rs <? round
    then IncrementAccum (GoInt.sub round (Round rs)) (Validators rs)
    else Validators rs in
  let rs1 := set_Validators validators
               (set_Step RoundStepNewRound (set_Round round rs)) in
  let rs2 :=
    if bool_decide (round = 0) then rs1
    else set_PrecommitMaj23SignAggr None (set_PrevoteMaj23SignAggr None
           (set_ProposalBlockParts None (set_ProposalBlock None
              (set_Proposal None rs1)))) in
  cs_set_roundState
    (set_VoteSignAggr (HVSA_SetRound (GoInt.add round 1) (VoteSignAggr rs2)) rs2) cs.

(** [m] never moves the position back and never changes the height. *)
Definition advances (m : Eff unit) : Prop :=
  forall cs,
    Height (roundState (out_state (m cs))) = Height (roundState cs)
    /\ not_before cs (out_state (m cs)).

(** [keeps I P m]: started in a state that satisfies [I], [m] ends in one
    and emits only effects that satisfy [P]. *)
Definition keeps {A} (I : ConsensusState -> Prop) (P : Effect -> Prop) (m : Eff A)
    : Prop :=
  forall cs, I cs -> I (out_state (m cs)) /\ Forall P (out_trace (m cs)).

(** The node has no private validator: it only observes. *)
Definition observer (cs : ConsensusState) : Prop := privValidator cs = None.

(** The effect carries nothing this node signed: no vote, proposal or block
    part on the internal queue, no vote forwarded to the proposer, no
    proposal handed to the reactor. *)
Definition unsigned (e : Effect) : Prop :=
  match e with
  | SendInternal {| Msg := VoteMessage _ |}
  | SendInternal {| Msg := ProposalMessage _ |}
  | SendInternal {| Msg := BlockPartMessage _ _ _ |}
  | Fire (EventVote2Proposer _ _)
  | Fire (EventProposalBlockParts _ _) => False
  | _ => True
  end.

(** The states [enterPrecommit] signs in differ from the one it started
    in by the lock and the proposal block only. *)
Definition same_position (cs cs0 : ConsensusState) : Prop :=
  Height (roundState cs0) = Height (roundState cs)
  /\ Round (roundState cs0) = Round (roundState cs).

(** [cs] with another vote book. *)
Definition with_votes (votes : HeightVoteSet) (cs : ConsensusState) : ConsensusState :=
  cs_set_roundState (set_Votes votes (roundState cs)) cs.

Definition only_votes (cs cs' : ConsensusState) : Prop :=
  exists votes, cs' = with_votes votes cs.

(** The effect announces a +2/3 aggregate (to the reactor or on the
    internal queue), or is a pause. *)
Definition announces_aggregate (e : Effect) : Prop :=
  match e with
  | Fire (EventSignAggr _)
  | SendInternal {| Msg := Maj23SignAggrMessage _ |}
  | Sleep _ => True
  | _ => False
  end.

(** The proposal [defaultDecideProposal] makes for a block and its parts,
    before it is signed. *)
Definition proposal_for (height round : Z) (cs : ConsensusState) (ni : NodeInfo)
    (block : option Block) (parts : option PartSet) : Proposal.t :=
  let '(polRound, polBlockID) := HVSA_POLInfo (VoteSignAggr (roundState cs)) in
  NewProposal height round (Block_Hash block) (PartSet_Header parts)
    polRound polBlockID (ListenAddres ni) (KeyString ni).

(** The block parts of [parts], each as a message for the internal queue,
    in index order. *)
Definition part_messages (cs : ConsensusState) (parts : option PartSet) : list Effect :=
  (fun i => SendInternal
              {| Msg := BlockPartMessage (Height (roundState cs)) (Round (roundState cs))
                          (PartSet_GetPart parts i);
                 PeerKey := "" |})
  <$> seqZ 0 (PartSet_Total parts).

(** *** Moving to the next height *)

(** The state [updateToStateAndEpoch] builds for the height after [st]: a
    fresh round state at round 0, step NewHeight, with the last commit taken
    from the precommit aggregate of the commit round. The proposer's address
    and peer key and the commit time are the fields it does not write. *)
Definition new_height_state (st : sm_State) (ep : ep_Epoch) (cs : ConsensusState)
    : ConsensusState :=
  let rs := roundState cs in
  let validators := snd (State_GetValidators st) in
  let height := GoInt.add (State_LastBlockHeight st) 1 in
  let lastPrecommits :=
    if (-1 <? CommitRound rs) && negb (HVSA_isNil (VoteSignAggr rs))
    then HVSA_Precommits (VoteSignAggr rs) (CommitRound rs)
    else None in
  let start :=
    tp_Commit (timeoutParams cs)
      (if bool_decide (CommitTime rs = 0) then now cs else CommitTime rs) in
  {| config := config cs; blockStoreHeight := blockStoreHeight cs;
     mempool := mempool cs; privValidator := privValidator cs;
     nodeInfo := nodeInfo cs;
     roundState :=
       {| Height := height; Round := 0; Step := RoundStepNewHeight;
          StartTime := start; CommitTime := CommitTime rs; Epoch := ep;
          Validators := validators; Proposal := None; ProposalBlock := None;
          ProposalBlockParts := None; ProposerNetAddr := ProposerNetAddr rs;
          ProposerPeerKey := ProposerPeerKey rs; LockedRound := 0;
          LockedBlock := None; LockedBlockParts := None;
          Votes := NewHeightVoteSet (chain_id (config cs)) height validators;
          VoteSignAggr := NewHeightVoteSignAggr (chain_id (config cs)) height validators;
          CommitRound := -1; LastCommit := lastPrecommits;
          LastValidators := fst (State_GetValidators st);
          PrevoteMaj23SignAggr := None; PrecommitMaj23SignAggr := None |};
     epoch := ep; state := Some st; timeoutParams := timeoutParams cs;
     evsw := evsw cs; wal := wal cs; replayMode := replayMode cs;
     nSteps := GoInt.add (nSteps cs) 1; now := now cs |}.

(** The sanity checks of [updateToStateAndEpoch] pass for [st], and [st] is
    further out than the state the engine has. *)
Definition next_state_fits (cs : ConsensusState) (st : sm_State) : Prop :=
  let rs := roundState cs in
  (-1 < CommitRound rs -> 0 < Height rs -> Height rs = State_LastBlockHeight st)
  /\ (forall cur, state cs = Some cur ->
        GoInt.add (State_LastBlockHeight cur) 1 = Height rs
        /\ State_LastBlockHeight cur < State_LastBlockHeight st).

(** What [finalizeCommit] emits up to and including the call of
    [ApplyBlock], and the state it has then: the block store has the block. *)
Definition commit_prefix (height : Z) (cs : ConsensusState) : list Effect :=
  let rs := roundState cs in
  let precommits := HVSA_Precommits (VoteSignAggr rs) (CommitRound rs) in
  let seenCommit := SignAggr_MakeCommit precommits in
  Sleep newHeightChangeSleepDuration
  :: (if blockStoreHeight cs <? Block_Height (ProposalBlock rs)
      then [MakeSeenCommit precommits seenCommit;
            SaveBlock (ProposalBlock rs) (ProposalBlockParts rs) seenCommit]
      else [])
  ++ match wal cs with Some _ => [WalEndHeight height] | None => [] end
  ++ [ApplyBlock (ProposalBlock rs) (PartSet_Header (ProposalBlockParts rs))].

Definition block_stored (cs : ConsensusState) : ConsensusState :=
  if blockStoreHeight cs <? Block_Height (ProposalBlock (roundState cs))
  then cs_set_blockStoreHeight (Block_Height (ProposalBlock (roundState cs))) cs
  else cs.

(** The state the "done" block of [enterCommit] leaves before it tries to
    finalize: the round kept, step Commit, the commit round and time
    recorded, one more step counted. *)
Definition committed (commitRound : Z) (cs : ConsensusState) : ConsensusState :=
  cs_set_nSteps (GoInt.add (nSteps cs) 1)
    (cs_set_roundState
       (set_CommitTime (now cs)
          (set_CommitRound commitRound
             (set_Step RoundStepCommit
                (set_Round (Round (roundState cs)) (roundState cs))))) cs).

(** The round state the body of [enterCommit] leaves for a commit of
    [blockID]: a locked block that hashes to it becomes the proposal block,
    and a block that is neither the one committed nor has its parts header is
    dropped, with an empty part set for the committed header set up to
    receive it. *)
Definition commit_target (blockID : BlockID.t) (rs : RoundState) : RoundState :=
  let rs1 :=
    if Block_HashesTo (LockedBlock rs) (BlockID.Hash blockID)
    then set_ProposalBlockParts (LockedBlockParts rs)
           (set_ProposalBlock (LockedBlock rs) rs)
    else rs in
  if negb (Block_HashesTo (ProposalBlock rs1) (BlockID.Hash blockID))
     && negb (PartSet_HasHeader (ProposalBlockParts rs1) (BlockID.PartsHeader blockID))
  then set_ProposalBlockParts (NewPartSetFromHeader (BlockID.PartsHeader blockID))
         (set_ProposalBlock None rs1)
  else rs1.

(** What [finalizeCommit] does after a successful [ApplyBlock]: the new-block
    events. *)
Definition new_block_events (cs : ConsensusState) : list Effect :=
  [Fire (EventNewBlock (ProposalBlock (roundState cs)));
   Fire (EventNewBlockHeader (ProposalBlock (roundState cs)));
   Fire EventCacheFlush].

(** The timeout [scheduleRound0] asks for. *)
Definition round0_timeout (cs : ConsensusState) : Effect :=
  ScheduleTimeout {| ti_Duration := GoInt.sub (StartTime (roundState cs)) (now cs);
                     ti_Height := Height (roundState cs); ti_Round := 0;
                     ti_Step := RoundStepNewHeight |}.

End MoreVocabulary.

(** ** More runs on the small instance *)
Module ToyRuns.
Import Toy.


(** The engine of [cs_of], without a private validator. *)
Definition observer_of (rs : RoundState) : ConsensusState :=
  {| config := config (cs_of rs); blockStoreHeight := 0; mempool := tt;
     privValidator := None; nodeInfo := nodeInfo (cs_of rs);
     roundState := rs; epoch := tt; state := Some (0, vals4); timeoutParams := tp0;
     evsw := true; wal := wal (cs_of rs); replayMode := false;
     nSteps := 0; now := 0 |}.

(** Height 1, round 0, prevote step: block B is here and the prevote
    aggregate of round 0 has +2/3 for it. *)
Definition rs_polka_B : RoundState :=
  set_Step RoundStepPrevote
    (set_ProposalBlock (Some blockB) (set_ProposalBlockParts (Some headerB)
      (set_VoteSignAggr [aggr_1110] rs0))).

(** The precommit of validator A for block B, and for nil, at height 1,
    round 0, and its prevote for nil. *)
Definition precommitB : Vote.t := Vote.mk addrA 0 1 0 VoteTypePrecommit idB addrA [].
Definition precommit_nil : Vote.t :=
  Vote.mk addrA 0 1 0 VoteTypePrecommit BlockID.zero addrA [].

(** Height 1, precommit step: +2/3 precommits for B at round 0, block B
    complete. *)
Definition rs_precommitted : RoundState :=
  set_Step RoundStepPrecommit
    (set_ProposalBlock (Some blockB) (set_ProposalBlockParts (Some headerB)
      (set_VoteSignAggr
         [aggr 0 VoteTypePrecommit idB [true; true; true; false]] rs0))).

(** The same without the block. *)
Definition rs_precommitted_no_block : RoundState :=
  set_Step RoundStepPrecommit
    (set_VoteSignAggr [aggr 0 VoteTypePrecommit idB [true; true; true; false]] rs0).

(** Height 2, nothing locked, no last commit. *)
Definition rs_height2 : RoundState := set_Height 2 rs0.

(** A vote for height 2. *)
Definition prevote_h2 : Vote.t := Vote.mk addrB 1 2 0 VoteTypePrevote idB addrB [].

(** The aggregate [sendMaj23SignAggr] builds from [votes_mixed]. *)
Definition aggr_mixed : SignAggr.t :=
  SignAggr.SetMaj23 idB
    (SignAggr.set_SignBytes []
       (SignAggr.MakeSignAggr 1 0 VoteTypePrevote 4 BlockID.zero "toy"
          [true; true; true; true] (Some (addrA ++ addrB ++ addrC ++ addrD)))).

End ToyRuns.

(** ** A second small instance

    As [Toy], but the application refuses every block, and an aggregate has
    +2/3 only when three of its bits are set. *)
Module ToyFaulty.
Import Toy.

Definition counted (o : option SignAggr.t) : BlockID.t * bool :=
  match o with
  | Some sa =>
      (SignAggr.Maj23 sa,
       (3 <=? length (filter (fun b => b = true) (SignAggr.BitArray sa)))%nat)
  | None => (BlockID.zero, false)
  end.

#[export] Instance collab : Collaborators := {|
  Block := block;
  PartSet := PartSetHeader.t;
  Part := unit;
  Commit := option SignAggr.t;
  Tx := unit;
  ep_Epoch := unit;
  Mempool := unit;
  sm_State := (Z * ValidatorSet.t)%type;
  VoteSet := voteset;
  HeightVoteSet := voteset;
  HeightVoteSignAggr := list SignAggr.t;
  Block_Hash := fun ob => match ob with Some b => snd b | None => [] end;
  Block_HashesTo := hashesTo;
  Block_Height := fun ob => match ob with Some b => fst b | None => 0 end;
  Block_ExData := fun _ => [];
  MakeBlock := fun h _ _ _ _ _ _ _ _ => (Some (h, []), Some PartSetHeader.zero);
  ReadBlock := fun _ => ((0, []), None);
  EmptyCommit := None;
  PartSet_Header := fun o => default PartSetHeader.zero o;
  PartSet_HasHeader := fun o h =>
    match o with
    | Some p => bool_decide (PartSetHeader.Total p = PartSetHeader.Total h)
                && bool_decide (PartSetHeader.Hash p = PartSetHeader.Hash h)
    | None => false
    end;
  PartSet_Total := fun o => PartSetHeader.Total (default PartSetHeader.zero o);
  PartSet_GetPart := fun _ _ => tt;
  PartSet_AddPart := fun p _ _ => (p, false, None);
  PartSet_IsComplete := fun _ => false;
  NewPartSetFromHeader := fun h => Some h;
  Proposal_BlockHeaderHash := Proposal.Hash;
  SignBytes_Proposal := fun _ _ => [];
  SignBytes_Vote := fun _ _ => [];
  VerifyBytes := fun pk _ sig => bool_decide (sig = pk);
  BLSSignatureAggregate := fun sigs => Some (concat sigs);
  GetProposer := fun vs => head (ValidatorSet.Validators vs);
  IncrementAccum := fun _ vs => vs;
  ValidatorSet_Hash := fun _ => [];
  AggrPubKey := fun _ _ => Some [];
  SignAggr_TwoThirdsMajority := counted;
  SignAggr_HasTwoThirdsMajority := fun o _ => snd (counted o);
  SignAggr_MakeCommit := fun o => o;
  NewHeightVoteSignAggr := fun _ _ _ => [];
  HVSA_Prevotes := fun l r => find_aggr l r VoteTypePrevote;
  HVSA_Precommits := fun l r => find_aggr l r VoteTypePrecommit;
  HVSA_getSignAggr := find_aggr;
  HVSA_POLInfo := polInfo;
  HVSA_SetRound := fun _ l => l;
  HVSA_AddSignAggr := fun sa l => sa :: l;
  HVSA_isNil := fun _ => false;
  NewHeightVoteSet := fun _ _ _ => ([], (BlockID.zero, false));
  HVS_chainID := fun _ => "toy";
  HVS_Prevotes := fun v _ => v;
  HVS_Precommits := fun v _ => v;
  HVS_AddVote := fun _ _ v => (v, false, None);
  VoteSet_HasTwoThirdsAny := fun v => snd (snd v);
  VoteSet_HasTwoThirdsMajority := fun v => snd (snd v);
  VoteSet_TwoThirdsMajority := snd;
  VoteSet_Votes := fst;
  State_ChainID := fun _ => "toy";
  State_LastBlockHeight := fst;
  State_LastBlockID := fun _ => BlockID.zero;
  State_AppHash := fun _ => [];
  State_Epoch := fun _ => tt;
  State_GetValidators := fun st => (snd st, snd st);
  State_ValidateBlock := fun _ _ => true;
  State_ApplyBlock := fun st _ _ _ => (st, false);
  Mempool_Reap := fun _ _ => [];
  Epoch_ProposeTransactions := fun _ _ _ => Some [];
  Epoch_ShouldProposeNextEpoch := fun _ _ => false;
  Epoch_ProposeNextEpoch := fun e _ => e;
  Epoch_SetNextEpoch := fun e _ => e;
  Epoch_NextEpochBytes := fun _ => [];
  Epoch_FromBytes := fun _ => None;
  Epoch_ValidateNextEpoch := fun _ _ _ => true;
  logger_Fatal_exits := true
|}.

Definition rs0 : @RoundState collab :=
  {| Height := 1; Round := 0; Step := RoundStepNewHeight; StartTime := 0;
     CommitTime := 0; Epoch := tt; Validators := vals4; Proposal := None;
     ProposalBlock := None; ProposalBlockParts := None; ProposerNetAddr := "";
     ProposerPeerKey := ""; LockedRound := 0; LockedBlock := None;
     LockedBlockParts := None; Votes := ([], (BlockID.zero, false));
     VoteSignAggr := []; CommitRound := -1; LastCommit := None;
     LastValidators := vals4; PrevoteMaj23SignAggr := None;
     PrecommitMaj23SignAggr := None |}.

Definition cs_of (rs : @RoundState collab) : @ConsensusState collab :=
  {| config := {| chain_id := "toy"; block_size := 100; block_part_size := 10 |};
     blockStoreHeight := 0; mempool := tt; privValidator := Some signerA;
     nodeInfo := Some {| ListenAddres := "a:1"; KeyString := "ka" |};
     roundState := rs; epoch := tt; state := Some (0, vals4); timeoutParams := tp0;
     evsw := true; wal := Some {| light := false |}; replayMode := false;
     nSteps := 0; now := 0 |}.

(** Height 1 in the commit step: +2/3 precommits for B at round 0, block B
    complete, not yet stored. *)
Definition rs_commit : @RoundState collab :=
  set_Step RoundStepCommit (set_CommitRound 0
    (set_ProposalBlock (Some blockB) (set_ProposalBlockParts (Some headerB)
      (set_VoteSignAggr
         [aggr 0 VoteTypePrecommit idB [true; true; true; false]] rs0)))).

(** Height 1, round 0, prevote step: the prevote aggregate of round 0 has
    two bits of four. *)
Definition rs_weak_polka : @RoundState collab :=
  set_Step RoundStepPrevote (set_VoteSignAggr [aggr_1100] rs0).

End ToyFaulty.

(** * Properties *)

(** ** Rules for [sound] *)

Section SoundRules.
Context {S E : Type} (R : relation S) `{!PreOrder R} (P : E -> Prop).

Lemma sound_ret {A} (a : A) : sound R P (ret a).
Proof. intros s; simpl; split; [reflexivity | constructor]. Qed.

Lemma sound_gets {A} (f : S -> A) : sound R P (gets f).
Proof. intros s; simpl; split; [reflexivity | constructor]. Qed.

Lemma sound_panic {A} msg : sound R P (@panic S E A msg).
Proof. intros s; simpl; split; [reflexivity | constructor]. Qed.

Lemma sound_emit e : P e -> sound R P (@emit S E e).
Proof. intros He s; simpl; split; [reflexivity | repeat constructor; exact He]. Qed.

Lemma sound_modify (f : S -> S) : (forall s, R s (f s)) -> sound R P (@modify S E f).
Proof. intros Hf s; simpl; split; [apply Hf | constructor]. Qed.

Lemma sound_bind {A B} (m : M S E A) (k : A -> M S E B) :
  sound R P m -> (forall a, sound R P (k a)) -> sound R P (bind m k).
Proof.
  intros Hm Hk s. unfold bind.
  destruct (Hm s) as [HR HP].
  destruct (m s) as [a s1 tr1 | msg s1 tr1]; simpl in *; [|by split].
  destruct (Hk a s1) as [HR' HP'].
  destruct (k a s1) as [b s2 tr2 | msg s2 tr2]; simpl in *;
    (split; [by etrans | by apply Forall_app]).
Qed.

Lemma sound_defer {A} (body : M S E A) (deferred : M S E unit) :
  sound R P body -> sound R P deferred -> sound R P (defer body deferred).
Proof.
  intros Hb Hd s. unfold defer.
  destruct (Hb s) as [HR HP].
  destruct (body s) as [a s1 tr1 | msg s1 tr1]; simpl in *;
    destruct (Hd s1) as [HR' HP'];
    destruct (deferred s1) as [b s2 tr2 | msg' s2 tr2]; simpl in *;
    (split; [by etrans | by apply Forall_app]).
Qed.

Lemma sound_when (b : bool) (m : M S E unit) :
  sound R P m -> sound R P (when b m).
Proof. intros Hm. destruct b; simpl; [exact Hm | apply sound_ret]. Qed.

Lemma sound_weaken {A} (R' : relation S) (P' : E -> Prop) (m : M S E A) :
  (forall s s', R' s s' -> R s s') -> (forall e, P' e -> P e) ->
  sound R' P' m -> sound R P m.
Proof.
  intros HR HP Hm s. destruct (Hm s) as [H1 H2]. split; [by apply HR|].
  eapply Forall_impl; eauto.
Qed.

End SoundRules.

(** ** Laws of the effect monad *)

Section MonadLaws.
Context {S E : Type}.

Lemma outcome_eta {A} (o : Outcome S E A) :
  match o with
  | Ret a s tr => Ret a s ([] ++ tr)
  | Panic msg s tr => Panic msg s ([] ++ tr)
  end = o.
Proof. by destruct o. Qed.

Lemma bind_ret {A B} (a : A) (k : A -> M S E B) s : bind (ret a) k s = k a s.
Proof. unfold bind, ret. apply outcome_eta. Qed.

Lemma bind_gets {A B} (f : S -> A) (k : A -> M S E B) s :
  bind (gets f) k s = k (f s) s.
Proof. unfold bind, gets. apply outcome_eta. Qed.

Lemma bind_modify {B} (f : S -> S) (k : unit -> M S E B) s :
  bind (modify f) k s = k tt (f s).
Proof. unfold bind, modify. apply outcome_eta. Qed.

Lemma bind_panic {A B} msg (k : A -> M S E B) s :
  bind (panic msg) k s = Panic msg s [].
Proof. reflexivity. Qed.

Lemma bind_assoc {A B C} (m : M S E A) (k : A -> M S E B) (k' : B -> M S E C) s :
  bind (bind m k) k' s = bind m (fun a => bind (k a) k') s.
Proof.
  unfold bind. destruct (m s) as [a s1 tr1|]; [|done].
  destruct (k a s1) as [b s2 tr2|]; [|done].
  destruct (k' b s2); by rewrite app_assoc.
Qed.

Lemma bind_emit_trace {B} e (k : unit -> M S E B) s :
  out_trace (bind (emit e) k s) = e :: out_trace (k tt s).
Proof. unfold bind, emit. by destruct (k tt s). Qed.

Lemma bind_emit_state {B} e (k : unit -> M S E B) s :
  out_state (bind (emit e) k s) = out_state (k tt s).
Proof. unfold bind, emit. by destruct (k tt s). Qed.


Lemma defer_state {A} (body : M S E A) (d : M S E unit) s :
  out_state (defer body d s) = out_state (d (out_state (body s))).
Proof. unfold defer. destruct (body s); cbn; by destruct (d _). Qed.

Lemma defer_trace {A} (body : M S E A) (d : M S E unit) s :
  out_trace (defer body d s)
  = out_trace (body s) ++ out_trace (d (out_state (body s))).
Proof. unfold defer. destruct (body s); cbn; by destruct (d _). Qed.

End MonadLaws.

Create HintDb sound discriminated.

(** Decompose a [sound] goal along the structure of the program; [side]
    settles what an [emit] or a [modify] leaves. *)
Ltac sound_step side :=
  lazymatch goal with
  | |- PreOrder _ => apply _
  | |- forall _, _ => intros ?
  | |- sound _ _ _ =>
      first
        [ assumption
        | solve [eauto 2 with sound]
        | apply sound_ret | apply sound_gets | apply sound_panic
        | apply sound_bind
        | apply sound_defer
        | apply sound_when
        | apply sound_emit
        | apply sound_modify
        | match goal with
          | |- sound _ _ (match ?x with _ => _ end) => destruct x
          end ]
  | |- _ => side
  end.

Ltac sound_auto side := repeat (sound_step side).

(** Run the deterministic prefix of a program under [out_state] or
    [out_trace]. *)
Ltac monad_run :=
  repeat first
    [ rewrite bind_assoc | rewrite bind_gets | rewrite bind_modify
    | rewrite bind_ret | rewrite bind_emit_state | rewrite bind_emit_trace ].

Section Properties.
Context `{Collab : Collaborators}.

#[local] Instance same_static_preorder : PreOrder same_static.
Proof. split; [intros x; reflexivity | intros x y z; unfold same_static; congruence]. Qed.

#[local] Instance same_core_preorder : PreOrder same_core.
Proof.
  split; [intros x; by repeat split |].
  intros x y z (?&?&?&?) (?&?&?&?). unfold same_core. repeat split; congruence.
Qed.

Ltac side_static := first [exact I | reflexivity].
Ltac side_core := first [exact I | by repeat split].

Ltac prims :=
  unfold rs_get, rs_upd, fire, wal_Save, deref, PanicSanity, PanicConsensus,
    updateHeight, updateRoundStep, scheduleTimeout, scheduleRound0,
    sendInternalMessage, precommit_nil, logger_Fatal.

Section Generic.
Context (R : relation ConsensusState) `{!PreOrder R} (P : Effect -> Prop).

Lemma sound_forM_ {A} (l : list A) (f : A -> Eff unit) :
  (forall a, sound R P (f a)) -> sound R P (forM_ l f).
Proof.
  intros Hf. induction l as [|a l IH]; simpl; [apply sound_ret; done|].
  apply sound_bind; [done | apply Hf | intros _; exact IH].
Qed.

End Generic.

(** *** Functions that leave the core of the round state alone *)

Lemma newStep_core : sound same_core any_effect newStep.
Proof. unfold newStep. prims. sound_auto side_core. Qed.
#[local] Hint Resolve newStep_core : sound.

Lemma signVote_core pv t h hd : sound same_core any_effect (signVote pv t h hd).
Proof. unfold signVote. prims. sound_auto side_core. Qed.
#[local] Hint Resolve signVote_core : sound.

Lemma IsProposer_core pv : sound same_core any_effect (IsProposer pv).
Proof. unfold IsProposer. prims. sound_auto side_core. Qed.
#[local] Hint Resolve IsProposer_core : sound.

Lemma signAddVote_core t h hd : sound same_core any_effect (signAddVote t h hd).
Proof. unfold signAddVote. prims. sound_auto side_core. Qed.
#[local] Hint Resolve signAddVote_core : sound.

Lemma doPrevote_core h r : sound same_core any_effect (doPrevote h r).
Proof. unfold doPrevote, newDoPrevote. prims. sound_auto side_core. Qed.
#[local] Hint Resolve doPrevote_core : sound.

Lemma enterPrevote_core h r : sound same_core any_effect (enterPrevote h r).
Proof. unfold enterPrevote. prims. sound_auto side_core. Qed.
#[local] Hint Resolve enterPrevote_core : sound.

Lemma createProposalBlock_core : sound same_core any_effect createProposalBlock.
Proof. unfold createProposalBlock. prims. sound_auto side_core. Qed.
#[local] Hint Resolve createProposalBlock_core : sound.

Lemma decideProposal_core h r : sound same_core any_effect (decideProposal h r).
Proof.
  unfold decideProposal, defaultDecideProposal. prims. sound_auto side_core.
  apply sound_forM_; [apply _|]. sound_auto side_core.
Qed.
#[local] Hint Resolve decideProposal_core : sound.

Lemma enterPropose_core h r : sound same_core any_effect (enterPropose h r).
Proof. unfold enterPropose. prims. sound_auto side_core. Qed.
#[local] Hint Resolve enterPropose_core : sound.

(** *** Every step function leaves the static part alone *)

Lemma core_static {A} (m : Eff A) :
  sound same_core any_effect m -> sound same_static any_effect m.
Proof. apply sound_weaken; [by intros s s' (?&_) | done]. Qed.

Lemma enterPropose_static h r : sound same_static any_effect (enterPropose h r).
Proof. apply core_static, enterPropose_core. Qed.
Lemma enterPrevote_static h r : sound same_static any_effect (enterPrevote h r).
Proof. apply core_static, enterPrevote_core. Qed.
Lemma signAddVote_static t h hd : sound same_static any_effect (signAddVote t h hd).
Proof. apply core_static, signAddVote_core. Qed.
Lemma newStep_static : sound same_static any_effect newStep.
Proof. apply core_static, newStep_core. Qed.
#[local] Hint Resolve enterPropose_static enterPrevote_static signAddVote_static
  newStep_static : sound.

Lemma enterNewRound_static h r : sound same_static any_effect (enterNewRound h r).
Proof. unfold enterNewRound. prims. sound_auto side_static. Qed.
#[local] Hint Resolve enterNewRound_static : sound.

Lemma enterPrevoteWait_static h r : sound same_static any_effect (enterPrevoteWait h r).
Proof. unfold enterPrevoteWait. prims. sound_auto side_static. Qed.
#[local] Hint Resolve enterPrevoteWait_static : sound.

Lemma enterPrecommit_static h r : sound same_static any_effect (enterPrecommit h r).
Proof. unfold enterPrecommit. prims. sound_auto side_static. Qed.
#[local] Hint Resolve enterPrecommit_static : sound.

Lemma enterPrecommitWait_static h r :
  sound same_static any_effect (enterPrecommitWait h r).
Proof. unfold enterPrecommitWait. prims. sound_auto side_static. Qed.
#[local] Hint Resolve enterPrecommitWait_static : sound.

Lemma updateToStateAndEpoch_static st ep :
  sound same_static any_effect (updateToStateAndEpoch st ep).
Proof. unfold updateToStateAndEpoch. prims. sound_auto side_static. Qed.
#[local] Hint Resolve updateToStateAndEpoch_static : sound.

Lemma finalizeCommit_static h : sound same_static any_effect (finalizeCommit h).
Proof. unfold finalizeCommit. prims. sound_auto side_static. Qed.
#[local] Hint Resolve finalizeCommit_static : sound.

Lemma tryFinalizeCommit_static h : sound same_static any_effect (tryFinalizeCommit h).
Proof. unfold tryFinalizeCommit. prims. sound_auto side_static. Qed.
#[local] Hint Resolve tryFinalizeCommit_static : sound.

Lemma enterCommit_static h r : sound same_static any_effect (enterCommit h r).
Proof. unfold enterCommit. prims. sound_auto side_static. Qed.
#[local] Hint Resolve enterCommit_static : sound.

Lemma setProposal_static p : sound same_static any_effect (setProposal p).
Proof.
  unfold setProposal, newSetProposal. prims.
  sound_auto side_static.
Qed.
#[local] Hint Resolve setProposal_static : sound.

Lemma addProposalBlockPart_static h part v :
  sound same_static any_effect (addProposalBlockPart h part v).
Proof. unfold addProposalBlockPart. prims. sound_auto side_static. Qed.
#[local] Hint Resolve addProposalBlockPart_static : sound.

Lemma setMaj23SignAggr_static sa : sound same_static any_effect (setMaj23SignAggr sa).
Proof. unfold setMaj23SignAggr. prims. sound_auto side_static. Qed.
#[local] Hint Resolve setMaj23SignAggr_static : sound.

Lemma sendMaj23SignAggr_static t : sound same_static any_effect (sendMaj23SignAggr t).
Proof. unfold sendMaj23SignAggr. prims. sound_auto side_static. Qed.
#[local] Hint Resolve sendMaj23SignAggr_static : sound.

Lemma addVote_static v k : sound same_static any_effect (addVote v k).
Proof. unfold addVote. prims. sound_auto side_static. Qed.
#[local] Hint Resolve addVote_static : sound.

Lemma tryAddVote_static v k : sound same_static any_effect (tryAddVote v k).
Proof. unfold tryAddVote. prims. sound_auto side_static. Qed.
#[local] Hint Resolve tryAddVote_static : sound.

Lemma handleMsg_static mi rs : sound same_static any_effect (handleMsg mi rs).
Proof. unfold handleMsg. prims. sound_auto side_static. Qed.

Lemma handleTimeout_static ti rs : sound same_static any_effect (handleTimeout ti rs).
Proof. unfold handleTimeout. prims. sound_auto side_static. Qed.

(** ** Proposal acceptance *)

Lemma step_leb_commit s :
  step_leb RoundStepCommit s = false <-> step_code s < step_code RoundStepCommit.
Proof. unfold step_leb. rewrite Z.leb_gt. done. Qed.

Lemma polround_check p :
  (bool_decide (Proposal.POLRound p ≠ -1)
   && ((Proposal.POLRound p <? 0) || (Proposal.Round p <=? Proposal.POLRound p)))
  = false <-> polround_ok p.
Proof.
  unfold polround_ok. destruct (decide (Proposal.POLRound p = -1)) as [->|Hne].
  - rewrite bool_decide_eq_false_2 by (intros H; by apply H). simpl. split; auto.
  - rewrite bool_decide_eq_true_2 by done. simpl.
    rewrite orb_false_iff, Z.ltb_ge, Z.leb_gt. lia.
Qed.

Lemma setProposal_accept new cs p :
  accepts cs p -> setProposal_variant new p cs = Ret None (installed new p cs) [].
Proof.
  intros ((Hnone & Hh & Hr & Hstep) & Hpol & (proposer & st & Hgp & Hst & Hv)).
  apply step_leb_commit in Hstep. apply polround_check in Hpol.
  unfold setProposal_variant, newSetProposal, defaultSetProposal.
  destruct new; unfold bind, gets, rs_upd, modify, ret, when, deref, installed;
    cbn; rewrite Hnone; cbn;
    rewrite (bool_decide_eq_false_2 _ (fun H => H Hh)),
            (bool_decide_eq_false_2 _ (fun H => H Hr)); cbn;
    rewrite Hstep, Hpol, Hgp; cbn; rewrite Hst; cbn; rewrite Hv; cbn; reflexivity.
Qed.

Lemma applies_or_ignored cs p : applies cs p \/ ignored cs p.
Proof.
  unfold applies, ignored.
  destruct (Proposal (roundState cs)) eqn:?; [right; left; done|].
  destruct (decide (Proposal.Height p = Height (roundState cs))); [|tauto].
  destruct (decide (Proposal.Round p = Round (roundState cs))); [|tauto].
  destruct (decide (step_code (Step (roundState cs)) < step_code RoundStepCommit));
    [left; done | right; right; right; right; lia].
Qed.

Lemma setProposal_ignored new cs p :
  ignored cs p -> setProposal_variant new p cs = Ret None cs [].
Proof.
  intros Hig.
  unfold setProposal_variant, newSetProposal, defaultSetProposal.
  destruct new; unfold bind, gets, ret; cbn;
    (destruct (Proposal (roundState cs)) eqn:Hp; [reflexivity|]); cbn;
    (case_bool_decide; [reflexivity|]); (case_bool_decide; [reflexivity|]); cbn;
    (destruct (step_leb RoundStepCommit (Step (roundState cs))) eqn:Hs;
       [reflexivity|]);
    apply step_leb_commit in Hs;
    exfalso; destruct Hig as [H'|[H'|[H'|H']]]; try done; lia.
Qed.

Lemma setProposal_bad_polround new cs p :
  applies cs p -> ~ polround_ok p ->
  setProposal_variant new p cs = Ret (Some ErrInvalidProposalPOLRound) cs [].
Proof.
  intros (Hnone & Hh & Hr & Hstep) Hpol.
  apply step_leb_commit in Hstep.
  assert (Hb : (bool_decide (Proposal.POLRound p ≠ -1)
                && ((Proposal.POLRound p <? 0)
                    || (Proposal.Round p <=? Proposal.POLRound p))) = true).
  { apply not_false_iff_true. by rewrite polround_check. }
  unfold setProposal_variant, newSetProposal, defaultSetProposal.
  destruct new; unfold bind, gets, ret; cbn; rewrite Hnone; cbn;
    rewrite (bool_decide_eq_false_2 _ (fun H => H Hh)),
            (bool_decide_eq_false_2 _ (fun H => H Hr)); cbn;
    rewrite Hstep, Hb; reflexivity.
Qed.

(** Past the POLRound check the proposal is installed, or the signature is
    rejected, or the proposer or the chain state is missing. *)
Lemma setProposal_checked new cs p :
  applies cs p -> polround_ok p ->
  accepts cs p
  \/ setProposal_variant new p cs = Ret (Some ErrInvalidProposalSignature) cs []
  \/ exists msg, setProposal_variant new p cs = Panic msg cs [].
Proof.
  intros Happ Hpol.
  destruct (GetProposer (Validators (roundState cs))) as [proposer|] eqn:Hgp;
    [destruct (state cs) as [st|] eqn:Hst;
     [destruct (VerifyBytes (Validator.PubKey proposer)
                  (SignBytes_Proposal (State_ChainID st) p)
                  (Proposal.Signature p)) eqn:Hv|]|].
  { left. split; [done|]. split; [done|]. by exists proposer, st. }
  all: right; destruct Happ as (Hnone & Hh & Hr & Hstep);
    apply step_leb_commit in Hstep; apply polround_check in Hpol;
    unfold setProposal_variant, newSetProposal, defaultSetProposal;
    destruct new; unfold bind, gets, ret, deref, panic; cbn; rewrite Hnone; cbn;
    rewrite (bool_decide_eq_false_2 _ (fun H => H Hh)),
            (bool_decide_eq_false_2 _ (fun H => H Hr)); cbn;
    rewrite Hstep, Hpol, Hgp; cbn; rewrite ?Hst; cbn; rewrite ?Hv; cbn; eauto.
Qed.

Lemma polround_ok_dec p : polround_ok p \/ ~ polround_ok p.
Proof. unfold polround_ok. lia. Qed.

(** Whatever [setProposal] does not install, it leaves the state alone. *)
Lemma setProposal_rejects new cs p :
  accepts cs p \/ out_state (setProposal_variant new p cs) = cs.
Proof.
  destruct (applies_or_ignored cs p) as [Happ|Hig];
    [|right; by rewrite setProposal_ignored].
  destruct (polround_ok_dec p) as [Hpol|Hpol];
    [|right; by rewrite setProposal_bad_polround].
  destruct (setProposal_checked new cs p Happ Hpol) as [?|[->|[msg ->]]]; auto.
Qed.

(** C5: [setProposal] (both [defaultSetProposal] and the installed
    [newSetProposal]) installs a proposal p, setting cs.Proposal and a fresh
    ProposalBlockParts made from p's parts header, exactly when there is no
    current proposal, height and round match, the step is below Commit,
    POLRound is -1 or in [0, round-1] and the signature verifies under the
    proposer's key; otherwise the state is left as it was. Every accepted
    proposal satisfies the POLRound bounds, and a proposal that reaches the
    POLRound check with a POLRound outside them is rejected with
    ErrInvalidProposalPOLRound. *)
Theorem setProposal_installs_only_accepted new cs p :
  (accepts cs p ->
     setProposal_variant new p cs = Ret None (installed new p cs) []
     /\ Proposal (roundState (installed new p cs)) = Some p
     /\ ProposalBlockParts (roundState (installed new p cs))
        = NewPartSetFromHeader (Proposal.BlockPartsHeader p))
  /\ (out_state (setProposal_variant new p cs) <> cs -> accepts cs p)
  /\ (Proposal (roundState cs) = None ->
      Proposal (roundState (out_state (setProposal_variant new p cs))) = Some p ->
      polround_ok p)
  /\ (applies cs p -> ~ polround_ok p ->
      setProposal_variant new p cs = Ret (Some ErrInvalidProposalPOLRound) cs [])
  /\ (~ polround_ok p -> out_state (setProposal_variant new p cs) = cs).
Proof.
  split; [|split; [|split; [|split]]].
  - intros Hacc. split; [by apply setProposal_accept|]. by destruct new.
  - intros Hne. by destruct (setProposal_rejects new cs p).
  - intros Hnone Hsome. destruct (setProposal_rejects new cs p) as [Hacc|Heq].
    + apply Hacc.
    + rewrite Heq in Hsome. congruence.
  - apply setProposal_bad_polround.
  - intros Hpol. destruct (setProposal_rejects new cs p) as [Hacc|Heq]; [|done].
    destruct Hpol. apply Hacc.
Qed.

(** C10: a proposal whose height or round differs from the round state's, or
    that arrives when cs.Proposal is already set, or when the step is at or
    past Commit, makes [setProposal] return a nil error and leave every field
    unchanged; an accepted proposal returns the same nil error, so the return
    value does not tell the two apart. *)
Theorem setProposal_silently_ignores new cs p :
  (ignored cs p -> setProposal_variant new p cs = Ret None cs [])
  /\ (accepts cs p ->
      exists cs', setProposal_variant new p cs = Ret None cs' []
                  /\ Proposal (roundState cs') = Some p).
Proof.
  split; [apply setProposal_ignored|].
  intros Hacc. exists (installed new p cs).
  split; [by apply setProposal_accept | by destruct new].
Qed.

(** ** Our own votes *)

Lemma our_vote_spec cs t hash hd v :
  our_vote cs t hash hd = Some v ->
  Vote.Type_ v = t /\ Vote.BlockID v = BlockID.mk hash hd
  /\ Vote.Height v = Height (roundState cs) /\ Vote.Round v = Round (roundState cs).
Proof.
  unfold our_vote. intros H. repeat case_match; simplify_eq. done.
Qed.

(** [signAddVote] sends exactly the vote this node can sign, if any. *)
Lemma signAddVote_sends t hash hd cs :
  sent_votes (out_trace (signAddVote t hash hd cs))
  = option_list (our_vote cs t hash hd).
Proof.
  unfold signAddVote, our_vote, signVote, IsProposer, sendInternalMessage.
  unfold bind, gets, rs_get, ret, when, deref, emit, panic, BytesToHash160; cbn.
  destruct (privValidator cs) as [pv|]; [|done]. cbn.
  destruct (ValidatorSet.HasAddress _ _); cbn; [|by destruct (state cs)].
  destruct (state cs) as [st|]; cbn; [|done].
  destruct (SignVote pv _ _) as [[sig sb]|]; cbn; [|done].
  destruct (GetProposer _); cbn; [|done].
  destruct (negb _ && negb _); cbn; done.
Qed.

Lemma signAddVote_state t hash hd cs : out_state (signAddVote t hash hd cs) = cs.
Proof.
  unfold signAddVote, signVote, IsProposer, sendInternalMessage.
  unfold bind, gets, rs_get, ret, when, deref, emit, panic; cbn.
  destruct (privValidator cs) as [pv|]; [|done]. cbn.
  destruct (ValidatorSet.HasAddress _ _); cbn; [|done].
  destruct (state cs) as [st|]; cbn; [|done].
  destruct (SignVote pv _ _) as [[sig sb]|]; cbn; [|done].
  destruct (GetProposer _); cbn; [|done].
  destruct (negb _ && negb _); cbn; done.
Qed.

Lemma vote_then_done t hash hd cs :
  let o := (signAddVote t hash hd ;;; ret tt) cs in
  out_state o = cs
  /\ sent_votes (out_trace o) = option_list (our_vote cs t hash hd).
Proof.
  cbn zeta.
  pose proof (signAddVote_sends t hash hd cs) as Hs.
  pose proof (signAddVote_state t hash hd cs) as Hst.
  unfold bind, ret.
  destruct (signAddVote t hash hd cs) as [a s tr|msg s tr]; cbn in *;
    rewrite ?app_nil_r; done.
Qed.

(** C7: deciding the prevote. If a block is locked the engine prevotes the
    locked block's hash; otherwise, if there is no proposal, it prevotes nil;
    otherwise it prevotes the proposed block's hash. The vote sent is the one
    vote this node can sign (none if it is not a validator), and the round
    state is not touched. *)
Theorem doPrevote_decision height round cs :
  let o := doPrevote height round cs in
  let rs := roundState cs in
  out_state o = cs
  /\ (LockedBlock rs <> None ->
      sent_votes (out_trace o)
      = option_list (our_vote cs VoteTypePrevote (Block_Hash (LockedBlock rs))
                       (PartSet_Header (LockedBlockParts rs))))
  /\ (LockedBlock rs = None -> Proposal rs = None ->
      sent_votes (out_trace o)
      = option_list (our_vote cs VoteTypePrevote [] PartSetHeader.zero))
  /\ (forall p, LockedBlock rs = None -> Proposal rs = Some p ->
      sent_votes (out_trace o)
      = option_list (our_vote cs VoteTypePrevote (Proposal_BlockHeaderHash p)
                       (Proposal.BlockPartsHeader p))).
Proof.
  cbn zeta.
  assert (Heq : exists hash hd,
    doPrevote height round cs = (signAddVote VoteTypePrevote hash hd ;;; ret tt) cs
    /\ match LockedBlock (roundState cs), Proposal (roundState cs) with
       | Some _, _ => hash = Block_Hash (LockedBlock (roundState cs))
                      /\ hd = PartSet_Header (LockedBlockParts (roundState cs))
       | None, None => hash = [] /\ hd = PartSetHeader.zero
       | None, Some p => hash = Proposal_BlockHeaderHash p
                         /\ hd = Proposal.BlockPartsHeader p
       end).
  { unfold doPrevote, newDoPrevote. rewrite bind_gets.
    destruct (LockedBlock (roundState cs)) eqn:Hl;
      [|destruct (Proposal (roundState cs)) eqn:Hp];
      (do 2 eexists; split; [reflexivity|]; split; reflexivity). }
  destruct Heq as (hash & hd & -> & Hcase).
  destruct (vote_then_done VoteTypePrevote hash hd cs) as [Hst Hs].
  split; [exact Hst|]. rewrite Hs.
  destruct (LockedBlock (roundState cs)) eqn:Hl;
    [|destruct (Proposal (roundState cs)) eqn:Hp];
    destruct Hcase as [-> ->]; repeat split; intros; simplify_eq; done.
Qed.

(** ** Precommit on a nil polka *)

Lemma guard_false cs height round step :
  may_enter cs height round step ->
  bool_decide (Height (roundState cs) ≠ height) || (round <? Round (roundState cs))
  || (bool_decide (Round (roundState cs) = round)
      && step_leb step (Step (roundState cs))) = false.
Proof.
  intros (Hh & Hr & Hs).
  rewrite (bool_decide_eq_false_2 _ (fun H => H Hh)).
  replace (round <? Round (roundState cs)) with false by (symmetry; apply Z.ltb_ge; lia).
  cbn. case_bool_decide; [|done]. cbn. unfold step_leb. apply Z.leb_gt. auto.
Qed.

Lemma core_lock rs rs' :
  core rs = core rs' ->
  LockedRound rs = LockedRound rs' /\ LockedBlock rs = LockedBlock rs'
  /\ LockedBlockParts rs = LockedBlockParts rs'.
Proof. unfold core. intros H. by simplify_eq. Qed.

Lemma core_proposal rs rs' :
  core rs = core rs' ->
  Proposal rs = Proposal rs' /\ ProposalBlock rs = ProposalBlock rs'
  /\ ProposalBlockParts rs = ProposalBlockParts rs'
  /\ PrevoteMaj23SignAggr rs = PrevoteMaj23SignAggr rs'
  /\ PrecommitMaj23SignAggr rs = PrecommitMaj23SignAggr rs'.
Proof. unfold core. intros H. by simplify_eq. Qed.

Lemma core_votes rs rs' :
  core rs = core rs' ->
  Height rs = Height rs' /\ Votes rs = Votes rs'
  /\ VoteSignAggr rs = VoteSignAggr rs'.
Proof. unfold core. intros H. by simplify_eq. Qed.

Lemma no_votes_sent tr : Forall no_vote tr -> sent_votes tr = [].
Proof.
  induction 1 as [|e tr He _ IH]; [done|].
  unfold sent_votes in *. cbn. unfold no_vote in He. by rewrite He.
Qed.




(** ** Entering a new round *)

Lemma new_round_guard_false cs height round :
  may_enter_new_round cs height round ->
  bool_decide (Height (roundState cs) ≠ height) || (round <? Round (roundState cs))
  || (bool_decide (Round (roundState cs) = round)
      && negb (step_eqb (Step (roundState cs)) RoundStepNewHeight)) = false.
Proof.
  intros (Hh & Hr & Hs).
  rewrite (bool_decide_eq_false_2 _ (fun H => H Hh)).
  replace (round <? Round (roundState cs)) with false by (symmetry; apply Z.ltb_ge; lia).
  cbn. case_bool_decide; [|done]. by rewrite Hs.
Qed.

(** C9 (as the code has it): entering a new round r <> 0 at the same height
    clears Proposal, ProposalBlock, ProposalBlockParts and the two stored
    +2/3 aggregates, while entering round 0 leaves them unchanged; the lock
    (LockedBlock, LockedRound, LockedBlockParts) is kept by every round
    change, and so are the height and the vote sets; the aggregate book is
    only extended to track round r+1. *)
Theorem enterNewRound_clears_proposal_keeps_lock height round cs :
  may_enter_new_round cs height round ->
  let rs := roundState cs in
  let rs' := roundState (out_state (enterNewRound height round cs)) in
  (round <> 0 ->
     Proposal rs' = None /\ ProposalBlock rs' = None
     /\ ProposalBlockParts rs' = None
     /\ PrevoteMaj23SignAggr rs' = None /\ PrecommitMaj23SignAggr rs' = None)
  /\ (round = 0 ->
     Proposal rs' = Proposal rs /\ ProposalBlock rs' = ProposalBlock rs
     /\ ProposalBlockParts rs' = ProposalBlockParts rs
     /\ PrevoteMaj23SignAggr rs' = PrevoteMaj23SignAggr rs
     /\ PrecommitMaj23SignAggr rs' = PrecommitMaj23SignAggr rs)
  /\ LockedBlock rs' = LockedBlock rs
  /\ LockedRound rs' = LockedRound rs
  /\ LockedBlockParts rs' = LockedBlockParts rs
  /\ Height rs' = Height rs
  /\ Votes rs' = Votes rs
  /\ VoteSignAggr rs' = HVSA_SetRound (GoInt.add round 1) (VoteSignAggr rs).
Proof.
  intros Hg. cbn zeta.
  unfold enterNewRound. rewrite bind_gets, (new_round_guard_false _ _ _ Hg).
  unfold updateRoundStep, rs_upd, fire, rs_get.
  destruct (bool_decide (round = 0)) eqn:H0; monad_run;
    match goal with
    | |- context [out_state (enterPropose ?h ?r ?c)] =>
        destruct (enterPropose_core h r c) as [(_ & Hcore & _) _];
        destruct (core_lock _ _ Hcore) as (L1 & L2 & L3);
        destruct (core_proposal _ _ Hcore) as (P1 & P2 & P3 & P4 & P5);
        destruct (core_votes _ _ Hcore) as (V1 & V2 & V3);
        rewrite <- ?L1, <- ?L2, <- ?L3, <- ?P1, <- ?P2, <- ?P3, <- ?P4, <- ?P5,
          <- ?V1, <- ?V2, <- ?V3
    end.
  - apply bool_decide_eq_true in H0. repeat split; try done.
  - apply bool_decide_eq_false in H0. repeat split; try done.
Qed.

(** ** Finalizing a commit *)

Lemma sorted_lookup (tr : list Effect) i j e e' :
  StronglySorted phase_le tr -> (i < j)%nat ->
  tr !! i = Some e -> tr !! j = Some e' -> phase_le e e'.
Proof.
  intros Hs. revert i j. induction Hs as [|a l Hs IH Hall]; intros i j Hij Hi Hj.
  - by rewrite lookup_nil in Hi.
  - destruct i as [|i], j as [|j]; try lia; cbn in *.
    + simplify_eq. rewrite Forall_forall in Hall. apply Hall.
      by eapply list_elem_of_lookup_2.
    + eapply (IH i j); [lia | done | done].
Qed.

Lemma sorted_before p q tr :
  StronglySorted phase_le tr -> (p < q)%nat -> before p q tr.
Proof.
  intros Hs Hpq i j e e' Hi Hj He He'.
  destruct (decide (i < j)%nat) as [|Hn]; [done|]. exfalso.
  destruct (decide (i = j)) as [->|Hne].
  - simplify_eq. lia.
  - pose proof (sorted_lookup tr j i e' e Hs ltac:(lia) Hj Hi) as Hle.
    unfold phase_le in Hle. lia.
Qed.

Lemma sorted_tail tr : Forall after_apply tr -> StronglySorted phase_le tr.
Proof.
  induction 1 as [|e tr He Hall IH]; constructor; [done|].
  eapply Forall_impl; [exact Hall|]. unfold after_apply, phase_le in *.
  intros e' He'. lia.
Qed.

#[local] Instance everything_preorder : PreOrder (fun _ _ : ConsensusState => True).
Proof. by split. Qed.

Lemma newStep_after_apply : sound (fun _ _ => True) after_apply newStep.
Proof. unfold newStep. prims. sound_auto ltac:(done). Qed.

Lemma next_height_after_apply st ep :
  sound (fun _ _ => True) after_apply
    (updateToStateAndEpoch st ep ;;; scheduleRound0).
Proof.
  pose proof newStep_after_apply.
  unfold updateToStateAndEpoch. prims. sound_auto ltac:(done).
Qed.

(** The shape of what [finalizeCommit] emits. *)
Lemma finalizeCommit_trace height cs :
  let rs := roundState cs in
  let tr := out_trace (finalizeCommit height cs) in
  let precommits := HVSA_Precommits (VoteSignAggr rs) (CommitRound rs) in
  let seenCommit := SignAggr_MakeCommit precommits in
  tr = []
  \/ exists saved closed rest,
       tr = Sleep newHeightChangeSleepDuration
            :: saved ++ closed
               ++ ApplyBlock (ProposalBlock rs) (PartSet_Header (ProposalBlockParts rs))
               :: rest
       /\ (saved = [] /\ Block_Height (ProposalBlock rs) <= blockStoreHeight cs
           \/ saved = [MakeSeenCommit precommits seenCommit;
                       SaveBlock (ProposalBlock rs) (ProposalBlockParts rs) seenCommit]
              /\ blockStoreHeight cs < Block_Height (ProposalBlock rs))
       /\ (closed = [] /\ wal cs = None \/ closed = [WalEndHeight height] /\ wal cs <> None)
       /\ Forall after_apply rest
       /\ finalizes cs height.
Proof.
  cbn zeta. unfold finalizeCommit. rewrite bind_gets.
  destruct (bool_decide (Height (roundState cs) ≠ height)
            || negb (step_eqb (Step (roundState cs)) RoundStepCommit)) eqn:Hg;
    [by left|].
  apply orb_false_iff in Hg as [Hh Hs].
  apply bool_decide_eq_false in Hh. apply dec_stable in Hh.
  apply negb_false_iff in Hs.
  assert (Hstep : Step (roundState cs) = RoundStepCommit).
  { unfold step_eqb in Hs. apply Z.eqb_eq in Hs.
    by destruct (Step (roundState cs)). }
  destruct (SignAggr_TwoThirdsMajority _) as [blockID ok] eqn:Hmaj.
  rewrite bind_gets.
  destruct ok; cbn [negb]; [|by left].
  destruct (PartSet_HasHeader _ _) eqn:Hhdr; cbn [negb]; [|by left].
  destruct (Block_HashesTo _ _) eqn:Hhash; cbn [negb]; [|by left].
  unfold deref. destruct (state cs) as [st|] eqn:Hst; [|by left].
  rewrite bind_ret.
  destruct (State_ValidateBlock st _) eqn:Hval; cbn [negb]; [|by left].
  right. rewrite bind_emit_trace.
  assert (Hfin : finalizes cs height).
  { repeat split; try done. exists blockID, st. by rewrite Hmaj. }
  rewrite bind_assoc, bind_gets.
  destruct (blockStoreHeight cs <? Block_Height (ProposalBlock (roundState cs))) eqn:Hbs;
    [apply Z.ltb_lt in Hbs | apply Z.ltb_ge in Hbs];
    monad_run; unfold when;
    (destruct (wal _) as [w|] eqn:Hw; cbn [bool_decide decide_rel];
     [rewrite bool_decide_eq_true_2 by done
     |rewrite bool_decide_eq_false_2 by (intros Hne; by apply Hne)]);
    monad_run;
    destruct (State_ApplyBlock st _ _ _) as [stateCopy applied];
    destruct applied; cbn [negb]; monad_run.
  all: try match goal with
       | |- context [out_trace (bind (updateToStateAndEpoch ?a ?b) ?k ?s)] =>
           destruct (next_height_after_apply a b s) as [_ Hrest];
           set (rest := out_trace (bind (updateToStateAndEpoch a b) k s)) in *
       end.
  all: first
    [ eexists [_; _], [_], _; split; [reflexivity|]
    | eexists [_; _], [], _; split; [reflexivity|]
    | eexists [], [_], _; split; [reflexivity|]
    | eexists [], [], _; split; [reflexivity|] ].
  all: repeat match goal with |- _ /\ _ => split end;
    first [ exact Hfin | left; split; [reflexivity | first [assumption | reflexivity]]
          | right; split; [reflexivity | first [assumption | congruence]]
          | repeat (apply Forall_cons; split; [reflexivity|]);
            first [assumption | constructor] ].
Qed.

Lemma phase_max e : (phase e <= 5)%nat.
Proof. destruct e; cbn; lia. Qed.

Lemma after_apply_le e tr : Forall after_apply tr -> Forall (phase_le e) tr.
Proof.
  intros H. eapply Forall_impl; [exact H|]. intros e' He'.
  unfold after_apply, phase_le in *. rewrite He'. apply phase_max.
Qed.

Lemma finalizeCommit_sorted height cs :
  StronglySorted phase_le (out_trace (finalizeCommit height cs)).
Proof.
  destruct (finalizeCommit_trace height cs)
    as [->|(saved & closed & rest & -> & Hsaved & Hclosed & Hrest & _)];
    [constructor|].
  pose proof (sorted_tail _ Hrest) as Hs.
  destruct Hsaved as [[-> _]|[-> _]], Hclosed as [[-> _]|[-> _]]; cbn [app];
    repeat (apply SSorted_cons;
            [| repeat (apply Forall_cons; split; [unfold phase_le; cbn; lia|]);
               by apply after_apply_le]);
    exact Hs.
Qed.

Lemma finalizeCommit_starts height cs :
  finalizes cs height ->
  exists tl, out_trace (finalizeCommit height cs)
             = Sleep newHeightChangeSleepDuration :: tl.
Proof.
  intros (Hh & Hs & blockID & st & Hmaj & Hhdr & Hhash & Hst & Hval).
  unfold finalizeCommit. rewrite bind_gets.
  rewrite (bool_decide_eq_false_2 _ (fun H => H Hh)), Hs, Hmaj.
  change (step_eqb RoundStepCommit RoundStepCommit) with true. cbn [negb orb].
  rewrite bind_gets. cbn [negb]. rewrite Hhdr, Hhash, Hst. cbn [negb deref].
  rewrite bind_ret, Hval. cbn [negb]. rewrite bind_emit_trace. eauto.
Qed.

(** C2: in [finalizeCommit(h)] the seen-commit is built from
    precommits(CommitRound) before the block is saved to the block store,
    and the WAL EndHeight(h) record is written after the block save and
    before the block is applied on the application connection; when the
    block is not yet stored and the WAL is open, all four steps happen, in
    this order. *)
Theorem finalizeCommit_order height cs :
  let rs := roundState cs in
  let tr := out_trace (finalizeCommit height cs) in
  let precommits := HVSA_Precommits (VoteSignAggr rs) (CommitRound rs) in
  let seenCommit := SignAggr_MakeCommit precommits in
  before seen_commit_phase save_block_phase tr
  /\ before save_block_phase end_height_phase tr
  /\ before end_height_phase apply_block_phase tr
  /\ (forall b parts seen,
        SaveBlock b parts seen ∈ tr ->
        seen = seenCommit /\ MakeSeenCommit precommits seenCommit ∈ tr)
  /\ (forall h, WalEndHeight h ∈ tr -> h = height)
  /\ (finalizes cs height ->
      blockStoreHeight cs < Block_Height (ProposalBlock rs) ->
      wal cs <> None ->
      exists rest,
        tr = [Sleep newHeightChangeSleepDuration;
              MakeSeenCommit precommits seenCommit;
              SaveBlock (ProposalBlock rs) (ProposalBlockParts rs) seenCommit;
              WalEndHeight height;
              ApplyBlock (ProposalBlock rs) (PartSet_Header (ProposalBlockParts rs))]
             ++ rest).
Proof.
  cbn zeta.
  pose proof (finalizeCommit_sorted height cs) as Hsorted.
  split; [apply sorted_before; [done | unfold seen_commit_phase, save_block_phase; lia]|].
  split; [apply sorted_before; [done | unfold save_block_phase, end_height_phase; lia]|].
  split; [apply sorted_before; [done | unfold end_height_phase, apply_block_phase; lia]|].
  destruct (finalizeCommit_trace height cs)
    as [Hnil|(saved & closed & rest & Htr & Hsaved & Hclosed & Hrest & _)].
  { rewrite Hnil. split; [|split].
    - intros ??? H. by apply elem_of_nil in H.
    - intros ? H. by apply elem_of_nil in H.
    - intros Hfin _ _. destruct (finalizeCommit_starts _ _ Hfin) as [tl Htl].
      congruence. }
  rewrite Htr. rewrite Forall_forall in Hrest.
  split; [|split].
  - intros b parts seen Hin.
    destruct Hsaved as [[-> _]|[-> _]], Hclosed as [[-> _]|[-> _]];
      cbn [app] in *; rewrite ?elem_of_cons, ?elem_of_nil in Hin |- *;
      destruct_or?; simplify_eq; try (split; [reflexivity|]; tauto);
      match goal with H : _ ∈ rest |- _ => apply Hrest in H; by cbv in H end.
  - intros h Hin.
    destruct Hsaved as [[-> _]|[-> _]], Hclosed as [[-> _]|[-> _]];
      cbn [app] in *; rewrite ?elem_of_cons, ?elem_of_nil in Hin;
      destruct_or?; simplify_eq; try reflexivity;
      match goal with H : _ ∈ rest |- _ => apply Hrest in H; by cbv in H end.
  - intros _ Hbs Hw.
    destruct Hsaved as [[-> ?]|[-> _]]; [lia|].
    destruct Hclosed as [[-> ?]|[-> _]]; [done|].
    by exists rest.
Qed.

(** ** Verifying a sign-aggregate *)

Lemma wrap_small x : - 2 ^ 63 <= x < 2 ^ 63 -> GoInt.wrap x = x.
Proof. intros H. unfold GoInt.wrap. rewrite Z.mod_small; lia. Qed.

Lemma total_power_nonneg l :
  Forall (fun v => 0 <= Validator.VotingPower v) l ->
  0 <= foldr (fun v acc => Validator.VotingPower v + acc) 0 l.
Proof. induction 1; cbn; lia. Qed.

Lemma power_of_bounds l bits :
  Forall (fun v => 0 <= Validator.VotingPower v) l ->
  0 <= power_of l bits <= foldr (fun v acc => Validator.VotingPower v + acc) 0 l.
Proof.
  intros H. revert bits. induction H as [|v l Hv Hl IH]; intros bits.
  - destruct bits; cbn; lia.
  - destruct bits as [|b bits]; cbn.
    + pose proof (total_power_nonneg l Hl). lia.
    + specialize (IH bits). destruct b; lia.
Qed.

(** The int64 accumulation of the total is the mathematical sum. *)
Lemma TotalVotingPower_refines vs :
  powers_fit vs -> ValidatorSet.TotalVotingPower vs = total_power vs.
Proof.
  intros [Hpos Hfit]. unfold ValidatorSet.TotalVotingPower, total_power in *.
  assert (Hgen : forall l acc,
    Forall (fun v => 0 <= Validator.VotingPower v) l -> 0 <= acc ->
    acc + foldr (fun v a => Validator.VotingPower v + a) 0 l < 2 ^ 63 ->
    fold_left (fun a v => GoInt.add a (Validator.VotingPower v)) l acc
    = acc + foldr (fun v a => Validator.VotingPower v + a) 0 l).
  { induction l as [|v l IH]; intros acc Hl Hacc Hb; cbn in *; [lia|].
    inversion Hl as [|? ? Hv Hl']; subst.
    pose proof (total_power_nonneg l Hl').
    unfold GoInt.add. rewrite wrap_small by lia.
    rewrite IH; [lia | done | lia | lia]. }
  pose proof (total_power_nonneg _ Hpos).
  rewrite Hgen; [lia | done | lia | lia].
Qed.

(** The int64 tally over the bitmap is the mathematical sum. *)
Lemma TalliedVotingPower_refines vs bits :
  powers_fit vs -> ValidatorSet.TalliedVotingPower vs bits = signed_power vs bits.
Proof.
  intros [Hpos Hfit]. unfold ValidatorSet.TalliedVotingPower, signed_power, total_power in *.
  assert (Hgen : forall l bits acc,
    Forall (fun v => 0 <= Validator.VotingPower v) l -> 0 <= acc ->
    acc + foldr (fun v a => Validator.VotingPower v + a) 0 l < 2 ^ 63 ->
    ValidatorSet.tally l bits acc = acc + power_of l bits).
  { induction l as [|v l IH]; intros bs acc Hl Hacc Hb; cbn in *.
    - destruct bs; lia.
    - destruct bs as [|b bs]; [lia|].
      inversion Hl as [|? ? Hv Hl']; subst.
      pose proof (total_power_nonneg l Hl').
      destruct b.
      + unfold GoInt.add. rewrite wrap_small by lia.
        rewrite IH; [lia | done | lia | lia].
      + rewrite IH; [lia | done | lia | lia]. }
  pose proof (total_power_nonneg _ Hpos).
  rewrite Hgen; [lia | done | lia | lia].
Qed.

(** The quorum the code computes is floor(2/3 * total) + 1. *)
Lemma quorum_refines vs :
  powers_fit vs ->
  GoInt.add (GoInt.quo (GoInt.mul (ValidatorSet.TotalVotingPower vs) 2) 3) 1
  = spec_quorum vs.
Proof.
  intros Hfit. rewrite (TotalVotingPower_refines _ Hfit).
  destruct Hfit as [Hpos Hfit]. pose proof (total_power_nonneg _ Hpos) as H0.
  fold (total_power vs) in H0. unfold spec_quorum.
  unfold GoInt.add, GoInt.quo, GoInt.mul.
  rewrite (wrap_small (total_power vs * 2)) by lia.
  rewrite Z.quot_div_nonneg by lia.
  replace (total_power vs * 2) with (2 * total_power vs) by lia.
  assert (0 <= 2 * total_power vs / 3 <= 2 * total_power vs).
  { split; [apply Z.div_pos; lia|]. apply Z.div_le_upper_bound; lia. }
  rewrite (wrap_small (2 * total_power vs / 3)) by lia.
  rewrite wrap_small by lia. done.
Qed.

(** With matching sizes and a good signature the result is the comparison. *)
Lemma BLSVerifySignAggr_checked rs sa :
  sizes_match rs sa -> signature_ok rs sa ->
  BLSVerifySignAggr rs (Some sa)
  = (GoInt.add (GoInt.quo (GoInt.mul (ValidatorSet.TotalVotingPower (Validators rs)) 2) 3) 1
     <=? ValidatorSet.TalliedVotingPower (Validators rs) (SignAggr.BitArray sa), None).
Proof.
  intros Hsz (sig & pk & Hsig & Hpk & Hv). unfold BLSVerifySignAggr.
  rewrite Hsig, (bool_decide_eq_false_2 _ (fun H => H Hsz)), Hpk, Hv. done.
Qed.

Lemma BLSVerifySignAggr_error rs sa :
  ~ sizes_match rs sa \/ ~ signature_ok rs sa ->
  exists e, BLSVerifySignAggr rs (Some sa) = (false, Some e).
Proof.
  intros Hbad. unfold BLSVerifySignAggr.
  destruct (SignAggr.SignatureAggr sa) as [sig|] eqn:Hsig; [|eauto].
  case_bool_decide as Hsz; [eauto|].
  destruct (AggrPubKey _ _) as [pk|] eqn:Hpk; [|eauto].
  destruct (VerifyBytes pk _ sig) eqn:Hv; cbn; [|eauto].
  exfalso. destruct Hbad as [H|H]; apply H; [done|].
  by exists sig, pk.
Qed.

(** C4: for a sign-aggregate whose bitmap length equals the validator-set
    size and whose BLS signature verifies, verification returns no error and
    maj23 = true exactly when the summed voting power of the validators
    whose bit is set is at least floor(2/3 * total) + 1 (voting powers
    non-negative, twice the total within int64); if the bitmap length
    differs from the validator-set size or the signature check fails,
    verification returns an error. *)
Theorem BLSVerifySignAggr_quorum rs sa :
  (powers_fit (Validators rs) -> sizes_match rs sa -> signature_ok rs sa ->
     snd (BLSVerifySignAggr rs (Some sa)) = None
     /\ (fst (BLSVerifySignAggr rs (Some sa)) = true
         <-> spec_quorum (Validators rs)
             <= signed_power (Validators rs) (SignAggr.BitArray sa)))
  /\ (~ sizes_match rs sa \/ ~ signature_ok rs sa ->
      exists e, BLSVerifySignAggr rs (Some sa) = (false, Some e)).
Proof.
  split; [|apply BLSVerifySignAggr_error].
  intros Hfit Hsz Hsig.
  rewrite (BLSVerifySignAggr_checked _ _ Hsz Hsig).
  rewrite (quorum_refines _ Hfit), (TalliedVotingPower_refines _ _ Hfit).
  cbn. split; [done|]. apply Z.leb_le.
Qed.

(** ** Accepting a sign-aggregate *)

Lemma verifyMaj23SignAggr_checked rs sa :
  powers_fit (Validators rs) -> sizes_match rs sa -> signature_ok rs sa ->
  verifyMaj23SignAggr rs sa
  = (spec_quorum (Validators rs)
     <=? signed_power (Validators rs) (SignAggr.BitArray sa), None).
Proof.
  intros Hfit Hsz Hsig. unfold verifyMaj23SignAggr.
  rewrite (BLSVerifySignAggr_checked _ _ Hsz Hsig).
  by rewrite (quorum_refines _ Hfit), (TalliedVotingPower_refines _ _ Hfit).
Qed.

Lemma aggr_guard_false cs sa :
  aggr_applies cs sa ->
  bool_decide (SignAggr.Height sa ≠ Height (roundState cs))
  || bool_decide (SignAggr.Round sa ≠ Round (roundState cs)) = false.
Proof.
  intros [Hh Hr].
  by rewrite (bool_decide_eq_false_2 _ (fun H => H Hh)),
             (bool_decide_eq_false_2 _ (fun H => H Hr)).
Qed.

Lemma setMaj23SignAggr_short cs sa :
  aggr_applies cs sa ->
  powers_fit (Validators (roundState cs)) ->
  sizes_match (roundState cs) sa -> signature_ok (roundState cs) sa ->
  signed_power (Validators (roundState cs)) (SignAggr.BitArray sa)
  < spec_quorum (Validators (roundState cs)) ->
  setMaj23SignAggr sa cs = Ret (Some ErrInvalidSignatureAggr, false) cs [].
Proof.
  intros Happ Hfit Hsz Hsig Hshort.
  unfold setMaj23SignAggr. rewrite bind_gets, (aggr_guard_false _ _ Happ).
  rewrite (verifyMaj23SignAggr_checked _ _ Hfit Hsz Hsig).
  replace (_ <=? _) with false by (symmetry; apply Z.leb_gt; lia).
  cbn [negb orb]. by rewrite orb_true_r.
Qed.

Lemma setMaj23SignAggr_duplicate cs sa :
  aggr_applies cs sa ->
  powers_fit (Validators (roundState cs)) ->
  sizes_match (roundState cs) sa -> signature_ok (roundState cs) sa ->
  spec_quorum (Validators (roundState cs))
  <= signed_power (Validators (roundState cs)) (SignAggr.BitArray sa) ->
  aggr_duplicate cs sa ->
  setMaj23SignAggr sa cs = Ret (Some ErrDuplicateSignatureAggr, false) cs [].
Proof.
  intros Happ Hfit Hsz Hsig Hq Hdup.
  unfold setMaj23SignAggr. rewrite bind_gets, (aggr_guard_false _ _ Happ).
  rewrite (verifyMaj23SignAggr_checked _ _ Hfit Hsz Hsig).
  replace (_ <=? _) with true by (symmetry; apply Z.leb_le; lia).
  rewrite (bool_decide_eq_false_2 (None ≠ None)) by (intros H; by apply H).
  cbn [negb orb].
  destruct Hdup as [[Ht Hs]|[Ht Hs]]; rewrite Ht.
  - rewrite bool_decide_eq_true_2 by done.
    by destruct (PrevoteMaj23SignAggr (roundState cs)).
  - rewrite bool_decide_eq_false_2 by done.
    rewrite bool_decide_eq_true_2 by done.
    by destruct (PrecommitMaj23SignAggr (roundState cs)).
Qed.

Lemma bind_never_error {A} (m : Eff A) (added : bool) cs (e : error) b cs' tr :
  (m ;;; ret (None, added)) cs = Ret (Some e, b) cs' tr -> False.
Proof. unfold bind, ret. destruct (m cs); intros H; simplify_eq. Qed.

(** Every error return of [setMaj23SignAggr] comes before any write. *)
Lemma setMaj23SignAggr_error_keeps_state cs sa e added cs' tr :
  setMaj23SignAggr sa cs = Ret (Some e, added) cs' tr ->
  cs' = cs /\ tr = [] /\ added = false
  /\ (e = ErrInvalidSignatureAggr \/ e = ErrDuplicateSignatureAggr).
Proof.
  assert (Hret : forall (e0 : error) b c,
    ret (Some e0, b) c = Ret (Some e, added) cs' tr ->
    e0 = ErrInvalidSignatureAggr \/ e0 = ErrDuplicateSignatureAggr ->
    b = false ->
    cs' = c /\ tr = [] /\ added = false
    /\ (e = ErrInvalidSignatureAggr \/ e = ErrDuplicateSignatureAggr)).
  { intros e0 b c H He0 Hb. unfold ret in H. by simplify_eq. }
  assert (Hnone : forall b c,
    ret (@None error, b) c = Ret (Some e, added) cs' tr -> False).
  { intros b c H. unfold ret in H. simplify_eq. }
  unfold setMaj23SignAggr. rewrite bind_gets.
  destruct (_ || _); [intros Hx; by apply Hnone in Hx|].
  destruct (verifyMaj23SignAggr _ _) as [maj23 err].
  destruct (_ || _); [intros Hx; apply Hret in Hx; auto|].
  case_bool_decide; [|case_bool_decide]; [| |intros Hx; apply Hret in Hx; auto].
  - destruct (PrevoteMaj23SignAggr _); [intros Hx; apply Hret in Hx; auto|].
    unfold rs_upd. monad_run. destruct (isProposalComplete _).
    + intros Hx. by apply bind_never_error in Hx.
    + intros Hx. by apply Hnone in Hx.
  - destruct (PrecommitMaj23SignAggr _); [intros Hx; apply Hret in Hx; auto|].
    unfold rs_upd. monad_run. destruct (isProposalComplete _).
    + intros Hx. by apply bind_never_error in Hx.
    + intros Hx. by apply Hnone in Hx.
Qed.

(** C6 (as the code has it): [setMaj23SignAggr] rejects, leaving the
    RoundState unchanged: an aggregate for the current height and round
    whose signature verifies but whose power is short of the +2/3 quorum is
    rejected with ErrInvalidSignatureAggr, and an aggregate that verifies
    with +2/3 while one of the same kind is already stored for the round is
    rejected with ErrDuplicateSignatureAggr; every error it returns is one
    of these two and comes with the state as it was. *)
Theorem setMaj23SignAggr_rejections cs sa :
  let rs := roundState cs in
  (aggr_applies cs sa -> powers_fit (Validators rs) ->
   sizes_match rs sa -> signature_ok rs sa ->
   signed_power (Validators rs) (SignAggr.BitArray sa) < spec_quorum (Validators rs) ->
   setMaj23SignAggr sa cs = Ret (Some ErrInvalidSignatureAggr, false) cs [])
  /\ (aggr_applies cs sa -> powers_fit (Validators rs) ->
      sizes_match rs sa -> signature_ok rs sa ->
      spec_quorum (Validators rs) <= signed_power (Validators rs) (SignAggr.BitArray sa) ->
      aggr_duplicate cs sa ->
      setMaj23SignAggr sa cs = Ret (Some ErrDuplicateSignatureAggr, false) cs [])
  /\ (forall e added cs' tr,
        setMaj23SignAggr sa cs = Ret (Some e, added) cs' tr ->
        cs' = cs /\ tr = [] /\ added = false
        /\ (e = ErrInvalidSignatureAggr \/ e = ErrDuplicateSignatureAggr)).
Proof.
  cbn zeta. split; [apply setMaj23SignAggr_short|].
  split; [apply setMaj23SignAggr_duplicate|].
  intros e added cs' tr. apply setMaj23SignAggr_error_keeps_state.
Qed.

(** ** The receive routine *)

Lemma bind_trace {A B} (m : Eff A) (k : A -> Eff B) cs :
  out_trace (bind m k cs)
  = match m cs with
    | Ret a cs1 tr1 => tr1 ++ out_trace (k a cs1)
    | Panic _ _ tr1 => tr1
    end.
Proof. unfold bind. destruct (m cs) as [a cs1 tr1|]; [|done]. by destruct (k a cs1). Qed.

Lemma handler_static sel rs : sound same_static any_effect (handler sel rs).
Proof.
  destruct sel; cbn; auto using handleMsg_static, handleTimeout_static.
  apply sound_ret. apply _.
Qed.

Lemma handler_keeps_wal sel rs cs : wal (out_state (handler sel rs cs)) = wal cs.
Proof.
  destruct (handler_static sel rs cs) as [Hst _].
  unfold same_static, static in Hst. by simplify_eq.
Qed.

Lemma receiveRoutine_step maxSteps sel rest cs m :
  max_steps_reached maxSteps cs = false ->
  wal cs <> None ->
  wal_record sel = Some m ->
  out_trace (receiveRoutine maxSteps (sel :: rest) cs)
  = WalSave m
    :: out_trace ((handler sel (roundState cs) ;;; receiveRoutine maxSteps rest) cs).
Proof.
  intros Hmax Hwal Hrec. cbn [receiveRoutine]. rewrite bind_gets.
  unfold max_steps_reached in Hmax. rewrite Hmax. rewrite bind_gets.
  destruct (wal cs) as [w|] eqn:Hw; [|done].
  destruct sel; cbn in Hrec; simplify_eq; unfold wal_Save;
    rewrite bind_assoc, bind_gets, Hw, bind_emit_trace; reflexivity.
Qed.

(** C8: every event the receive loop consumes (peer message, internal
    message, timeout tick) is written to the WAL before its handler runs:
    with the WAL open, a run of the loop is a sequence of blocks, each the
    WAL record of the event followed by the effects of its handler, and the
    handler starts in the state the loop had when it selected the event, so
    nothing of the event has touched the RoundState or a collaborator before
    the record. *)
Theorem receiveRoutine_wal_first maxSteps inputs cs :
  wal cs <> None ->
  served maxSteps inputs cs (out_trace (receiveRoutine maxSteps inputs cs)).
Proof.
  revert cs. induction inputs as [|sel rest IH]; intros cs Hwal.
  - cbn [receiveRoutine]. rewrite bind_gets.
    destruct (max_steps_reached maxSteps cs) eqn:Hmax;
      unfold max_steps_reached in Hmax; rewrite Hmax; cbn.
    + by apply served_max.
    + by apply served_blocked.
  - destruct (max_steps_reached maxSteps cs) eqn:Hmax.
    { cbn [receiveRoutine]. rewrite bind_gets.
      unfold max_steps_reached in Hmax. rewrite Hmax. cbn.
      by apply served_max. }
    destruct (wal_record sel) as [m|] eqn:Hrec.
    + rewrite (receiveRoutine_step _ _ _ _ m Hmax Hwal Hrec), bind_trace.
      pose proof (handler_keeps_wal sel (roundState cs) cs) as Hkeep.
      destruct (handler sel (roundState cs) cs) as [[] cs' tr|msg cs' tr] eqn:Hh.
      * eapply served_event; eauto. apply IH. cbn in Hkeep. by rewrite Hkeep.
      * eapply served_panic; eauto.
    + destruct sel; cbn in Hrec; simplify_eq.
      cbn [receiveRoutine]. rewrite bind_gets.
      unfold max_steps_reached in Hmax. rewrite Hmax. rewrite bind_gets.
      destruct (wal cs) as [w|] eqn:Hw; [|done].
      unfold bind, gets, when, emit. rewrite Hw. cbn.
      by apply served_quit.
Qed.

(** ** The bitmap of a built aggregate *)

Lemma insert_true_lookup (bits : list bool) i :
  <[i:=true]> bits !! i = (fun _ => true) <$> bits !! i.
Proof.
  destruct (decide (i < length bits)%nat) as [Hlt|Hge].
  - rewrite list_lookup_insert_eq by done.
    destruct (lookup_lt_is_Some_2 bits i Hlt) as [b ->]. done.
  - rewrite list_insert_ge by lia. rewrite lookup_ge_None_2 by lia. done.
Qed.

Lemma present_cons o votes k : present (o :: votes) (S k) = present votes k.
Proof. reflexivity. Qed.

Lemma collect_votes_lookup votes : forall index b ss (bits : BitArray.t) sigs j,
  snd (fst (collect_votes votes index (b, ss, bits, sigs))) !! j
  = if bool_decide (index <= j)%nat && present votes (j - index)
    then (fun _ => true) <$> bits !! j
    else bits !! j.
Proof.
  induction votes as [|o votes IH]; intros index b ss bits sigs j.
  - cbn. unfold present. rewrite lookup_nil. by rewrite andb_false_r.
  - destruct (decide (j < index)%nat) as [Hlt|Hge].
    { rewrite (bool_decide_eq_false_2 (index <= j)%nat) by lia. cbn [andb].
      destruct o as [v|]; cbn [collect_votes]; unfold BitArray.SetIndex; rewrite IH;
        rewrite (bool_decide_eq_false_2 (S index <= j)%nat) by lia; cbn [andb];
        [by rewrite list_lookup_insert_ne by lia | done]. }
    rewrite (bool_decide_eq_true_2 (index <= j)%nat) by lia. cbn [andb].
    destruct (decide (j = index)) as [->|Hne].
    + replace (index - index)%nat with 0%nat by lia.
      destruct o as [v|]; cbn [collect_votes]; unfold BitArray.SetIndex; rewrite IH;
        rewrite (bool_decide_eq_false_2 (S index <= index)%nat) by lia; cbn [andb];
        unfold present; cbn; [apply insert_true_lookup | done].
    + replace (j - index)%nat with (S (j - S index)) by lia.
      rewrite present_cons.
      destruct o as [v|]; cbn [collect_votes]; unfold BitArray.SetIndex; rewrite IH;
        rewrite (bool_decide_eq_true_2 (S index <= j)%nat) by lia; cbn [andb];
        [by rewrite list_lookup_insert_ne by lia | done].
Qed.

(** What the loop of [sendMaj23SignAggr] builds: bit [i] is set exactly when
    validator [i] has a vote in the list, whatever the BlockID it votes
    for. *)
Lemma collect_votes_bitmap votes n b ss sigs i :
  BitArray.GetIndex
    (snd (fst (collect_votes votes 0 (b, ss, BitArray.NewBitArray n, sigs)))) i
  = bool_decide (i < n)%nat && present votes i.
Proof.
  unfold BitArray.GetIndex, BitArray.NewBitArray. rewrite collect_votes_lookup.
  rewrite (bool_decide_eq_true_2 (0 <= i)%nat) by lia. cbn [andb].
  replace (i - 0)%nat with i by lia.
  destruct (decide (i < n)%nat) as [Hlt|Hge].
  - rewrite (bool_decide_eq_true_2 _ Hlt). cbn [andb].
    rewrite lookup_replicate_2 by done. by destruct (present votes i).
  - rewrite (bool_decide_eq_false_2 _ Hge). cbn [andb].
    assert (Hnone : replicate n false !! i = None).
    { apply lookup_ge_None_2. rewrite length_replicate. lia. }
    rewrite Hnone. by destruct (present votes i).
Qed.

(** Every aggregate [sendMaj23SignAggr] sends has the bit of each validator
    that voted, for any BlockID, and no other. *)
Lemma sendMaj23SignAggr_bitmap voteType cs sa :
  SendInternal {| Msg := Maj23SignAggrMessage sa; PeerKey := "" |}
    ∈ out_trace (sendMaj23SignAggr voteType cs) ->
  forall i,
    BitArray.GetIndex (SignAggr.BitArray sa) i
    = bool_decide (i < Z.to_nat (ValidatorSet.Size (Validators (roundState cs))))%nat
      && present (votes_of_kind (roundState cs) voteType) i.
Proof.
  unfold sendMaj23SignAggr. rewrite bind_gets.
  set (rs := roundState cs).
  assert (Hvotes : exists maj23 ok,
    (if bool_decide (voteType = VoteTypePrevote) then
       (VoteSet_Votes (HVS_Prevotes (Votes rs) (Round rs)),
        VoteSet_TwoThirdsMajority (HVS_Prevotes (Votes rs) (Round rs)))
     else if bool_decide (voteType = VoteTypePrecommit) then
       (VoteSet_Votes (HVS_Precommits (Votes rs) (Round rs)),
        VoteSet_TwoThirdsMajority (HVS_Prevotes (Votes rs) (Round rs)))
     else ([], (BlockID.zero, false)))
    = (votes_of_kind rs voteType, (maj23, ok))).
  { unfold votes_of_kind.
    destruct (bool_decide (voteType = VoteTypePrevote));
      [|destruct (bool_decide (voteType = VoteTypePrecommit))];
      [destruct (VoteSet_TwoThirdsMajority _)
      |destruct (VoteSet_TwoThirdsMajority _)|]; eauto. }
  destruct Hvotes as (maj23 & ok & ->).
  pose proof (collect_votes_bitmap (votes_of_kind rs voteType)
                (Z.to_nat (ValidatorSet.Size (Validators rs)))
                BlockID.zero [] []) as Hbits.
  destruct (collect_votes _ _ _) as [[[blockID ss] bits] sigs]. cbn in Hbits.
  match goal with |- context [bind _ ?k] => set (K := k) end.
  assert (HK : SendInternal {| Msg := Maj23SignAggrMessage sa; PeerKey := "" |}
                 ∈ out_trace (K tt cs) -> SignAggr.BitArray sa = bits).
  { unfold K. intros Hin.
    destruct (BLSSignatureAggregate sigs) as [signature|].
    - destruct (BlockID.IsZero maj23); [by apply elem_of_nil in Hin|].
      unfold sendInternalMessage in Hin. rewrite bind_emit_trace in Hin.
      cbn in Hin. rewrite !elem_of_cons, elem_of_nil in Hin.
      destruct Hin as [Hin|[Hin|[]]]; simplify_eq. done.
    - unfold logger_Fatal in Hin.
      destruct logger_Fatal_exits; by apply elem_of_nil in Hin. }
  destruct ok; cbn [negb when]; [|unfold logger_Fatal; destruct logger_Fatal_exits].
  - rewrite bind_ret. intros Hin i. by rewrite (HK Hin).
  - rewrite bind_panic. intros Hin. by apply elem_of_nil in Hin.
  - rewrite bind_ret. intros Hin i. by rewrite (HK Hin).
Qed.

End Properties.

(** * Further properties of the engine *)

(** ** Positions and step names *)

(** X1: [CompareHRS] is the three-way comparison of the lexicographic order
    on (height, round, step): it returns -1 exactly when the first position
    is strictly before the second, 1 exactly when it is strictly after, and
    0 exactly when the two are the same position. *)
Theorem CompareHRS_lexicographic h1 r1 s1 h2 r2 s2 :
  (CompareHRS h1 r1 s1 h2 r2 s2 = -1 <-> hrs_lt h1 r1 s1 h2 r2 s2)
  /\ (CompareHRS h1 r1 s1 h2 r2 s2 = 0 <-> h1 = h2 /\ r1 = r2 /\ s1 = s2)
  /\ (CompareHRS h1 r1 s1 h2 r2 s2 = 1 <-> hrs_lt h2 r2 s2 h1 r1 s1).
Proof.
  assert (Hinj : step_code s1 = step_code s2 -> s1 = s2).
  { by destruct s1, s2. }
  unfold CompareHRS, hrs_lt.
  repeat (case_match; try rewrite ->Z.ltb_lt in *; try rewrite ->Z.ltb_ge in *;
          try rewrite ->Z.gtb_ltb in *);
    repeat match goal with
           | H : (_ <? _) = true |- _ => apply Z.ltb_lt in H
           | H : (_ <? _) = false |- _ => apply Z.ltb_ge in H
           end.
  all: split; [|split]; split; intros; try lia.
  all: try (destruct_and?; subst; lia).
  repeat split; try lia. apply Hinj. lia.
Qed.

(** X2: [RoundStepType.String] names every step: distinct steps have
    distinct names, none of them is "RoundStepUnknown", and every value
    outside 1..9 prints as "RoundStepUnknown". *)
Theorem RoundStepType_String_names :
  (forall s s', RoundStepType_String (step_code s) = RoundStepType_String (step_code s') -> s = s')
  /\ (forall s, RoundStepType_String (step_code s) <> "RoundStepUnknown")
  /\ (forall c, c < 1 \/ 9 < c -> RoundStepType_String c = "RoundStepUnknown").
Proof.
  split; [|split].
  - intros s s'. destruct s, s'; cbn; intros H; try reflexivity; discriminate H.
  - intros s. destruct s; cbn; discriminate.
  - intros c Hc. unfold RoundStepType_String.
    destruct c as [|p|p]; [done| |done].
    repeat (destruct p as [p|p|]; try reflexivity; try lia).
Qed.

(** ** Rules for [keeps] *)

Section KeepsRules.
Context `{Collab : Collaborators}.
Context (I : ConsensusState -> Prop) (P : Effect -> Prop).

Lemma keeps_ret {A} (a : A) : keeps I P (ret a).
Proof. intros s Hs; simpl; split; [done | constructor]. Qed.

Lemma keeps_gets {A} (f : ConsensusState -> A) : keeps I P (gets f).
Proof. intros s Hs; simpl; split; [done | constructor]. Qed.

Lemma keeps_panic {A} msg : keeps I P (@panic _ _ A msg).
Proof. intros s Hs; simpl; split; [done | constructor]. Qed.

Lemma keeps_emit e : P e -> keeps I P (emit e).
Proof. intros He s Hs; simpl; split; [done | repeat constructor; exact He]. Qed.

Lemma keeps_modify (f : ConsensusState -> ConsensusState) :
  (forall s, I s -> I (f s)) -> keeps I P (modify f).
Proof. intros Hf s Hs; simpl; split; [by apply Hf | constructor]. Qed.

Lemma keeps_bind {A B} (m : Eff A) (k : A -> Eff B) :
  keeps I P m -> (forall a, keeps I P (k a)) -> keeps I P (bind m k).
Proof.
  intros Hm Hk s Hs. unfold bind.
  destruct (Hm s Hs) as [HI HP].
  destruct (m s) as [a s1 tr1 | msg s1 tr1]; simpl in *; [|by split].
  destruct (Hk a s1 HI) as [HI' HP'].
  destruct (k a s1) as [b s2 tr2 | msg s2 tr2]; simpl in *;
    (split; [done | by apply Forall_app]).
Qed.

(** What a [gets] reads can be taken from a state that satisfies [I]. *)
Lemma keeps_bind_gets {A B} (f : ConsensusState -> A) (k : A -> Eff B) :
  (forall s, I s -> keeps I P (k (f s))) -> keeps I P (bind (gets f) k).
Proof. intros Hk s Hs. rewrite bind_gets. by apply Hk. Qed.

Lemma keeps_defer {A} (body : Eff A) (deferred : Eff unit) :
  keeps I P body -> keeps I P deferred -> keeps I P (defer body deferred).
Proof.
  intros Hb Hd s Hs. unfold defer.
  destruct (Hb s Hs) as [HI HP].
  destruct (body s) as [a s1 tr1 | msg s1 tr1]; simpl in *;
    destruct (Hd s1 HI) as [HI' HP'];
    destruct (deferred s1) as [b s2 tr2 | msg' s2 tr2]; simpl in *;
    (split; [done | by apply Forall_app]).
Qed.

Lemma keeps_when (b : bool) (m : Eff unit) : keeps I P m -> keeps I P (when b m).
Proof. intros Hm. destruct b; simpl; [exact Hm | apply keeps_ret]. Qed.

Lemma keeps_forM_ {A} (l : list A) (f : A -> Eff unit) :
  (forall a, keeps I P (f a)) -> keeps I P (forM_ l f).
Proof.
  intros Hf. induction l as [|a l IH]; simpl; [apply keeps_ret|].
  apply keeps_bind; [apply Hf | intros _; exact IH].
Qed.

End KeepsRules.

Create HintDb keeps discriminated.

Ltac keeps_step side :=
  lazymatch goal with
  | |- forall _, _ => intros ?
  | |- keeps _ _ _ =>
      first
        [ assumption
        | solve [eauto 2 with keeps]
        | apply keeps_ret | apply keeps_gets | apply keeps_panic
        | apply keeps_bind
        | apply keeps_defer
        | apply keeps_when
        | apply keeps_emit
        | apply keeps_modify
        | match goal with
          | |- keeps _ _ (match ?x with _ => _ end) => destruct x
          end ]
  | |- _ => side
  end.

Ltac keeps_auto side := repeat (keeps_step side).

Section MoreProperties.
Context `{Collab : Collaborators}.

#[local] Instance same_height_preorder : PreOrder same_height.
Proof. split; [intros x; reflexivity | intros x y z; unfold same_height; congruence]. Qed.

#[local] Instance same_static_preorder' : PreOrder same_static.
Proof. split; [intros x; reflexivity | intros x y z; unfold same_static; congruence]. Qed.

#[local] Instance same_core_preorder' : PreOrder same_core.
Proof.
  split; [intros x; by repeat split |].
  intros x y z (?&?&?&?) (?&?&?&?). unfold same_core. repeat split; congruence.
Qed.

Ltac prims :=
  unfold rs_get, rs_upd, fire, wal_Save, deref, PanicSanity, PanicConsensus,
    updateHeight, updateRoundStep, scheduleTimeout, scheduleRound0,
    sendInternalMessage, precommit_nil, logger_Fatal.

Ltac side_height := first [exact I | reflexivity].

(** *** The height is left alone by every step function but the commit *)

Lemma core_height {A} (m : Eff A) :
  sound same_core any_effect m -> sound same_height any_effect m.
Proof.
  apply sound_weaken; [|done]. intros s s' (_ & Hc & _).
  unfold same_height. apply core_votes in Hc. tauto.
Qed.

Lemma newStep_height : sound same_height any_effect newStep.
Proof. apply core_height, newStep_core. Qed.
Lemma signAddVote_height t h hd : sound same_height any_effect (signAddVote t h hd).
Proof. apply core_height, signAddVote_core. Qed.
Lemma enterPrevote_height h r : sound same_height any_effect (enterPrevote h r).
Proof. apply core_height, enterPrevote_core. Qed.
Lemma enterPropose_height h r : sound same_height any_effect (enterPropose h r).
Proof. apply core_height, enterPropose_core. Qed.
#[local] Hint Resolve newStep_height signAddVote_height enterPrevote_height
  enterPropose_height : sound.

Lemma enterNewRound_height h r : sound same_height any_effect (enterNewRound h r).
Proof. unfold enterNewRound. prims. sound_auto side_height. Qed.
Lemma enterPrevoteWait_height h r : sound same_height any_effect (enterPrevoteWait h r).
Proof. unfold enterPrevoteWait. prims. sound_auto side_height. Qed.
Lemma enterPrecommit_height h r : sound same_height any_effect (enterPrecommit h r).
Proof. unfold enterPrecommit. prims. sound_auto side_height. Qed.
Lemma enterPrecommitWait_height h r : sound same_height any_effect (enterPrecommitWait h r).
Proof. unfold enterPrecommitWait. prims. sound_auto side_height. Qed.
#[local] Hint Resolve enterNewRound_height enterPrevoteWait_height
  enterPrecommit_height enterPrecommitWait_height : sound.

Lemma height_kept {A} (m : Eff A) cs :
  sound same_height any_effect m ->
  Height (roundState (out_state (m cs))) = Height (roundState cs).
Proof. intros H. destruct (H cs) as [Hh _]. by symmetry. Qed.

(** *** The "done" block *)

Lemma done_step_run round step cs :
  (updateRoundStep round step ;;; newStep) cs
  = Ret tt (stepped round step cs) (step_record round step cs).
Proof.
  unfold updateRoundStep, newStep, rs_upd, rs_get, wal_Save, stepped, step_record.
  unfold bind, gets, modify, emit, ret, when; cbn.
  destruct (wal cs); cbn; destruct (evsw cs); cbn; done.
Qed.

Lemma defer_done_state {A} (body : Eff A) round step cs :
  out_state (defer body (updateRoundStep round step ;;; newStep) cs)
  = stepped round step (out_state (body cs)).
Proof. by rewrite defer_state, done_step_run. Qed.

Lemma defer_done_trace {A} (body : Eff A) round step cs :
  out_trace (defer body (updateRoundStep round step ;;; newStep) cs)
  = out_trace (body cs) ++ step_record round step (out_state (body cs)).
Proof. by rewrite defer_trace, done_step_run. Qed.

(** *** Guards *)

Lemma guard_cases cs height round step :
  may_enter cs height round step
  \/ bool_decide (Height (roundState cs) ≠ height) || (round <? Round (roundState cs))
     || (bool_decide (Round (roundState cs) = round)
         && step_leb step (Step (roundState cs))) = true.
Proof.
  unfold may_enter, step_leb.
  destruct (decide (Height (roundState cs) = height)) as [Hh|Hh];
    [|right; by rewrite (bool_decide_eq_true_2 _ Hh)].
  rewrite (bool_decide_eq_false_2 _ (fun H => H Hh)). cbn [orb].
  destruct (round <? Round (roundState cs)) eqn:Hr; [by right|]. cbn [orb].
  apply Z.ltb_ge in Hr.
  case_bool_decide as Hrr; cbn [andb].
  - destruct (step_code step <=? step_code (Step (roundState cs))) eqn:Hs; [by right|].
    apply Z.leb_gt in Hs. left. repeat split; auto.
  - left. repeat split; auto. intros. done.
Qed.


(** *** Each step function returns at its guard, or lands *)

Lemma bind_run {A B} (m : Eff A) (k : A -> Eff B) cs a cs1 tr1 :
  m cs = Ret a cs1 tr1 ->
  out_state (bind m k cs) = out_state (k a cs1)
  /\ out_trace (bind m k cs) = tr1 ++ out_trace (k a cs1).
Proof. unfold bind. intros ->. by destruct (k a cs1). Qed.

Lemma enterPrevote_skips height round cs :
  bool_decide (Height (roundState cs) ≠ height) || (round <? Round (roundState cs))
  || (bool_decide (Round (roundState cs) = round)
      && step_leb RoundStepPrevote (Step (roundState cs))) = true ->
  enterPrevote height round cs = Ret tt cs [].
Proof. intros Hg. unfold enterPrevote. by rewrite bind_gets, Hg. Qed.

Lemma enterPrevote_enters height round cs :
  may_enter cs height round RoundStepPrevote ->
  let cs' := out_state (enterPrevote height round cs) in
  Height (roundState cs') = height /\ Round (roundState cs') = round
  /\ Step (roundState cs') = RoundStepPrevote.
Proof.
  intros Hg. cbn zeta. split.
  { rewrite height_kept by auto with sound. apply Hg. }
  unfold enterPrevote. rewrite bind_gets, (guard_false _ _ _ _ Hg).
  rewrite defer_done_state. done.
Qed.

Lemma enterPrecommit_skips height round cs :
  bool_decide (Height (roundState cs) ≠ height) || (round <? Round (roundState cs))
  || (bool_decide (Round (roundState cs) = round)
      && step_leb RoundStepPrecommit (Step (roundState cs))) = true ->
  enterPrecommit height round cs = Ret tt cs [].
Proof. intros Hg. unfold enterPrecommit. by rewrite bind_gets, Hg. Qed.

Lemma enterPrecommit_enters height round cs :
  may_enter cs height round RoundStepPrecommit ->
  let cs' := out_state (enterPrecommit height round cs) in
  Height (roundState cs') = height /\ Round (roundState cs') = round
  /\ Step (roundState cs') = RoundStepPrecommit.
Proof.
  intros Hg. cbn zeta. split.
  { rewrite height_kept by auto with sound. apply Hg. }
  unfold enterPrecommit. rewrite bind_gets, (guard_false _ _ _ _ Hg).
  rewrite defer_done_state. done.
Qed.

Lemma enterPrevoteWait_skips height round cs :
  bool_decide (Height (roundState cs) ≠ height) || (round <? Round (roundState cs))
  || (bool_decide (Round (roundState cs) = round)
      && step_leb RoundStepPrevoteWait (Step (roundState cs))) = true ->
  enterPrevoteWait height round cs = Ret tt cs [].
Proof. intros Hg. unfold enterPrevoteWait. by rewrite bind_gets, Hg. Qed.

Lemma enterPrevoteWait_run height round cs :
  may_enter cs height round RoundStepPrevoteWait ->
  enterPrevoteWait height round cs
  = if VoteSet_HasTwoThirdsAny (HVS_Prevotes (Votes (roundState cs)) round)
    then Ret tt (stepped round RoundStepPrevoteWait cs)
           (ScheduleTimeout {| ti_Duration := tp_Prevote (timeoutParams cs) round;
                               ti_Height := height; ti_Round := round;
                               ti_Step := RoundStepPrevoteWait |}
            :: step_record round RoundStepPrevoteWait cs)
    else Panic ("Panic on Sanity Check: "
                +:+ "enterPrevoteWait, but Prevotes does not have any +2/3 votes") cs [].
Proof.
  intros Hg. unfold enterPrevoteWait. rewrite bind_gets, (guard_false _ _ _ _ Hg).
  destruct (VoteSet_HasTwoThirdsAny _); cbn [negb]; [|done].
  unfold defer. rewrite bind_gets. unfold scheduleTimeout, emit.
  by rewrite done_step_run.
Qed.

Lemma enterPrecommitWait_skips height round cs :
  bool_decide (Height (roundState cs) ≠ height) || (round <? Round (roundState cs))
  || (bool_decide (Round (roundState cs) = round)
      && step_leb RoundStepPrecommitWait (Step (roundState cs))) = true ->
  enterPrecommitWait height round cs = Ret tt cs [].
Proof. intros Hg. unfold enterPrecommitWait. by rewrite bind_gets, Hg. Qed.

Lemma enterPrecommitWait_run height round cs :
  may_enter cs height round RoundStepPrecommitWait ->
  enterPrecommitWait height round cs
  = if VoteSet_HasTwoThirdsAny (HVS_Precommits (Votes (roundState cs)) round)
    then Ret tt (stepped round RoundStepPrecommitWait cs)
           (ScheduleTimeout {| ti_Duration := tp_Precommit (timeoutParams cs) round;
                               ti_Height := height; ti_Round := round;
                               ti_Step := RoundStepPrecommitWait |}
            :: step_record round RoundStepPrecommitWait cs)
    else Panic ("Panic on Sanity Check: "
                +:+ "enterPrecommitWait, but Precommits does not have any +2/3 votes") cs [].
Proof.
  intros Hg. unfold enterPrecommitWait. rewrite bind_gets, (guard_false _ _ _ _ Hg).
  destruct (VoteSet_HasTwoThirdsAny _); cbn [negb]; [|done].
  unfold defer. rewrite bind_gets. unfold scheduleTimeout, emit.
  by rewrite done_step_run.
Qed.

Lemma enterPropose_skips height round cs :
  bool_decide (Height (roundState cs) ≠ height) || (round <? Round (roundState cs))
  || (bool_decide (Round (roundState cs) = round)
      && step_leb RoundStepPropose (Step (roundState cs))) = true ->
  enterPropose height round cs = Ret tt cs [].
Proof. intros Hg. unfold enterPropose. by rewrite bind_gets, Hg. Qed.

Lemma done_then {B} round step (k : Eff B) cs :
  out_state ((updateRoundStep round step ;;; newStep ;;; k) cs)
  = out_state (k (stepped round step cs))
  /\ out_trace ((updateRoundStep round step ;;; newStep ;;; k) cs)
     = step_record round step cs ++ out_trace (k (stepped round step cs)).
Proof.
  rewrite <- (bind_assoc (updateRoundStep round step) (fun _ => newStep) (fun _ => k)).
  exact (bind_run (updateRoundStep round step ;;; newStep) (fun _ => k) cs tt _ _
           (done_step_run round step cs)).
Qed.

#[local] Hint Resolve newStep_core signVote_core IsProposer_core signAddVote_core
  doPrevote_core enterPrevote_core createProposalBlock_core decideProposal_core
  enterPropose_core : sound.

Ltac side_core := first [exact I | by repeat split].

(** [enterPropose] ends in the propose step, or, with a proposal at hand,
    in the prevote step. *)
Lemma enterPropose_enters height round cs :
  may_enter cs height round RoundStepPropose ->
  let rs' := roundState (out_state (enterPropose height round cs)) in
  Height rs' = height /\ Round rs' = round
  /\ Proposal rs' = Proposal (roundState cs)
  /\ Step rs' = match Proposal (roundState cs) with
                | Some _ => RoundStepPrevote
                | None => RoundStepPropose
                end.
Proof.
  intros Hg. cbn zeta.
  unfold enterPropose. rewrite bind_gets, (guard_false _ _ _ _ Hg).
  rewrite defer_state.
  match goal with |- context [out_state (_ (out_state (?b cs)))] => set (body := b) end.
  assert (Hbody : sound same_core any_effect body).
  { unfold body. prims. sound_auto side_core. }
  destruct (Hbody cs) as [(_ & Hcore & _) _].
  destruct (core_proposal _ _ Hcore) as (Hprop & _).
  destruct (core_votes _ _ Hcore) as (Hh & _).
  set (sb := out_state (body cs)) in *.
  destruct (done_then round RoundStepPropose
              (let* rs' := gets roundState in
               match Proposal rs' with
               | Some _ => enterPrevote height (Round rs')
               | None => ret tt
               end) sb) as [-> _].
  rewrite bind_gets.
  cbn [stepped cs_set_nSteps cs_set_roundState roundState set_Step set_Round
       Proposal Round].
  rewrite <- Hprop.
  destruct (Proposal (roundState cs)) as [p|] eqn:Hp.
  - assert (Hg' : may_enter (stepped round RoundStepPropose sb) height round
                    RoundStepPrevote).
    { split; [cbn; rewrite <- Hh; apply Hg|]. split; [cbn; lia|]. intros _. cbn. lia. }
    destruct (enterPrevote_enters _ _ _ Hg') as (H1 & H2 & H3).
    destruct (enterPrevote_core height round (stepped round RoundStepPropose sb))
      as [(_ & Hcore' & _) _].
    apply core_proposal in Hcore' as (Hprop' & _).
    repeat split; try done. rewrite <- Hprop'. cbn. congruence.
  - cbn. repeat split; try done. rewrite <- Hh. apply Hg.
Qed.

Lemma enterNewRound_skips height round cs :
  bool_decide (Height (roundState cs) ≠ height) || (round <? Round (roundState cs))
  || (bool_decide (Round (roundState cs) = round)
      && negb (step_eqb (Step (roundState cs)) RoundStepNewHeight)) = true ->
  enterNewRound height round cs = Ret tt cs [].
Proof. intros Hg. unfold enterNewRound. by rewrite bind_gets, Hg. Qed.

Lemma new_round_guard_cases cs height round :
  may_enter_new_round cs height round
  \/ bool_decide (Height (roundState cs) ≠ height) || (round <? Round (roundState cs))
     || (bool_decide (Round (roundState cs) = round)
         && negb (step_eqb (Step (roundState cs)) RoundStepNewHeight)) = true.
Proof.
  unfold may_enter_new_round, step_eqb.
  destruct (decide (Height (roundState cs) = height)) as [Hh|Hh];
    [|right; by rewrite (bool_decide_eq_true_2 _ Hh)].
  rewrite (bool_decide_eq_false_2 _ (fun H => H Hh)). cbn [orb].
  destruct (round <? Round (roundState cs)) eqn:Hr; [by right|]. cbn [orb].
  apply Z.ltb_ge in Hr.
  case_bool_decide as Hrr; cbn [andb].
  - destruct (step_code (Step (roundState cs)) =? step_code RoundStepNewHeight) eqn:Hs;
      [|by right].
    apply Z.eqb_eq in Hs. left. repeat split; auto. intros _.
    by destruct (Step (roundState cs)).
  - left. repeat split; auto. intros. done.
Qed.

(** Past its guard, [enterNewRound] sets the round up, announces it and
    goes on to propose. *)
Lemma enterNewRound_run height round cs :
  may_enter_new_round cs height round ->
  out_state (enterNewRound height round cs)
  = out_state (enterPropose height round (new_round_setup round cs))
  /\ out_trace (enterNewRound height round cs)
     = Fire (EventNewRound {| ev_Height := Height (roundState cs); ev_Round := round;
                              ev_Step := RoundStepNewRound |})
       :: out_trace (enterPropose height round (new_round_setup round cs)).
Proof.
  intros Hg. unfold enterNewRound.
  rewrite bind_gets, (new_round_guard_false _ _ _ Hg).
  unfold updateRoundStep, rs_upd, fire, rs_get, new_round_setup.
  destruct (bool_decide (round = 0)); monad_run; split; reflexivity.
Qed.

Lemma enterNewRound_enters height round cs :
  may_enter_new_round cs height round ->
  let rs' := roundState (out_state (enterNewRound height round cs)) in
  let proposal := if bool_decide (round = 0) then Proposal (roundState cs) else None in
  Height rs' = height /\ Round rs' = round
  /\ Proposal rs' = proposal
  /\ Step rs' = match proposal with
                | Some _ => RoundStepPrevote
                | None => RoundStepPropose
                end.
Proof.
  intros Hg. cbn zeta. destruct (enterNewRound_run _ _ _ Hg) as [-> _].
  assert (Hg' : may_enter (new_round_setup round cs) height round RoundStepPropose).
  { destruct Hg as (Hh & _). unfold new_round_setup.
    split; [by destruct (bool_decide (round = 0))|].
    split; [destruct (bool_decide (round = 0)); cbn; lia|].
    intros _. destruct (bool_decide (round = 0)); cbn; lia. }
  destruct (enterPropose_enters _ _ _ Hg') as (H1 & H2 & H3 & H4).
  assert (Hp : Proposal (roundState (new_round_setup round cs))
               = if bool_decide (round = 0) then Proposal (roundState cs) else None).
  { unfold new_round_setup. by destruct (bool_decide (round = 0)). }
  rewrite Hp in H3, H4. done.
Qed.

(** *** Positions *)

Lemma not_before_refl cs : not_before cs cs.
Proof.
  unfold not_before, CompareHRS.
  rewrite !Z.ltb_irrefl, !Z.gtb_ltb, !Z.ltb_irrefl. done.
Qed.

Lemma not_before_intro cs cs' :
  Height (roundState cs') = Height (roundState cs) ->
  Round (roundState cs) <= Round (roundState cs') ->
  (Round (roundState cs) = Round (roundState cs') ->
   step_code (Step (roundState cs)) <= step_code (Step (roundState cs'))) ->
  not_before cs cs'.
Proof.
  intros Hh Hr Hs. unfold not_before, CompareHRS.
  rewrite Hh, !Z.gtb_ltb, Z.ltb_irrefl.
  destruct (Round (roundState cs) <? Round (roundState cs')) eqn:H1; [done|].
  apply Z.ltb_ge in H1.
  replace (Round (roundState cs') <? Round (roundState cs)) with false
    by (symmetry; apply Z.ltb_ge; lia).
  destruct (step_code (Step (roundState cs)) <? step_code (Step (roundState cs')));
    [done|].
  replace (step_code (Step (roundState cs')) <? step_code (Step (roundState cs)))
    with false by (symmetry; apply Z.ltb_ge; apply Hs; lia).
  done.
Qed.

Lemma fire_then {B} mk (k : Eff B) cs :
  out_state ((fire mk ;;; k) cs) = out_state (k cs)
  /\ out_trace ((fire mk ;;; k) cs)
     = Fire (mk (RoundStateEvent (roundState cs))) :: out_trace (k cs).
Proof.
  unfold fire, rs_get. rewrite bind_assoc, bind_gets.
  by rewrite bind_emit_state, bind_emit_trace.
Qed.

Lemma advances_landing (m : Eff unit) cs round (steps : list RoundStepType) :
  (out_state (m cs) = cs
   \/ Height (roundState (out_state (m cs))) = Height (roundState cs)
      /\ Round (roundState (out_state (m cs))) = round
      /\ Round (roundState cs) <= round
      /\ (Round (roundState cs) = round ->
          step_code (Step (roundState cs))
          <= step_code (Step (roundState (out_state (m cs)))))) ->
  Height (roundState (out_state (m cs))) = Height (roundState cs)
  /\ not_before cs (out_state (m cs)).
Proof.
  intros [->|(Hh & Hr & Hle & Hs)]; [split; [done | apply not_before_refl]|].
  split; [done|]. apply not_before_intro; [done|lia|]. intros Heq. apply Hs. lia.
Qed.

Lemma enterPrevote_advances h r : advances (enterPrevote h r).
Proof.
  intros cs. apply (advances_landing _ _ r [RoundStepPrevote]).
  destruct (guard_cases cs h r RoundStepPrevote) as [Hg|Hg];
    [right | left; by rewrite enterPrevote_skips].
  destruct (enterPrevote_enters _ _ _ Hg) as (H1 & H2 & H3). rewrite H1, H3.
  destruct Hg as (Hh & Hr & Hs). repeat split; auto. intros Heq. specialize (Hs Heq). lia.
Qed.

Lemma enterPrecommit_advances h r : advances (enterPrecommit h r).
Proof.
  intros cs. apply (advances_landing _ _ r [RoundStepPrecommit]).
  destruct (guard_cases cs h r RoundStepPrecommit) as [Hg|Hg];
    [right | left; by rewrite enterPrecommit_skips].
  destruct (enterPrecommit_enters _ _ _ Hg) as (H1 & H2 & H3). rewrite H1, H3.
  destruct Hg as (Hh & Hr & Hs). repeat split; auto. intros Heq. specialize (Hs Heq). lia.
Qed.

Lemma enterPropose_advances h r : advances (enterPropose h r).
Proof.
  intros cs. apply (advances_landing _ _ r [RoundStepPropose]).
  destruct (guard_cases cs h r RoundStepPropose) as [Hg|Hg];
    [right | left; by rewrite enterPropose_skips].
  destruct (enterPropose_enters _ _ _ Hg) as (H1 & H2 & _ & H3). rewrite H1, H3.
  destruct Hg as (Hh & Hr & Hs). repeat split; auto. intros Heq. specialize (Hs Heq).
  destruct (Proposal _); cbn in *; lia.
Qed.

Lemma enterNewRound_advances h r : advances (enterNewRound h r).
Proof.
  intros cs. apply (advances_landing _ _ r [RoundStepPropose]).
  destruct (new_round_guard_cases cs h r) as [Hg|Hg];
    [right | left; by rewrite enterNewRound_skips].
  destruct (enterNewRound_enters _ _ _ Hg) as (H1 & H2 & _ & H3). rewrite H1, H3.
  destruct Hg as (Hh & Hr & Hs). repeat split; auto. intros Heq. rewrite (Hs Heq).
  destruct (if bool_decide (r = 0) then _ else _); cbn; lia.
Qed.

Lemma enterPrevoteWait_advances h r : advances (enterPrevoteWait h r).
Proof.
  intros cs. apply (advances_landing _ _ r [RoundStepPrevoteWait]).
  destruct (guard_cases cs h r RoundStepPrevoteWait) as [Hg|Hg];
    [|left; by rewrite enterPrevoteWait_skips].
  rewrite (enterPrevoteWait_run _ _ _ Hg).
  destruct (VoteSet_HasTwoThirdsAny _); cbn; [right | by left].
  destruct Hg as (Hh & Hr & Hs). repeat split; auto.
  intros Heq. specialize (Hs Heq). cbn in Hs. lia.
Qed.

Lemma enterPrecommitWait_advances h r : advances (enterPrecommitWait h r).
Proof.
  intros cs. apply (advances_landing _ _ r [RoundStepPrecommitWait]).
  destruct (guard_cases cs h r RoundStepPrecommitWait) as [Hg|Hg];
    [|left; by rewrite enterPrecommitWait_skips].
  rewrite (enterPrecommitWait_run _ _ _ Hg).
  destruct (VoteSet_HasTwoThirdsAny _); cbn; [right | by left].
  destruct Hg as (Hh & Hr & Hs). repeat split; auto.
  intros Heq. specialize (Hs Heq). cbn in Hs. lia.
Qed.

Lemma advances_fire mk (m : Eff unit) : advances m -> advances (fire mk ;;; m).
Proof. intros Hm cs. destruct (fire_then mk m cs) as [-> _]. apply Hm. Qed.

(** X3: the step functions and the timeout handler never move the engine
    back: the height stays and (round, step) does not decrease in the order
    of [CompareHRS]. *)
Theorem step_functions_never_go_back height round :
  advances (enterNewRound height round)
  /\ advances (enterPropose height round)
  /\ advances (enterPrevote height round)
  /\ advances (enterPrevoteWait height round)
  /\ advances (enterPrecommit height round)
  /\ advances (enterPrecommitWait height round)
  /\ (forall ti rs, advances (handleTimeout ti rs)).
Proof.
  split; [apply enterNewRound_advances|]. split; [apply enterPropose_advances|].
  split; [apply enterPrevote_advances|]. split; [apply enterPrevoteWait_advances|].
  split; [apply enterPrecommit_advances|]. split; [apply enterPrecommitWait_advances|].
  intros ti rs. unfold handleTimeout.
  destruct (_ || _); [intros cs; split; [done | apply not_before_refl]|].
  destruct (ti_Step ti);
    first [ apply enterNewRound_advances
          | apply advances_fire;
            first [apply enterPrevote_advances | apply enterPrecommit_advances
                  | apply enterNewRound_advances]
          | intros cs; split; [done | apply not_before_refl] ].
Qed.

(** *** Calling a step function twice *)










(** *** A timeout delivered twice *)




Lemma enterPropose_trace_head height round cs :
  may_enter cs height round RoundStepPropose ->
  exists rest,
    out_trace (enterPropose height round cs)
    = ScheduleTimeout {| ti_Duration := tp_Propose (timeoutParams cs) round;
                         ti_Height := height; ti_Round := round;
                         ti_Step := RoundStepPropose |} :: rest.
Proof.
  intros Hg. unfold enterPropose. rewrite bind_gets, (guard_false _ _ _ _ Hg).
  rewrite defer_trace, bind_assoc, bind_gets. unfold scheduleTimeout.
  rewrite bind_emit_trace. cbn [app]. eauto.
Qed.

(** X6: past its guard, [enterNewRound(h, r)] announces the round, schedules
    the propose timeout and ends at round r in the propose step; only in
    round 0, with a proposal that arrived before the round started, does it
    go on to the prevote step. In a round r <> 0 the proposal is gone. *)
Theorem enterNewRound_lands_in_propose height round cs :
  may_enter_new_round cs height round ->
  let o := enterNewRound height round cs in
  let rs' := roundState (out_state o) in
  let proposal := if bool_decide (round = 0) then Proposal (roundState cs) else None in
  Height rs' = height /\ Round rs' = round /\ Proposal rs' = proposal
  /\ Step rs' = match proposal with
                | Some _ => RoundStepPrevote
                | None => RoundStepPropose
                end
  /\ exists rest,
       out_trace o
       = Fire (EventNewRound {| ev_Height := height; ev_Round := round;
                                ev_Step := RoundStepNewRound |})
         :: ScheduleTimeout {| ti_Duration := tp_Propose (timeoutParams cs) round;
                               ti_Height := height; ti_Round := round;
                               ti_Step := RoundStepPropose |}
         :: rest.
Proof.
  intros Hg. cbn zeta.
  destruct (enterNewRound_enters _ _ _ Hg) as (H1 & H2 & H3 & H4).
  repeat match goal with |- _ /\ _ => split end; try done.
  destruct (enterNewRound_run _ _ _ Hg) as [_ ->].
  assert (Hg' : may_enter (new_round_setup round cs) height round RoundStepPropose).
  { destruct Hg as (Hh & _). unfold new_round_setup.
    split; [by destruct (bool_decide (round = 0))|].
    split; [destruct (bool_decide (round = 0)); cbn; lia|].
    intros _. destruct (bool_decide (round = 0)); cbn; lia. }
  destruct (enterPropose_trace_head _ _ _ Hg') as [rest ->].
  exists rest. destruct Hg as (<- & _). reflexivity.
Qed.

(** X7: the two wait steps. Past the guard, [enterPrevoteWait] and
    [enterPrecommitWait] panic when the vote set of the round has no +2/3 of
    any votes, and then nothing is touched, not even the step; otherwise
    they schedule their one timeout and record the new step. *)
Theorem wait_steps_need_two_thirds_any height round cs :
  (may_enter cs height round RoundStepPrevoteWait ->
   enterPrevoteWait height round cs
   = if VoteSet_HasTwoThirdsAny (HVS_Prevotes (Votes (roundState cs)) round)
     then Ret tt (stepped round RoundStepPrevoteWait cs)
            (ScheduleTimeout {| ti_Duration := tp_Prevote (timeoutParams cs) round;
                                ti_Height := height; ti_Round := round;
                                ti_Step := RoundStepPrevoteWait |}
             :: step_record round RoundStepPrevoteWait cs)
     else Panic ("Panic on Sanity Check: "
                 +:+ "enterPrevoteWait, but Prevotes does not have any +2/3 votes")
            cs [])
  /\ (may_enter cs height round RoundStepPrecommitWait ->
      enterPrecommitWait height round cs
      = if VoteSet_HasTwoThirdsAny (HVS_Precommits (Votes (roundState cs)) round)
        then Ret tt (stepped round RoundStepPrecommitWait cs)
               (ScheduleTimeout {| ti_Duration := tp_Precommit (timeoutParams cs) round;
                                   ti_Height := height; ti_Round := round;
                                   ti_Step := RoundStepPrecommitWait |}
                :: step_record round RoundStepPrecommitWait cs)
        else Panic ("Panic on Sanity Check: "
                    +:+ "enterPrecommitWait, but Precommits does not have any +2/3 votes")
               cs []).
Proof. split; [apply enterPrevoteWait_run | apply enterPrecommitWait_run]. Qed.

(** *** A node without a private validator *)

Ltac side_observer := first [exact I | assumption | done].

Lemma newStep_observer : keeps observer unsigned newStep.
Proof. unfold newStep. prims. keeps_auto side_observer. Qed.
#[local] Hint Resolve newStep_observer : keeps.

Lemma signAddVote_observer t h hd : keeps observer unsigned (signAddVote t h hd).
Proof.
  unfold signAddVote. apply keeps_bind_gets. intros s Hs. rewrite Hs.
  keeps_auto side_observer.
Qed.
#[local] Hint Resolve signAddVote_observer : keeps.

Lemma doPrevote_observer h r : keeps observer unsigned (doPrevote h r).
Proof. unfold doPrevote, newDoPrevote. prims. keeps_auto side_observer. Qed.
#[local] Hint Resolve doPrevote_observer : keeps.

Lemma enterPrevote_observer h r : keeps observer unsigned (enterPrevote h r).
Proof. unfold enterPrevote. prims. keeps_auto side_observer. Qed.
#[local] Hint Resolve enterPrevote_observer : keeps.

Lemma enterPropose_observer h r : keeps observer unsigned (enterPropose h r).
Proof.
  unfold enterPropose. prims.
  apply keeps_bind; [apply keeps_gets|]. intros rs.
  destruct (_ || _); [apply keeps_ret|].
  apply keeps_defer; [|keeps_auto side_observer].
  apply keeps_bind; [keeps_auto side_observer|]. intros _.
  apply keeps_bind_gets. intros s Hs. rewrite Hs. apply keeps_ret.
Qed.
#[local] Hint Resolve enterPropose_observer : keeps.

Lemma enterNewRound_observer h r : keeps observer unsigned (enterNewRound h r).
Proof. unfold enterNewRound. prims. keeps_auto side_observer. Qed.
#[local] Hint Resolve enterNewRound_observer : keeps.

Lemma enterPrevoteWait_observer h r : keeps observer unsigned (enterPrevoteWait h r).
Proof. unfold enterPrevoteWait. prims. keeps_auto side_observer. Qed.
#[local] Hint Resolve enterPrevoteWait_observer : keeps.

Lemma enterPrecommit_observer h r : keeps observer unsigned (enterPrecommit h r).
Proof. unfold enterPrecommit. prims. keeps_auto side_observer. Qed.
#[local] Hint Resolve enterPrecommit_observer : keeps.

Lemma enterPrecommitWait_observer h r :
  keeps observer unsigned (enterPrecommitWait h r).
Proof. unfold enterPrecommitWait. prims. keeps_auto side_observer. Qed.
#[local] Hint Resolve enterPrecommitWait_observer : keeps.

Lemma updateToStateAndEpoch_observer st ep :
  keeps observer unsigned (updateToStateAndEpoch st ep).
Proof. unfold updateToStateAndEpoch. prims. keeps_auto side_observer. Qed.
#[local] Hint Resolve updateToStateAndEpoch_observer : keeps.

Lemma finalizeCommit_observer h : keeps observer unsigned (finalizeCommit h).
Proof. unfold finalizeCommit. prims. keeps_auto side_observer. Qed.
#[local] Hint Resolve finalizeCommit_observer : keeps.

Lemma tryFinalizeCommit_observer h : keeps observer unsigned (tryFinalizeCommit h).
Proof. unfold tryFinalizeCommit. prims. keeps_auto side_observer. Qed.
#[local] Hint Resolve tryFinalizeCommit_observer : keeps.

Lemma enterCommit_observer h r : keeps observer unsigned (enterCommit h r).
Proof. unfold enterCommit. prims. keeps_auto side_observer. Qed.
#[local] Hint Resolve enterCommit_observer : keeps.

Lemma setProposal_observer p : keeps observer unsigned (setProposal p).
Proof. unfold setProposal, newSetProposal. prims. keeps_auto side_observer. Qed.
#[local] Hint Resolve setProposal_observer : keeps.

Lemma addProposalBlockPart_observer h part v :
  keeps observer unsigned (addProposalBlockPart h part v).
Proof. unfold addProposalBlockPart. prims. keeps_auto side_observer. Qed.
#[local] Hint Resolve addProposalBlockPart_observer : keeps.

Lemma setMaj23SignAggr_observer sa : keeps observer unsigned (setMaj23SignAggr sa).
Proof. unfold setMaj23SignAggr. prims. keeps_auto side_observer. Qed.
#[local] Hint Resolve setMaj23SignAggr_observer : keeps.

Lemma sendMaj23SignAggr_observer t : keeps observer unsigned (sendMaj23SignAggr t).
Proof. unfold sendMaj23SignAggr. prims. keeps_auto side_observer. Qed.
#[local] Hint Resolve sendMaj23SignAggr_observer : keeps.

Lemma addVote_observer v k : keeps observer unsigned (addVote v k).
Proof. unfold addVote. prims. keeps_auto side_observer. Qed.
#[local] Hint Resolve addVote_observer : keeps.

Lemma tryAddVote_observer v k : keeps observer unsigned (tryAddVote v k).
Proof. unfold tryAddVote. prims. keeps_auto side_observer. Qed.
#[local] Hint Resolve tryAddVote_observer : keeps.

Lemma handleMsg_observer mi rs : keeps observer unsigned (handleMsg mi rs).
Proof. unfold handleMsg. prims. keeps_auto side_observer. Qed.
#[local] Hint Resolve handleMsg_observer : keeps.

Lemma handleTimeout_observer ti rs : keeps observer unsigned (handleTimeout ti rs).
Proof. unfold handleTimeout. prims. keeps_auto side_observer. Qed.
#[local] Hint Resolve handleTimeout_observer : keeps.

Lemma receiveRoutine_observer maxSteps inputs :
  keeps observer unsigned (receiveRoutine maxSteps inputs).
Proof.
  induction inputs as [|sel rest IH]; cbn [receiveRoutine]; prims;
    keeps_auto side_observer.
Qed.

(** X8: a node that has no private validator signs nothing, whatever it
    receives: the receive loop never puts a vote, a proposal or a block
    part on the internal queue, never forwards a vote to the proposer and
    never hands a proposal to the reactor; and the node stays without a
    private validator. *)
Theorem observer_never_signs maxSteps inputs cs :
  privValidator cs = None ->
  let o := receiveRoutine maxSteps inputs cs in
  privValidator (out_state o) = None
  /\ sent_votes (out_trace o) = []
  /\ Forall unsigned (out_trace o).
Proof.
  intros Hobs. cbn zeta.
  destruct (receiveRoutine_observer maxSteps inputs cs Hobs) as [HI HP].
  split; [exact HI|]. split; [|exact HP].
  apply no_votes_sent. eapply Forall_impl; [exact HP|].
  intros e He. unfold no_vote. destruct e as [| | | | |[[] ?]| | | | |]; done.
Qed.

(** *** Precommits and the lock *)

Lemma sent_votes_app tr tr' : sent_votes (tr ++ tr') = sent_votes tr ++ sent_votes tr'.
Proof. unfold sent_votes. apply omap_app. Qed.

Lemma step_record_no_votes round step cs : sent_votes (step_record round step cs) = [].
Proof. unfold step_record. by destruct (wal cs), (evsw cs). Qed.

Lemma sent_votes_fire e tr : sent_votes (Fire e :: tr) = sent_votes tr.
Proof. reflexivity. Qed.

Ltac run_fire :=
  match goal with
  | |- context [(fire ?mk ;;; ?k) ?c] =>
      let Hs := fresh in let Ht := fresh in
      destruct (fire_then mk k c) as [Hs Ht]; rewrite ?Hs, ?Ht; clear Hs Ht
  end.

Ltac votes_run :=
  repeat first [ progress (unfold rs_upd, precommit_nil) | progress monad_run
               | run_fire | rewrite sent_votes_fire ].

Lemma vote_then_done_lock t hash hd cs :
  let o := (signAddVote t hash hd ;;; ret tt) cs in
  LockedRound (roundState (out_state o)) = LockedRound (roundState cs)
  /\ LockedBlock (roundState (out_state o)) = LockedBlock (roundState cs).
Proof. cbn zeta. destruct (vote_then_done t hash hd cs) as [-> _]. done. Qed.

(** What [enterPrecommit] sends and how it leaves the lock, branch by
    branch: nothing, or the precommit for nil this node can sign, or the
    precommit for the block it is then locked on at this round. *)
Lemma enterPrecommit_votes height round cs :
  let o := enterPrecommit height round cs in
  let rs' := roundState (out_state o) in
  sent_votes (out_trace o) = []
  \/ (exists cs0,
        same_position cs cs0
        /\ sent_votes (out_trace o)
           = option_list (our_vote cs0 VoteTypePrecommit [] PartSetHeader.zero))
  \/ (exists cs0 hash hd,
        same_position cs cs0
        /\ sent_votes (out_trace o) = option_list (our_vote cs0 VoteTypePrecommit hash hd)
        /\ LockedRound rs' = round
        /\ Block_HashesTo (LockedBlock rs') hash = true).
Proof.
  cbn zeta. unfold enterPrecommit. rewrite bind_gets.
  destruct (_ || _); [by left|].
  rewrite defer_done_trace, defer_done_state, sent_votes_app, step_record_no_votes,
    app_nil_r.
  cbn [stepped cs_set_nSteps cs_set_roundState roundState set_Step set_Round
       LockedRound LockedBlock].
  destruct (SignAggr_TwoThirdsMajority _) as [blockID ok].
  destruct (HVSA_Prevotes _ _) as [prevotes|]; [|by left].
  cbn [deref]. rewrite bind_ret.
  destruct ok; cbn [negb].
  2:{ right; left. exists cs. split; [done|]. apply vote_then_done. }
  run_fire. rewrite sent_votes_fire.
  destruct (_ <? _); [by left|].
  case_bool_decide as Hnil.
  { right; left.
    destruct (LockedBlock (roundState cs)); votes_run;
      (eexists; split; [|apply vote_then_done]; done). }
  destruct (Block_HashesTo (LockedBlock (roundState cs)) (BlockID.Hash blockID)) eqn:Hlk.
  { right; right. votes_run.
    match goal with |- context [(signAddVote ?t ?h ?d ;;; ret tt) ?c] =>
      destruct (vote_then_done t h d c) as [Hst Hv];
      destruct (vote_then_done_lock t h d c) as [Hl1 Hl2]
    end.
    eexists _, _, _. split; [|split; [exact Hv|]]; [done|]. rewrite Hl1, Hl2. cbn.
    split; [reflexivity | exact Hlk]. }
  destruct (Block_HashesTo (ProposalBlock (roundState cs)) (BlockID.Hash blockID)) eqn:Hpb.
  { votes_run. destruct (state cs) as [st|] eqn:Hst0; cbn [deref]; votes_run;
      [|by left].
    destruct (State_ValidateBlock st _); cbn [negb]; [|by left].
    right; right. votes_run.
    match goal with |- context [(signAddVote ?t ?h ?d ;;; ret tt) ?c] =>
      destruct (vote_then_done t h d c) as [Hst Hv];
      destruct (vote_then_done_lock t h d c) as [Hl1 Hl2]
    end.
    eexists _, _, _. split; [|split; [exact Hv|]]; [done|]. rewrite Hl1, Hl2. cbn.
    split; [reflexivity | exact Hpb]. }
  right; left. unfold when.
  destruct (negb _); votes_run; (eexists; split; [|apply vote_then_done]; done).
Qed.

Lemma elem_of_option_list {A} (o : option A) (x : A) :
  x ∈ option_list o -> o = Some x.
Proof.
  destruct o as [y|]; cbn; [|by intros ?%elem_of_nil].
  intros H%list_elem_of_singleton. by subst.
Qed.

(** X9: [enterPrecommit] sends at most one vote, a precommit for the height
    and the round the engine is in when called; and whenever the precommit
    is for a block (not nil), the node ends up locked on that block at
    the round entered: LockedRound is the round and LockedBlock hashes to
    the BlockID voted for. *)
Theorem enterPrecommit_precommits_only_locked height round cs v :
  v ∈ sent_votes (out_trace (enterPrecommit height round cs)) ->
  let rs' := roundState (out_state (enterPrecommit height round cs)) in
  sent_votes (out_trace (enterPrecommit height round cs)) = [v]
  /\ Vote.Type_ v = VoteTypePrecommit
  /\ Vote.Height v = Height (roundState cs)
  /\ Vote.Round v = Round (roundState cs)
  /\ (length (BlockID.Hash (Vote.BlockID v)) <> 0%nat ->
      LockedRound rs' = round
      /\ Block_HashesTo (LockedBlock rs') (BlockID.Hash (Vote.BlockID v)) = true).
Proof.
  intros Hin. cbn zeta.
  destruct (enterPrecommit_votes height round cs)
    as [Hnil|[(cs0 & (Hh & Hr) & Hv)|(cs0 & hash & hd & (Hh & Hr) & Hv & Hlr & Hlb)]];
    rewrite Hv in Hin |- * || (rewrite Hnil in Hin; by apply elem_of_nil in Hin).
  - apply elem_of_option_list in Hin. rewrite Hin.
    apply our_vote_spec in Hin as (Ht & Hb & Hvh & Hvr).
    rewrite Hb, Hvh, Hvr. cbn. repeat split; try done.
  - apply elem_of_option_list in Hin. rewrite Hin.
    apply our_vote_spec in Hin as (Ht & Hb & Hvh & Hvr).
    rewrite Hb, Hvh, Hvr. cbn. repeat split; try done.
Qed.

(** X10: [enterPrecommit] without a polka. Past the guard, when there is no
    prevote aggregate for the round the function panics where it reads the
    aggregate's BlockID, yet its deferred block has moved the engine to the
    precommit step; when the aggregate is there without a +2/3 majority the
    node precommits nil. Either way the lock is as it was: only round, step
    and the step counter change. *)
Theorem enterPrecommit_without_polka height round cs :
  may_enter cs height round RoundStepPrecommit ->
  let prevotes := HVSA_Prevotes (VoteSignAggr (roundState cs)) round in
  (prevotes = None ->
   enterPrecommit height round cs
   = Panic ("nil pointer dereference: " +:+ "cs.VoteSignAggr.Prevotes(round)")
       (stepped round RoundStepPrecommit cs)
       (step_record round RoundStepPrecommit cs))
  /\ (prevotes <> None -> snd (SignAggr_TwoThirdsMajority prevotes) = false ->
      out_state (enterPrecommit height round cs) = stepped round RoundStepPrecommit cs
      /\ sent_votes (out_trace (enterPrecommit height round cs))
         = option_list (our_vote cs VoteTypePrecommit [] PartSetHeader.zero)).
Proof.
  intros Hg. cbn zeta. split.
  - intros Hnone. unfold enterPrecommit. rewrite bind_gets, (guard_false _ _ _ _ Hg).
    rewrite Hnone. destruct (SignAggr_TwoThirdsMajority None) as [blockID ok].
    unfold defer. cbn [deref]. rewrite bind_panic. by rewrite done_step_run.
  - intros Hsome Hok. unfold enterPrecommit.
    rewrite bind_gets, (guard_false _ _ _ _ Hg).
    rewrite defer_done_state, defer_done_trace, sent_votes_app, step_record_no_votes,
      app_nil_r.
    destruct (SignAggr_TwoThirdsMajority _) as [blockID ok]. cbn in Hok. subst ok.
    destruct (HVSA_Prevotes _ _) as [prevotes|]; [|done].
    cbn [deref negb]. rewrite bind_ret.
    destruct (vote_then_done VoteTypePrecommit [] PartSetHeader.zero cs) as [Hst Hv].
    unfold precommit_nil. by rewrite Hst, Hv.
Qed.

(** *** Signing and forwarding a vote *)

(** X11: what [signAddVote] does with the vote it signs: the vote goes on the
    internal queue first, and is then forwarded to the proposer exactly
    when this node is not the proposer and knows the proposer's peer key;
    the state is not touched. *)
Theorem signAddVote_forwards_to_proposer t hash hd cs pv proposer v :
  privValidator cs = Some pv ->
  GetProposer (Validators (roundState cs)) = Some proposer ->
  our_vote cs t hash hd = Some v ->
  signAddVote t hash hd cs
  = Ret (Some v) cs
      (SendInternal {| Msg := VoteMessage v; PeerKey := "" |}
       :: if bool_decide (Validator.Address proposer ≠ GetAddress pv)
             && bool_decide (ProposerPeerKey (roundState cs) ≠ "")
          then [Fire (EventVote2Proposer v (ProposerPeerKey (roundState cs)))]
          else []).
Proof.
  intros Hpv Hprop Hv. unfold our_vote in Hv. rewrite Hpv in Hv.
  destruct (state cs) as [st|] eqn:Hst; [|done].
  destruct (ValidatorSet.HasAddress _ _) eqn:Hhas; [|done].
  unfold signAddVote, signVote, IsProposer, sendInternalMessage.
  unfold bind, gets, rs_get, ret, when, deref, emit, panic, BytesToHash160; cbn.
  rewrite Hpv. cbn. rewrite Hhas. cbn. rewrite Hst. cbn.
  destruct (SignVote pv _ _) as [[sig sb]|]; [|done]. cbn.
  rewrite Hprop. cbn. simplify_eq.
  destruct (decide (Validator.Address proposer = GetAddress pv)) as [Heq|Hne].
  - rewrite (bool_decide_eq_true_2 _ Heq).
    rewrite (bool_decide_eq_false_2 (_ ≠ _)) by (intros H; by apply H). done.
  - rewrite (bool_decide_eq_false_2 _ Hne), (bool_decide_eq_true_2 _ Hne). cbn.
    destruct (decide (ProposerPeerKey (roundState cs) = "")) as [Hk|Hk].
    + rewrite (bool_decide_eq_true_2 _ Hk).
      rewrite (bool_decide_eq_false_2 (_ ≠ _)) by (intros H; by apply H). done.
    + rewrite (bool_decide_eq_false_2 _ Hk), (bool_decide_eq_true_2 _ Hk). done.
Qed.

(** *** Votes *)

#[local] Instance only_votes_preorder : PreOrder only_votes.
Proof.
  split.
  - intros cs. exists (Votes (roundState cs)). by destruct cs as [? ? ? ? ? [] ? ? ? ? ? ? ? ?].
  - intros x y z [v ->] [v' ->]. by exists v'.
Qed.

Ltac side_votes := first [exact I | by eexists | reflexivity].

Lemma sendMaj23SignAggr_only_votes t :
  sound only_votes announces_aggregate (sendMaj23SignAggr t).
Proof. unfold sendMaj23SignAggr. prims. sound_auto side_votes. Qed.
#[local] Hint Resolve sendMaj23SignAggr_only_votes : sound.

Lemma addVote_only_votes v k : sound only_votes announces_aggregate (addVote v k).
Proof. unfold addVote. prims. sound_auto side_votes. Qed.
#[local] Hint Resolve addVote_only_votes : sound.

Lemma tryAddVote_only_votes v k : sound only_votes announces_aggregate (tryAddVote v k).
Proof. unfold tryAddVote. prims. sound_auto side_votes. Qed.
#[local] Hint Resolve tryAddVote_only_votes : sound.

(** X12: handling a vote never moves the engine. Whatever the vote,
    [handleMsg] changes nothing but the vote book (height, round, step,
    proposal and lock stay), and all it can emit is the announcement of a
    +2/3 aggregate built from the book, and a pause. *)
Theorem handleMsg_vote_only_fills_vote_book vote peerKey rs cs :
  let o := handleMsg {| Msg := VoteMessage vote; PeerKey := peerKey |} rs cs in
  (exists votes, out_state o = with_votes votes cs)
  /\ Forall announces_aggregate (out_trace o).
Proof.
  cbn zeta.
  assert (H : sound only_votes announces_aggregate
                (handleMsg {| Msg := VoteMessage vote; PeerKey := peerKey |} rs)).
  { unfold handleMsg. cbn [Msg PeerKey]. prims. sound_auto side_votes. }
  apply H.
Qed.

(** X13: the errors of [tryAddVote]. A vote for another height is turned away
    with ErrVoteHeightMismatch before anything is touched; and whatever
    error the vote book reports, the caller sees only a height mismatch, a
    conflicting vote or ErrAddingVote. *)
Theorem tryAddVote_error_kinds vote peerKey cs :
  (Vote.Height vote <> Height (roundState cs) ->
   tryAddVote vote peerKey cs = Ret (Some ErrVoteHeightMismatch) cs [])
  /\ (forall e, out_value (tryAddVote vote peerKey cs) = Some (Some e) ->
      e = ErrVoteHeightMismatch \/ e = ErrVoteConflictingVotes \/ e = ErrAddingVote).
Proof.
  split.
  - intros Hh. unfold tryAddVote, addVote. rewrite bind_assoc, bind_gets.
    by rewrite (bool_decide_eq_false_2 _ Hh).
  - intros e. unfold tryAddVote, bind.
    destruct (addVote vote peerKey cs) as [[added err] cs1 tr1|]; [|done].
    destruct err as [[]|]; cbn; intros H; simplify_eq; auto.
Qed.

(** *** Proposing *)

Lemma send_parts_run cs (parts : option PartSet) (l : list Z) :
  forM_ l (fun i =>
    let* h := rs_get Height in
    let* r := rs_get Round in
    sendInternalMessage
      {| Msg := BlockPartMessage h r (PartSet_GetPart parts i); PeerKey := "" |}) cs
  = Ret tt cs
      ((fun i => SendInternal
                   {| Msg := BlockPartMessage (Height (roundState cs))
                               (Round (roundState cs)) (PartSet_GetPart parts i);
                      PeerKey := "" |}) <$> l).
Proof.
  induction l as [|i l IH]; [done|].
  cbn [forM_ fmap list_fmap]. unfold bind at 1. unfold rs_get at 1 2.
  rewrite !bind_gets. unfold sendInternalMessage at 1, emit at 1. by rewrite IH.
Qed.

(** X14: a proposer that is locked proposes its locked block again. With a
    block locked, [defaultDecideProposal] builds no new block: it signs a
    proposal for the locked block's hash and parts header with the POL info
    of the aggregate book, hands it to the reactor, queues it, and queues
    the parts of the locked block after it, in index order; the state is
    not touched. *)
Theorem defaultDecideProposal_reproposes_locked_block height round cs b pv ni st sig :
  LockedBlock (roundState cs) = Some b ->
  nodeInfo cs = Some ni -> privValidator cs = Some pv -> state cs = Some st ->
  let parts := LockedBlockParts (roundState cs) in
  let unsigned_proposal := proposal_for height round cs ni (Some b) parts in
  SignProposal pv (State_ChainID st) unsigned_proposal = Some sig ->
  let proposal := Proposal.set_Signature sig unsigned_proposal in
  defaultDecideProposal height round cs
  = Ret tt cs
      (Fire (EventProposalBlockParts proposal parts)
       :: SendInternal {| Msg := ProposalMessage proposal; PeerKey := "" |}
       :: part_messages cs parts).
Proof.
  intros Hl Hni Hpv Hst. cbn zeta. unfold proposal_for. intros Hsig.
  unfold defaultDecideProposal. rewrite bind_gets, Hl, bind_ret.
  rewrite bind_gets, Hni. unfold rs_get at 1. rewrite bind_gets.
  destruct (HVSA_POLInfo _) as [polRound polBlockID].
  rewrite bind_gets, Hpv. cbn [deref]. rewrite bind_ret, bind_gets, Hst. cbn [deref].
  rewrite bind_ret, Hsig.
  unfold bind at 1. unfold emit at 1. unfold bind at 1.
  unfold sendInternalMessage at 1, emit at 1.
  rewrite send_parts_run. unfold part_messages. done.
Qed.

(** X15: no commit, no proposal. A proposer that is not locked, past height
    1, whose LastCommit has no +2/3 majority proposes nothing:
    [defaultDecideProposal] returns with no effect and the state as it
    was. *)
Theorem defaultDecideProposal_needs_last_commit height round cs :
  LockedBlock (roundState cs) = None ->
  Height (roundState cs) <> 1 ->
  SignAggr_HasTwoThirdsMajority (LastCommit (roundState cs)) (Validators (roundState cs))
  = false ->
  defaultDecideProposal height round cs = Ret tt cs [].
Proof.
  intros Hl Hh Hmaj. unfold defaultDecideProposal. rewrite bind_gets, Hl.
  unfold createProposalBlock. rewrite !bind_assoc, !bind_gets.
  rewrite (bool_decide_eq_false_2 _ Hh), Hmaj. by monad_run.
Qed.

(** X16: [enterPropose] for a node that does not propose (no private
    validator, or not this round's proposer) and has no proposal yet:
    it schedules the propose timeout and records the step, nothing else. *)
Theorem enterPropose_when_not_proposer height round cs :
  may_enter cs height round RoundStepPropose ->
  Proposal (roundState cs) = None ->
  (privValidator cs = None
   \/ exists pv proposer,
        privValidator cs = Some pv
        /\ GetProposer (Validators (roundState cs)) = Some proposer
        /\ Validator.Address proposer <> GetAddress pv) ->
  enterPropose height round cs
  = Ret tt (stepped round RoundStepPropose cs)
      (ScheduleTimeout {| ti_Duration := tp_Propose (timeoutParams cs) round;
                          ti_Height := height; ti_Round := round;
                          ti_Step := RoundStepPropose |}
       :: step_record round RoundStepPropose cs).
Proof.
  intros Hg Hnone Hnp. unfold enterPropose. rewrite bind_gets, (guard_false _ _ _ _ Hg).
  set (body := bind _ _).
  assert (Hbody : body cs
                  = Ret tt cs [ScheduleTimeout
                                 {| ti_Duration := tp_Propose (timeoutParams cs) round;
                                    ti_Height := height; ti_Round := round;
                                    ti_Step := RoundStepPropose |}]).
  { unfold body. rewrite bind_assoc, bind_gets. unfold scheduleTimeout.
    unfold bind at 1, emit at 1. rewrite bind_gets.
    destruct Hnp as [->|(pv & proposer & -> & Hp & Hne)]; [done|].
    unfold rs_get. rewrite bind_gets, Hp. cbn [deref]. rewrite bind_ret.
    by rewrite (bool_decide_eq_false_2 _ Hne). }
  unfold defer. rewrite Hbody.
  assert (Hd : (updateRoundStep round RoundStepPropose ;;; newStep ;;;
                let* rs' := gets roundState in
                match Proposal rs' with
                | Some _ => enterPrevote height (Round rs')
                | None => ret tt
                end) cs
               = Ret tt (stepped round RoundStepPropose cs)
                   (step_record round RoundStepPropose cs)).
  { rewrite <- (bind_assoc (updateRoundStep round RoundStepPropose) (fun _ => newStep)).
    unfold bind at 1. rewrite done_step_run, bind_gets. cbn. rewrite Hnone. cbn.
    by rewrite app_nil_r. }
  by rewrite Hd.
Qed.

(** *** A proposal arrives *)

Lemma handleMsg_proposal_run p peerKey rs cs cs1 :
  setProposal p cs = Ret None cs1 [] ->
  handleMsg {| Msg := ProposalMessage p; PeerKey := peerKey |} rs cs
  = enterPrevote (Height (roundState cs1)) (Round (roundState cs1)) cs1.
Proof.
  intros Hset. unfold handleMsg. cbn [Msg]. unfold bind at 1. rewrite Hset.
  rewrite bind_gets. by destruct (enterPrevote _ _ _).
Qed.

Lemma enterPrevote_from_before cs :
  step_code (Step (roundState cs)) < step_code RoundStepPrevote ->
  let rs' := roundState (out_state (enterPrevote (Height (roundState cs))
                                      (Round (roundState cs)) cs)) in
  Height rs' = Height (roundState cs) /\ Round rs' = Round (roundState cs)
  /\ Step rs' = RoundStepPrevote /\ Proposal rs' = Proposal (roundState cs).
Proof.
  intros Hs. cbn zeta.
  assert (Hg : may_enter cs (Height (roundState cs)) (Round (roundState cs))
                 RoundStepPrevote) by (repeat split; [lia | done]).
  destruct (enterPrevote_enters _ _ _ Hg) as (H1 & H2 & H3).
  destruct (enterPrevote_core (Height (roundState cs)) (Round (roundState cs)) cs)
    as [(_ & Hcore & _) _].
  apply core_proposal in Hcore as (Hprop & _). done.
Qed.

(** X17: a proposal message makes the node prevote at once. When
    [setProposal] reports no error, because it installed the proposal or
    because it ignored it (another height or round, a proposal already
    there), [handleMsg] goes on to [enterPrevote] for the current height
    and round without waiting for the block: from a step before Prevote
    the engine ends in the prevote step, with the accepted proposal
    installed. A proposal that is rejected (bad POLRound, bad signature)
    changes nothing and emits nothing. *)
Theorem handleMsg_proposal_enters_prevote p peerKey rs cs :
  step_code (Step (roundState cs)) < step_code RoundStepPrevote ->
  let o := handleMsg {| Msg := ProposalMessage p; PeerKey := peerKey |} rs cs in
  let rs' := roundState (out_state o) in
  (ignored cs p \/ accepts cs p ->
   Height rs' = Height (roundState cs) /\ Round rs' = Round (roundState cs)
   /\ Step rs' = RoundStepPrevote)
  /\ (accepts cs p -> Proposal rs' = Some p)
  /\ (~ ignored cs p -> ~ accepts cs p -> out_state o = cs /\ out_trace o = []).
Proof.
  intros Hs. cbn zeta. split; [|split].
  - intros [Hig|Hacc].
    + rewrite (handleMsg_proposal_run _ _ _ _ cs (setProposal_ignored true cs p Hig)).
      destruct (enterPrevote_from_before cs Hs) as (?&?&?&?). done.
    + rewrite (handleMsg_proposal_run _ _ _ _ _ (setProposal_accept true cs p Hacc)).
      destruct (enterPrevote_from_before (installed true p cs) Hs) as (?&?&?&?). done.
  - intros Hacc.
    rewrite (handleMsg_proposal_run _ _ _ _ _ (setProposal_accept true cs p Hacc)).
    destruct (enterPrevote_from_before (installed true p cs) Hs) as (?&?&?&->). done.
  - intros Hig Hacc.
    destruct (applies_or_ignored cs p) as [Happ|]; [|done].
    assert (Hrej : (exists e, setProposal p cs = Ret (Some e) cs [])
                   \/ exists msg, setProposal p cs = Panic msg cs []).
    { destruct (polround_ok_dec p) as [Hpol|Hpol].
      - destruct (setProposal_checked true cs p Happ Hpol) as [?|[?|?]]; [done|eauto..].
      - left. eexists. apply (setProposal_bad_polround true cs p Happ Hpol). }
    unfold handleMsg. cbn [Msg]. unfold bind.
    destruct Hrej as [[e ->]|[msg ->]]; done.
Qed.

(** *** Block parts *)

(** X18: [addProposalBlockPart] emits nothing and writes at most the
    proposal part set and the proposal block. A part for another height,
    or one that arrives when no part set is expected, is dropped with
    (false, nil) and nothing changes; and the proposal block is replaced
    only by the block decoded from a part set that this part completed. *)
Theorem addProposalBlockPart_installs_complete_block height part verify cs :
  let o := addProposalBlockPart height part verify cs in
  let rs := roundState cs in
  let rs' := roundState (out_state o) in
  out_trace o = []
  /\ (exists block parts,
        out_state o
        = cs_set_roundState
            (set_ProposalBlock block (set_ProposalBlockParts parts rs)) cs)
  /\ (Height rs <> height \/ ProposalBlockParts rs = None ->
      o = Ret (false, None) cs [])
  /\ (ProposalBlock rs' = ProposalBlock rs
      \/ exists parts',
           ProposalBlockParts rs' = Some parts'
           /\ PartSet_IsComplete parts' = true
           /\ ProposalBlock rs' = Some (fst (ReadBlock parts'))
           /\ fst <$> out_value o = Some true).
Proof.
  cbn zeta.
  assert (Heta : cs = cs_set_roundState
                        (set_ProposalBlock (ProposalBlock (roundState cs))
                           (set_ProposalBlockParts (ProposalBlockParts (roundState cs))
                              (roundState cs))) cs).
  { by destruct cs as [? ? ? ? ? [] ? ? ? ? ? ? ? ?]. }
  unfold addProposalBlockPart. rewrite bind_gets.
  case_bool_decide as Hh.
  { split; [done|]. split; [eauto|]. split; [done | by left]. }
  destruct (ProposalBlockParts (roundState cs)) as [parts|] eqn:Hparts.
  2:{ split; [done|]. split; [eauto|]. split; [done | by left]. }
  destruct (PartSet_AddPart parts part verify) as [[parts' added] err].
  unfold rs_upd. rewrite bind_modify.
  destruct err as [e|].
  { cbn. split; [done|]. split; [eexists _, _; reflexivity|].
    split; [intros [?|?]; done | by left]. }
  destruct (added && PartSet_IsComplete parts') eqn:Hc.
  - apply andb_true_iff in Hc as [-> Hc].
    destruct (ReadBlock parts') as [block err'] eqn:Hrb. rewrite bind_modify. cbn.
    split; [done|]. split; [eexists _, _; reflexivity|].
    split; [intros [?|?]; done|].
    right. exists parts'. rewrite Hrb. done.
  - cbn. split; [done|]. split; [eexists _, _; reflexivity|].
    split; [intros [?|?]; done | by left].
Qed.

(** *** The next height *)

Lemma newStep_run cs :
  newStep cs
  = Ret tt (cs_set_nSteps (GoInt.add (nSteps cs) 1) cs)
      (step_record (Round (roundState cs)) (Step (roundState cs)) cs).
Proof.
  unfold newStep, rs_get, wal_Save, step_record.
  unfold bind, gets, modify, emit, ret, when; cbn.
  destruct (wal cs); cbn; destruct (evsw cs); cbn; done.
Qed.

Lemma bind_rs_upd {B} f (k : unit -> Eff B) cs :
  bind (rs_upd f) k cs = k tt (cs_set_roundState (f (roundState cs)) cs).
Proof. unfold rs_upd. by rewrite bind_modify. Qed.

Lemma bind_rs_upd_set {B} g (k : unit -> Eff B) r cs :
  bind (rs_upd g) k (cs_set_roundState r cs) = k tt (cs_set_roundState (g r) cs).
Proof. unfold rs_upd. by rewrite bind_modify. Qed.

Lemma updateToStateAndEpoch_run st ep cs :
  next_state_fits cs st ->
  updateToStateAndEpoch st ep cs
  = Ret tt (new_height_state st ep cs)
      (step_record 0 RoundStepNewHeight (new_height_state st ep cs)).
Proof.
  intros [Hs1 Hs2]. unfold updateToStateAndEpoch. rewrite !bind_gets.
  assert (G1 : (-1 <? CommitRound (roundState cs)) && (0 <? Height (roundState cs))
               && bool_decide (Height (roundState cs) ≠ State_LastBlockHeight st) = false).
  { destruct (-1 <? CommitRound (roundState cs)) eqn:H1; [|done].
    destruct (0 <? Height (roundState cs)) eqn:H2; [|done].
    apply Z.ltb_lt in H1, H2. cbn. apply bool_decide_eq_false. intros Hne.
    apply Hne. auto. }
  rewrite G1.
  assert (G2 : match state cs with
               | Some c => bool_decide (GoInt.add (State_LastBlockHeight c) 1
                                        ≠ Height (roundState cs))
               | None => false
               end = false).
  { destruct (state cs) as [cur|]; [|done]. destruct (Hs2 cur eq_refl) as [He _].
    apply bool_decide_eq_false. intros Hne. by apply Hne. }
  rewrite G2.
  assert (G3 : match state cs with
               | Some c => State_LastBlockHeight st <=? State_LastBlockHeight c
               | None => false
               end = false).
  { destruct (state cs) as [cur|]; [|done]. destruct (Hs2 cur eq_refl) as [_ Hlt].
    apply Z.leb_gt. lia. }
  rewrite G3.
  unfold updateHeight, updateRoundStep, new_height_state.
  rewrite !bind_gets, bind_rs_upd, bind_assoc, !bind_rs_upd_set.
  destruct (bool_decide (CommitTime (roundState cs) = 0));
    rewrite !bind_rs_upd_set, !bind_modify, newStep_run; reflexivity.
Qed.

(** X19: [updateToStateAndEpoch], which starts a height. When its sanity
    checks pass and the new state is further out than the one the engine
    has, the round state is rebuilt for height LastBlockHeight+1 at round 0,
    step NewHeight: proposal, proposal block, stored aggregates and lock are
    gone, the vote books are fresh, CommitRound is -1 and LastCommit is the
    precommit aggregate of the round that committed; the new step is
    recorded. A state that is not further out than the one the engine has
    is ignored: nothing changes. *)
Theorem updateToStateAndEpoch_starts_height st ep cs :
  (next_state_fits cs st ->
   updateToStateAndEpoch st ep cs
   = Ret tt (new_height_state st ep cs)
       (step_record 0 RoundStepNewHeight (new_height_state st ep cs)))
  /\ (forall cur,
        state cs = Some cur ->
        GoInt.add (State_LastBlockHeight cur) 1 = Height (roundState cs) ->
        (-1 < CommitRound (roundState cs) -> 0 < Height (roundState cs) ->
         Height (roundState cs) = State_LastBlockHeight st) ->
        State_LastBlockHeight st <= State_LastBlockHeight cur ->
        updateToStateAndEpoch st ep cs = Ret tt cs []).
Proof.
  split; [apply updateToStateAndEpoch_run|].
  intros cur Hcur Hh Hs Hle. unfold updateToStateAndEpoch. rewrite !bind_gets.
  replace (_ && _ && _) with false.
  2:{ symmetry. destruct (-1 <? CommitRound (roundState cs)) eqn:H1; [|done].
      destruct (0 <? Height (roundState cs)) eqn:H2; [|done].
      apply Z.ltb_lt in H1, H2. cbn. apply bool_decide_eq_false. intros Hne.
      apply Hne. auto. }
  rewrite Hcur. rewrite (bool_decide_eq_false_2 (_ ≠ _)) by (intros H; by apply H).
  apply Z.leb_le in Hle. by rewrite Hle.
Qed.

(** *** Finalizing a commit *)

Lemma bind_emit_value {B} e (k : unit -> Eff B) cs :
  out_value (bind (emit e) k cs) = out_value (k tt cs).
Proof. unfold bind, emit. by destruct (k tt cs). Qed.

Ltac outcome_run :=
  repeat first
    [ rewrite bind_assoc | rewrite bind_gets | rewrite bind_modify
    | rewrite bind_ret | rewrite bind_emit_state | rewrite bind_emit_trace
    | rewrite bind_emit_value ].

(** Past the guard and the sanity checks, [finalizeCommit] saves the block,
    closes the height in the WAL and applies the block; what follows
    depends on whether [ApplyBlock] succeeded. *)
Lemma finalizeCommit_run height cs st st' applied :
  finalizes cs height -> state cs = Some st ->
  State_ApplyBlock st (ProposalBlock (roundState cs))
    (PartSet_Header (ProposalBlockParts (roundState cs))) (mempool cs)
  = (st', applied) ->
  let K : Eff unit :=
    if negb applied then ret tt
    else
      emit (Fire (EventNewBlock (ProposalBlock (roundState cs)))) ;;;
      emit (Fire (EventNewBlockHeader (ProposalBlock (roundState cs)))) ;;;
      emit (Fire EventCacheFlush) ;;;
      updateToStateAndEpoch st' (State_Epoch st') ;;;
      scheduleRound0 in
  out_state (finalizeCommit height cs) = out_state (K (block_stored cs))
  /\ out_trace (finalizeCommit height cs)
     = commit_prefix height cs ++ out_trace (K (block_stored cs))
  /\ out_value (finalizeCommit height cs) = out_value (K (block_stored cs)).
Proof.
  intros (Hh & Hs & blockID & st0 & Hmaj & Hhdr & Hhash & Hst0 & Hval) Hst Happ.
  assert (st0 = st) by congruence. subst st0. cbn zeta.
  unfold finalizeCommit. rewrite bind_gets.
  rewrite (bool_decide_eq_false_2 _ (fun H => H Hh)), Hs, Hmaj.
  change (step_eqb RoundStepCommit RoundStepCommit) with true. cbn [negb orb].
  rewrite bind_gets. cbn [negb]. rewrite Hhdr, Hhash, Hst. cbn [negb deref].
  rewrite bind_ret, Hval. cbn [negb].
  unfold commit_prefix, block_stored. outcome_run.
  destruct (blockStoreHeight cs <? Block_Height (ProposalBlock (roundState cs)));
    outcome_run; unfold when; cbn [wal cs_set_blockStoreHeight];
    (destruct (wal cs) as [w|] eqn:Hw;
     [rewrite bool_decide_eq_true_2 by done
     |rewrite bool_decide_eq_false_2 by (intros Hne; by apply Hne)]);
    outcome_run; cbn [mempool cs_set_blockStoreHeight]; rewrite Happ; done.
Qed.

(** X20: when [ApplyBlock] fails, [finalizeCommit] returns where it stands:
    the block is already in the block store and the WAL has closed the
    height, but the height is not advanced: the engine stays at the same
    height, round and step (Commit), no new-block event is fired and no
    round 0 is scheduled. *)
Theorem finalizeCommit_stays_when_apply_fails height cs st st' :
  finalizes cs height -> state cs = Some st ->
  State_ApplyBlock st (ProposalBlock (roundState cs))
    (PartSet_Header (ProposalBlockParts (roundState cs))) (mempool cs)
  = (st', false) ->
  let o := finalizeCommit height cs in
  out_value o = Some tt
  /\ out_state o = block_stored cs
  /\ roundState (out_state o) = roundState cs
  /\ state (out_state o) = Some st
  /\ out_trace o = commit_prefix height cs.
Proof.
  intros Hfin Hst Happ. cbn zeta.
  destruct (finalizeCommit_run _ _ _ _ _ Hfin Hst Happ) as (-> & -> & ->).
  cbn [negb ret out_value out_state out_trace]. rewrite app_nil_r.
  unfold block_stored.
  destruct (_ <? _);
    (split; [done|]); (split; [done|]); (split; [done|]); (split; [exact Hst|done]).
Qed.

Lemma next_state_fits_stored cs st :
  next_state_fits cs st -> next_state_fits (block_stored cs) st.
Proof. unfold next_state_fits, block_stored. by destruct (_ <? _). Qed.

(** X21: a successful [finalizeCommit] starts the next height. With the
    sanity checks passed and the block applied, the engine ends in the state
    [updateToStateAndEpoch] builds from the new application state: height
    LastBlockHeight+1, which is h+1 when a commit round is set and h is
    positive, round 0, step NewHeight, no proposal and no lock. It has
    emitted, in order: the save and apply effects, the new-block events, the
    record of the new step, and last the timeout for round 0 of the new
    height. *)
Theorem finalizeCommit_starts_next_height height cs st st' :
  finalizes cs height -> state cs = Some st ->
  State_ApplyBlock st (ProposalBlock (roundState cs))
    (PartSet_Header (ProposalBlockParts (roundState cs))) (mempool cs)
  = (st', true) ->
  next_state_fits cs st' ->
  let o := finalizeCommit height cs in
  let cs' := new_height_state st' (State_Epoch st') (block_stored cs) in
  out_value o = Some tt
  /\ out_state o = cs'
  /\ out_trace o
     = commit_prefix height cs ++ new_block_events cs
       ++ step_record 0 RoundStepNewHeight cs' ++ [round0_timeout cs']
  /\ Height (roundState cs') = GoInt.add (State_LastBlockHeight st') 1
  /\ (-1 < CommitRound (roundState cs) -> 0 < height ->
      Height (roundState cs') = GoInt.add height 1).
Proof.
  intros Hfin Hst Happ Hfits. cbn zeta.
  destruct (finalizeCommit_run _ _ _ _ _ Hfin Hst Happ) as (-> & -> & ->).
  cbn [negb]. outcome_run.
  pose proof (updateToStateAndEpoch_run st' (State_Epoch st') _
                (next_state_fits_stored _ _ Hfits)) as Hrun.
  unfold bind at 1 2 3. rewrite Hrun.
  unfold scheduleRound0, scheduleTimeout. outcome_run.
  cbn [out_value out_state out_trace emit].
  split; [done|]. split; [done|]. split; [done|]. split; [done|].
  intros Hc Hpos. destruct Hfin as (Hh & _). destruct Hfits as (Hs1 & _).
  cbn. rewrite <- (Hs1 Hc); [by rewrite Hh | by rewrite Hh].
Qed.

(** *** Entering the commit step *)

Lemma defer_value_ret {A} (body : Eff A) (d : Eff unit) cs a cs1 tr1 :
  body cs = Ret a cs1 tr1 ->
  out_value (defer body d cs) = match out_value (d cs1) with Some _ => Some a | None => None end.
Proof. unfold defer. intros ->. by destruct (d cs1). Qed.

Lemma defer_value_panic {A} (body : Eff A) (d : Eff unit) cs :
  out_value (body cs) = None -> out_value (defer body d cs) = None.
Proof. unfold defer. destruct (body cs); [done|]. intros _. by destruct (d s). Qed.

Lemma enterCommit_body_run blockID cs :
  (when (Block_HashesTo (LockedBlock (roundState cs)) (BlockID.Hash blockID))
        (rs_upd (set_ProposalBlock (LockedBlock (roundState cs))) ;;;
         rs_upd (set_ProposalBlockParts (LockedBlockParts (roundState cs)))) ;;;
   let* rs1 := gets roundState in
   when (negb (Block_HashesTo (ProposalBlock rs1) (BlockID.Hash blockID))
         && negb (PartSet_HasHeader (ProposalBlockParts rs1)
                                    (BlockID.PartsHeader blockID)))
        (rs_upd (set_ProposalBlock None) ;;;
         rs_upd (set_ProposalBlockParts
                   (NewPartSetFromHeader (BlockID.PartsHeader blockID))))) cs
  = Ret tt (cs_set_roundState (commit_target blockID (roundState cs)) cs) [].
Proof.
  destruct cs as [? ? ? ? ? rs ? ? ? ? ? ? ? ?]. unfold commit_target, when. cbn [roundState].
  destruct (Block_HashesTo (LockedBlock rs) _).
  - rewrite bind_assoc, bind_rs_upd, bind_rs_upd_set, bind_gets. cbn [roundState cs_set_roundState].
    destruct (negb _ && negb _); [|done].
    by rewrite bind_rs_upd.
  - rewrite bind_ret, bind_gets. cbn [roundState].
    destruct (negb _ && negb _); [|done].
    by rewrite bind_rs_upd.
Qed.

Lemma commit_done_run {B} c (k : Eff B) cs :
  let d := (let* r := rs_get Round in updateRoundStep r RoundStepCommit) ;;;
           rs_upd (set_CommitRound c) ;;;
           (let* t := gets now in rs_upd (set_CommitTime t)) ;;;
           newStep ;;; k in
  out_state (d cs) = out_state (k (committed c cs))
  /\ out_trace (d cs)
     = step_record (Round (roundState cs)) RoundStepCommit cs
       ++ out_trace (k (committed c cs))
  /\ out_value (d cs) = out_value (k (committed c cs)).
Proof.
  cbn zeta.
  unfold rs_get, updateRoundStep, newStep, rs_upd, rs_get, wal_Save, step_record, committed.
  unfold bind, gets, modify, emit, ret, when; cbn.
  destruct (wal cs); cbn; destruct (evsw cs); cbn; destruct (k _); done.
Qed.

Lemma finalizeCommit_applies height cs b hd :
  ApplyBlock b hd ∈ out_trace (finalizeCommit height cs) ->
  finalizes cs height /\ b = ProposalBlock (roundState cs).
Proof.
  intros Hin.
  destruct (finalizeCommit_trace height cs)
    as [Hnil | (saved & closed & rest & Htr & Hsaved & Hclosed & Hrest & Hfin)].
  { rewrite Hnil in Hin. by apply elem_of_nil in Hin. }
  split; [done|]. rewrite Htr in Hin.
  apply elem_of_cons in Hin as [Hin|Hin]; [done|].
  apply elem_of_app in Hin as [Hin|Hin].
  { destruct Hsaved as [[-> _]|[-> _]]; [by apply elem_of_nil in Hin|].
    apply elem_of_cons in Hin as [Hin|Hin]; [done|].
    apply elem_of_cons in Hin as [Hin|Hin]; [done|]. by apply elem_of_nil in Hin. }
  apply elem_of_app in Hin as [Hin|Hin].
  { destruct Hclosed as [[-> _]|[-> _]]; [by apply elem_of_nil in Hin|].
    apply elem_of_cons in Hin as [Hin|Hin]; [done|]. by apply elem_of_nil in Hin. }
  apply elem_of_cons in Hin as [Hin|Hin]; [congruence|].
  rewrite Forall_forall in Hrest. by apply Hrest in Hin.
Qed.

Lemma tryFinalizeCommit_applies height cs b hd :
  ApplyBlock b hd ∈ out_trace (tryFinalizeCommit height cs) ->
  finalizes cs height /\ b = ProposalBlock (roundState cs).
Proof.
  unfold tryFinalizeCommit. rewrite bind_gets.
  destruct (bool_decide _); [intros Hin; by apply elem_of_nil in Hin|].
  destruct (SignAggr_TwoThirdsMajority _) as [blockID ok].
  destruct (negb ok || _); [intros Hin; by apply elem_of_nil in Hin|].
  destruct (negb _); [intros Hin; by apply elem_of_nil in Hin|].
  apply finalizeCommit_applies.
Qed.

Lemma step_record_no_apply round step cs b hd :
  ApplyBlock b hd ∉ step_record round step cs.
Proof.
  unfold step_record. intros Hin.
  apply elem_of_app in Hin as [Hin|Hin].
  - destruct (wal cs); [|by apply elem_of_nil in Hin].
    apply elem_of_cons in Hin as [Hin|Hin]; [done|]. by apply elem_of_nil in Hin.
  - destruct (evsw cs); [|by apply elem_of_nil in Hin].
    apply elem_of_cons in Hin as [Hin|Hin]; [done|]. by apply elem_of_nil in Hin.
Qed.

Lemma commit_target_aggr blockID rs :
  VoteSignAggr (commit_target blockID rs) = VoteSignAggr rs.
Proof.
  unfold commit_target.
  destruct (Block_HashesTo (LockedBlock rs) _); by destruct (negb _ && negb _).
Qed.

(** X22: [enterCommit] hands a block to the application only if it is the
    committed one. Whenever a call of [enterCommit(height, commitRound)]
    reaches [ApplyBlock], from any state, the engine is at that height, the
    precommit aggregate of [commitRound] has +2/3 for a block id, the applied
    block hashes to that id, and the block has passed [ValidateBlock] on the
    state the engine held. *)
Theorem enterCommit_applies_only_committed_block height commitRound cs b hd :
  ApplyBlock b hd ∈ out_trace (enterCommit height commitRound cs) ->
  exists blockID st,
    Height (roundState cs) = height
    /\ SignAggr_TwoThirdsMajority
         (HVSA_Precommits (VoteSignAggr (roundState cs)) commitRound)
       = (blockID, true)
    /\ Block_HashesTo b (BlockID.Hash blockID) = true
    /\ state cs = Some st
    /\ State_ValidateBlock st b = true.
Proof.
  unfold enterCommit. rewrite bind_gets.
  destruct (bool_decide (Height (roundState cs) ≠ height) || _) eqn:Hg;
    [intros Hin; by apply elem_of_nil in Hin|].
  apply orb_false_iff in Hg as [Hh _].
  apply bool_decide_eq_false in Hh. apply dec_stable in Hh.
  rewrite defer_trace.
  destruct (SignAggr_TwoThirdsMajority
              (HVSA_Precommits (VoteSignAggr (roundState cs)) commitRound))
    as [blockID ok] eqn:Hmaj.
  destruct ok; cbn [negb].
  - rewrite enterCommit_body_run. cbn [out_trace out_state app].
    destruct (commit_done_run commitRound (tryFinalizeCommit height)
                (cs_set_roundState (commit_target blockID (roundState cs)) cs))
      as (_ & -> & _).
    intros Hin. apply elem_of_app in Hin as [Hin|Hin];
      [by apply step_record_no_apply in Hin|].
    apply tryFinalizeCommit_applies in Hin
      as [(_ & _ & blockID' & st & Hmaj' & _ & Hhash & Hst & Hval) ->].
    exists blockID', st. split; [done|].
    cbn [roundState committed cs_set_roundState cs_set_nSteps VoteSignAggr
         set_CommitTime set_CommitRound set_Step set_Round CommitRound] in Hmaj'.
    rewrite commit_target_aggr in Hmaj'.
    split; [congruence|]. split; [done|]. split; [exact Hst|done].
  - cbn [out_trace out_state app PanicSanity panic].
    destruct (commit_done_run commitRound (tryFinalizeCommit height) cs)
      as (_ & -> & _).
    intros Hin. apply elem_of_app in Hin as [Hin|Hin];
      [by apply step_record_no_apply in Hin|].
    apply tryFinalizeCommit_applies in Hin
      as [(_ & _ & blockID' & st & Hmaj' & _ & Hhash & Hst & Hval) ->].
    cbn [roundState committed cs_set_roundState cs_set_nSteps VoteSignAggr
         set_CommitTime set_CommitRound set_Step set_Round CommitRound] in Hmaj'.
    congruence.
Qed.

(** X23: [enterCommit] without +2/3 precommits panics, but its deferred block
    still runs: when the panic leaves the function the step is already
    Commit, the commit round and time are recorded, the step change has been
    written to the WAL and announced, and nothing has been applied. *)
Theorem enterCommit_panics_after_step_change height commitRound cs blockID :
  Height (roundState cs) = height ->
  step_leb RoundStepCommit (Step (roundState cs)) = false ->
  SignAggr_TwoThirdsMajority
    (HVSA_Precommits (VoteSignAggr (roundState cs)) commitRound)
  = (blockID, false) ->
  let o := enterCommit height commitRound cs in
  out_value o = None
  /\ out_state o = committed commitRound cs
  /\ out_trace o = step_record (Round (roundState cs)) RoundStepCommit cs.
Proof.
  intros Hh Hs Hmaj. cbn zeta. unfold enterCommit. rewrite bind_gets.
  rewrite (bool_decide_eq_false_2 _ (fun H => H Hh)), Hs, Hmaj. cbn [orb negb].
  rewrite defer_state, defer_trace.
  split; [by apply defer_value_panic|].
  cbn [out_trace out_state app PanicSanity panic].
  destruct (commit_done_run commitRound (tryFinalizeCommit height) cs)
    as (-> & -> & _).
  unfold tryFinalizeCommit. rewrite bind_gets.
  cbn [roundState committed cs_set_roundState cs_set_nSteps VoteSignAggr Height
       set_CommitTime set_CommitRound set_Step set_Round CommitRound].
  rewrite (bool_decide_eq_false_2 _ (fun H => H Hh)), Hmaj. cbn [negb orb].
  cbn [out_state out_trace ret]. by rewrite app_nil_r.
Qed.

(** X24: [enterCommit] for a block the engine does not hold waits for it. If
    +2/3 precommitted a block id that neither the locked block nor the
    proposal block hashes to, the call returns in step Commit with the round
    kept and the commit round and time recorded, applies nothing, and, unless
    the part set already has the committed parts header, drops the proposal
    block and sets up an empty part set for that header. *)
Theorem enterCommit_waits_for_missing_block height commitRound cs blockID :
  let rs := roundState cs in
  Height rs = height ->
  step_leb RoundStepCommit (Step rs) = false ->
  SignAggr_TwoThirdsMajority (HVSA_Precommits (VoteSignAggr rs) commitRound)
  = (blockID, true) ->
  Block_HashesTo (LockedBlock rs) (BlockID.Hash blockID) = false ->
  Block_HashesTo (ProposalBlock rs) (BlockID.Hash blockID) = false ->
  Block_HashesTo None (BlockID.Hash blockID) = false ->
  let o := enterCommit height commitRound cs in
  let rs' := roundState (out_state o) in
  out_value o = Some tt
  /\ out_trace o = step_record (Round rs) RoundStepCommit cs
  /\ Height rs' = height /\ Round rs' = Round rs /\ Step rs' = RoundStepCommit
  /\ CommitRound rs' = commitRound /\ CommitTime rs' = now cs
  /\ (ProposalBlock rs', ProposalBlockParts rs')
     = (if PartSet_HasHeader (ProposalBlockParts rs) (BlockID.PartsHeader blockID)
        then (ProposalBlock rs, ProposalBlockParts rs)
        else (None, NewPartSetFromHeader (BlockID.PartsHeader blockID))).
Proof.
  cbn zeta. intros Hh Hs Hmaj Hlock Hprop Hnone.
  unfold enterCommit. rewrite bind_gets.
  rewrite (bool_decide_eq_false_2 _ (fun H => H Hh)), Hs, Hmaj. cbn [orb negb].
  rewrite defer_state, defer_trace.
  rewrite (defer_value_ret _ _ _ _ _ _ (enterCommit_body_run blockID cs)).
  rewrite enterCommit_body_run. cbn [out_trace out_state app].
  destruct (commit_done_run commitRound (tryFinalizeCommit height)
              (cs_set_roundState (commit_target blockID (roundState cs)) cs))
    as (-> & -> & ->).
  assert (Htarget : commit_target blockID (roundState cs)
          = if PartSet_HasHeader (ProposalBlockParts (roundState cs))
                 (BlockID.PartsHeader blockID)
            then roundState cs
            else set_ProposalBlockParts
                   (NewPartSetFromHeader (BlockID.PartsHeader blockID))
                   (set_ProposalBlock None (roundState cs))).
  { unfold commit_target. rewrite Hlock, Hprop. cbn [negb andb].
    by destruct (PartSet_HasHeader _ _). }
  assert (Hwait : tryFinalizeCommit height
            (committed commitRound
               (cs_set_roundState (commit_target blockID (roundState cs)) cs))
          = Ret tt (committed commitRound
               (cs_set_roundState (commit_target blockID (roundState cs)) cs)) []).
  { unfold tryFinalizeCommit. rewrite bind_gets.
    cbn [roundState committed cs_set_roundState cs_set_nSteps VoteSignAggr Height
         set_CommitTime set_CommitRound set_Step set_Round CommitRound ProposalBlock].
    rewrite commit_target_aggr, Hmaj. cbn [negb orb].
    rewrite Htarget.
    destruct (PartSet_HasHeader _ _); cbn [Height set_ProposalBlockParts
      set_ProposalBlock ProposalBlock];
      rewrite (bool_decide_eq_false_2 _ (fun H => H Hh));
      destruct (bool_decide (length _ = 0%nat)); cbn [orb]; try done;
      rewrite ?Hprop, ?Hnone; cbn [negb]; done. }
  rewrite Hwait. cbn [out_value out_state out_trace]. rewrite app_nil_r.
  rewrite Htarget.
  destruct (PartSet_HasHeader _ _); (split; [done|]); (split; [done|]);
    cbn; rewrite ?Hh; done.
Qed.

(** *** Announcing a +2/3 aggregate *)

(** X25: what [sendMaj23SignAggr] announces. An aggregate is queued only for
    the prevote or the precommit kind, after the same aggregate went to the
    event switch and as the only two effects. It carries the height, round
    and validator count of the round state and the kind asked for; its Maj23
    block id is not zero and is the +2/3 majority of the round's PREVOTES,
    for the precommit kind as well: the precommit branch reads
    [cs.Votes.Prevotes(cs.Round).TwoThirdsMajority()]. *)
Theorem sendMaj23SignAggr_maj23_from_prevotes voteType cs sa :
  SendInternal {| Msg := Maj23SignAggrMessage sa; PeerKey := "" |}
    ∈ out_trace (sendMaj23SignAggr voteType cs) ->
  let rs := roundState cs in
  (voteType = VoteTypePrevote \/ voteType = VoteTypePrecommit)
  /\ SignAggr.Maj23 sa
     = fst (VoteSet_TwoThirdsMajority (HVS_Prevotes (Votes rs) (Round rs)))
  /\ BlockID.IsZero (SignAggr.Maj23 sa) = false
  /\ SignAggr.Height sa = Height rs /\ SignAggr.Round sa = Round rs
  /\ SignAggr.Type_ sa = voteType
  /\ SignAggr.NumValidators sa = ValidatorSet.Size (Validators rs)
  /\ out_trace (sendMaj23SignAggr voteType cs)
     = [Fire (EventSignAggr sa);
        SendInternal {| Msg := Maj23SignAggrMessage sa; PeerKey := "" |}]
  /\ out_state (sendMaj23SignAggr voteType cs) = cs.
Proof.
  cbn zeta. set (rs := roundState cs).
  pose (K := fun (maj23 : BlockID.t) (votes : list (option Vote.t)) =>
    (let numValidators := ValidatorSet.Size (Validators rs) in
     let '(blockID, ss, signBitArray, sigs) :=
       collect_votes votes 0
         (BlockID.zero, [], BitArray.NewBitArray (Z.to_nat numValidators), []) in
     match BLSSignatureAggregate sigs with
     | None => logger_Fatal "Can not aggregate signature"
     | Some signature =>
         let signAggr :=
           SignAggr.MakeSignAggr (Height rs) (Round rs) voteType numValidators blockID
             (HVS_chainID (Votes rs)) signBitArray (Some signature) in
         let signAggr := SignAggr.set_SignBytes ss signAggr in
         if BlockID.IsZero maj23 then panic "Invalid maj23"
         else
           let signAggr := SignAggr.SetMaj23 maj23 signAggr in
           emit (Fire (EventSignAggr signAggr)) ;;;
           sendInternalMessage {| Msg := Maj23SignAggrMessage signAggr; PeerKey := "" |}
     end) : Eff unit).
  assert (Hsend : forall maj23 votes,
    SendInternal {| Msg := Maj23SignAggrMessage sa; PeerKey := "" |}
      ∈ out_trace (K maj23 votes cs) ->
    SignAggr.Maj23 sa = maj23
    /\ BlockID.IsZero (SignAggr.Maj23 sa) = false
    /\ SignAggr.Height sa = Height rs /\ SignAggr.Round sa = Round rs
    /\ SignAggr.Type_ sa = voteType
    /\ SignAggr.NumValidators sa = ValidatorSet.Size (Validators rs)
    /\ out_trace (K maj23 votes cs)
       = [Fire (EventSignAggr sa);
          SendInternal {| Msg := Maj23SignAggrMessage sa; PeerKey := "" |}]
    /\ out_state (K maj23 votes cs) = cs).
  { intros maj23 votes. unfold K. cbn zeta.
    destruct (collect_votes _ _ _) as [[[blockID ss] bits] sigs].
    destruct (BLSSignatureAggregate sigs) as [signature|].
    - destruct (BlockID.IsZero maj23) eqn:Hz;
        [intros Hin; by apply elem_of_nil in Hin|].
      unfold sendInternalMessage. rewrite bind_emit_trace, bind_emit_state.
      cbn [emit out_trace out_state].
      intros Hin. rewrite !elem_of_cons, elem_of_nil in Hin.
      destruct Hin as [Hin|[Hin|[]]]; [done|]. simplify_eq. cbn.
      by rewrite Hz.
    - unfold logger_Fatal.
      destruct logger_Fatal_exits; intros Hin; by apply elem_of_nil in Hin. }
  assert (Hrun :
    (exists msg, sendMaj23SignAggr voteType cs = Panic msg cs [])
    \/ (exists maj23 votes,
          (voteType = VoteTypePrevote \/ voteType = VoteTypePrecommit)
          /\ maj23 = fst (VoteSet_TwoThirdsMajority (HVS_Prevotes (Votes rs) (Round rs)))
          /\ sendMaj23SignAggr voteType cs = K maj23 votes cs)
    \/ (exists votes, sendMaj23SignAggr voteType cs = K BlockID.zero votes cs)).
  { remember (sendMaj23SignAggr voteType cs) as o eqn:Ho.
    unfold sendMaj23SignAggr in Ho. rewrite bind_gets in Ho. fold rs in Ho.
    destruct (bool_decide (voteType = VoteTypePrevote)) eqn:Hpv;
      [apply bool_decide_eq_true in Hpv
      |destruct (bool_decide (voteType = VoteTypePrecommit)) eqn:Hpc;
       [apply bool_decide_eq_true in Hpc|]].
    - destruct (VoteSet_TwoThirdsMajority (HVS_Prevotes (Votes rs) (Round rs)))
        as [maj23 ok].
      destruct ok; cbn [negb when] in Ho;
        [|unfold logger_Fatal at 1 in Ho; destruct logger_Fatal_exits];
        rewrite ?bind_ret, ?bind_panic in Ho; [|by eauto|].
      all: right; left; eexists maj23, _; split; [by left|]; split; [done|exact Ho].
    - destruct (VoteSet_TwoThirdsMajority (HVS_Prevotes (Votes rs) (Round rs)))
        as [maj23 ok].
      destruct ok; cbn [negb when] in Ho;
        [|unfold logger_Fatal at 1 in Ho; destruct logger_Fatal_exits];
        rewrite ?bind_ret, ?bind_panic in Ho; [|by eauto|].
      all: right; left; eexists maj23, _; split; [by right|]; split; [done|exact Ho].
    - cbn [negb when] in Ho. unfold logger_Fatal at 1 in Ho.
      destruct logger_Fatal_exits.
      + rewrite bind_panic in Ho. by eauto.
      + rewrite bind_ret in Ho. right; right. eexists []. exact Ho. }
  destruct Hrun as [[msg ->]|[(maj23 & votes & Hkind & Hmaj & ->)|[votes ->]]].
  - intros Hin. by apply elem_of_nil in Hin.
  - intros Hin. destruct (Hsend _ _ Hin) as (Hm & Hrest).
    split; [done|]. split; [by rewrite Hm|done].
  - intros Hin. destruct (Hsend _ _ Hin) as (Hm & Hz & _).
    rewrite Hm in Hz. done.
Qed.

(** *** Timeouts *)

Lemma round_timeout_value base delta round :
  timeout_fits base delta round ->
  GoInt.mul (GoInt.add base (GoInt.mul delta round)) Millisecond
  = (base + delta * round) * Millisecond.
Proof.
  intros (Hb & Hd & Hr & Hfit). unfold GoInt.mul, GoInt.add, Millisecond in *.
  assert (0 <= delta * round) by nia.
  rewrite (wrap_small (delta * round)) by nia.
  rewrite (wrap_small (base + delta * round)) by nia.
  apply wrap_small. nia.
Qed.

Lemma timeout_fits_earlier base delta r1 r2 :
  timeout_fits base delta r2 -> 0 <= r1 <= r2 -> timeout_fits base delta r1.
Proof. unfold timeout_fits, Millisecond. intros (? & ? & ? & ?) ?. repeat split; nia. Qed.

(** X26: the three round timeouts grow with the round. As long as
    [base + delta * round] milliseconds fits a Go [int] of nanoseconds (base
    and delta not negative), [Propose], [Prevote] and [Precommit] return
    exactly that many nanoseconds, so a later round never waits less than an
    earlier one and each round adds [delta] milliseconds. *)
Theorem round_timeouts_grow tp r1 r2 :
  0 <= r1 <= r2 ->
  (timeout_fits (Propose0 tp) (ProposeDelta tp) r2 ->
   tp_Propose tp r2 = (Propose0 tp + ProposeDelta tp * r2) * Millisecond
   /\ 0 <= tp_Propose tp r1 <= tp_Propose tp r2)
  /\ (timeout_fits (Prevote0 tp) (PrevoteDelta tp) r2 ->
      tp_Prevote tp r2 = (Prevote0 tp + PrevoteDelta tp * r2) * Millisecond
      /\ 0 <= tp_Prevote tp r1 <= tp_Prevote tp r2)
  /\ (timeout_fits (Precommit0 tp) (PrecommitDelta tp) r2 ->
      tp_Precommit tp r2 = (Precommit0 tp + PrecommitDelta tp * r2) * Millisecond
      /\ 0 <= tp_Precommit tp r1 <= tp_Precommit tp r2).
Proof.
  intros Hr. unfold tp_Propose, tp_Prevote, tp_Precommit.
  split; [|split]; intros Hfit;
    pose proof (timeout_fits_earlier _ _ _ _ Hfit Hr) as Hfit1;
    rewrite (round_timeout_value _ _ _ Hfit), (round_timeout_value _ _ _ Hfit1);
    (split; [done|]);
    destruct Hfit as (? & ? & ? & _); unfold Millisecond; nia.
Qed.

(** *** Installing a +2/3 aggregate *)

(** X27: [setMaj23SignAggr] acts only on a verified aggregate. If a call
    changes the state or emits anything, the aggregate is for the current
    height and round, [verifyMaj23SignAggr] accepted it with +2/3 and no
    error, it is a prevote or a precommit aggregate, and no aggregate of that
    kind was stored for the round. *)
Theorem setMaj23SignAggr_acts_only_on_verified cs sa :
  let rs := roundState cs in
  let o := setMaj23SignAggr sa cs in
  out_state o <> cs \/ out_trace o <> [] ->
  aggr_applies cs sa
  /\ verifyMaj23SignAggr rs sa = (true, None)
  /\ (SignAggr.Type_ sa = VoteTypePrevote /\ PrevoteMaj23SignAggr rs = None
      \/ SignAggr.Type_ sa = VoteTypePrecommit /\ PrecommitMaj23SignAggr rs = None).
Proof.
  cbn zeta.
  assert (Hno : forall v : option error * bool,
            ~ (out_state (Ret (E := Effect) v cs []) <> cs
               \/ out_trace (Ret (E := Effect) v cs []) <> []))
    by (intros v [H|H]; by apply H).
  unfold setMaj23SignAggr. rewrite bind_gets.
  destruct (bool_decide (SignAggr.Height sa ≠ Height (roundState cs))) eqn:Hh;
    [intros H; by apply Hno in H|].
  destruct (bool_decide (SignAggr.Round sa ≠ Round (roundState cs))) eqn:Hr;
    [intros H; by apply Hno in H|].
  apply bool_decide_eq_false in Hh, Hr. apply dec_stable in Hh, Hr.
  cbn [orb].
  destruct (verifyMaj23SignAggr (roundState cs) sa) as [maj23 err] eqn:Hv.
  destruct err as [e|].
  { rewrite bool_decide_eq_true_2 by done. intros H; by apply Hno in H. }
  rewrite bool_decide_eq_false_2 by (intros Hne; by apply Hne). cbn [orb].
  destruct maj23; cbn [negb]; [|intros H; by apply Hno in H].
  destruct (bool_decide (SignAggr.Type_ sa = VoteTypePrevote)) eqn:Hpv;
    [apply bool_decide_eq_true in Hpv
    |destruct (bool_decide (SignAggr.Type_ sa = VoteTypePrecommit)) eqn:Hpc;
     [apply bool_decide_eq_true in Hpc|intros H; by apply Hno in H]].
  - destruct (PrevoteMaj23SignAggr (roundState cs)) eqn:Hslot;
      [intros H; by apply Hno in H|].
    intros _. split; [done|]. split; [done|]. by left.
  - destruct (PrecommitMaj23SignAggr (roundState cs)) eqn:Hslot;
      [intros H; by apply Hno in H|].
    intros _. split; [done|]. split; [done|]. by right.
Qed.

(** *** The receive routine as a loop *)

Lemma bind_ext {A B} (m : Eff A) (k k' : A -> Eff B) cs :
  (forall a s, k a s = k' a s) -> bind m k cs = bind m k' cs.
Proof. intros H. unfold bind. destruct (m cs); [|done]. by rewrite H. Qed.

(** X28: nothing is served after Quit. What the selects would deliver
    after the quit signal does not matter: the routine closes the WAL,
    signals done and returns. *)
Theorem receiveRoutine_stops_at_quit maxSteps before after cs :
  receiveRoutine maxSteps (before ++ FromQuit :: after) cs
  = receiveRoutine maxSteps (before ++ [FromQuit]) cs.
Proof.
  revert cs. induction before as [|sel rest IH]; intros cs; [done|].
  cbn [app receiveRoutine]. apply bind_ext. intros n s.
  destruct ((0 <? maxSteps) && (maxSteps <=? n)); [done|].
  apply bind_ext. intros rs s'.
  destruct sel; [| | |done];
    (apply bind_ext; intros ? ?; apply bind_ext; intros ? ?; apply IH).
Qed.

(** X29: the receive routine handles its input one event after the other.
    Without a step limit (maxSteps <= 0, as in normal operation) and with no
    quit signal among the first events, serving [first ++ next] is serving
    [first] and then, from the state reached, serving [next]; a panic while
    serving [first] ends the run there. *)
Theorem receiveRoutine_app maxSteps first next cs :
  maxSteps <= 0 -> FromQuit ∉ first ->
  receiveRoutine maxSteps (first ++ next) cs
  = (receiveRoutine maxSteps first ;;; receiveRoutine maxSteps next) cs.
Proof.
  intros Hmax. assert (Hg : (0 <? maxSteps) = false) by (apply Z.ltb_ge; lia).
  revert cs. induction first as [|sel rest IH]; intros cs Hq.
  - cbn [app]. change (receiveRoutine maxSteps []) with
      (let* n := gets nSteps in
       if (0 <? maxSteps) && (maxSteps <=? n) then modify (cs_set_nSteps 0)
       else @ret _ Effect _ tt).
    rewrite bind_assoc, bind_gets, Hg. cbn [andb]. by rewrite bind_ret.
  - apply not_elem_of_cons in Hq as [Hsel Hq].
    cbn [app receiveRoutine]. rewrite bind_assoc. apply bind_ext. intros n s.
    rewrite Hg. cbn [andb]. rewrite bind_assoc. apply bind_ext. intros rs s'.
    destruct sel; [| | |done];
      rewrite !bind_assoc; apply bind_ext; intros ? ?;
      rewrite !bind_assoc; apply bind_ext; intros ? ?; by apply IH.
Qed.

End MoreProperties.

(** * The properties at work on the small instance *)

Import Toy.



Lemma finalizeCommit_order_witness :
  finalizes (cs_of rs_commit) 1
  /\ blockStoreHeight (cs_of rs_commit) < Block_Height (ProposalBlock rs_commit)
  /\ wal (cs_of rs_commit) <> None
  /\ exists rest,
       out_trace (finalizeCommit 1 (cs_of rs_commit))
       = [Sleep newHeightChangeSleepDuration;
          MakeSeenCommit (HVSA_Precommits (VoteSignAggr rs_commit) 0)
            (SignAggr_MakeCommit (HVSA_Precommits (VoteSignAggr rs_commit) 0));
          SaveBlock (Some blockB) (Some headerB)
            (SignAggr_MakeCommit (HVSA_Precommits (VoteSignAggr rs_commit) 0));
          WalEndHeight 1;
          ApplyBlock (Some blockB) headerB] ++ rest.
Proof.
  assert (H1 : finalizes (cs_of rs_commit) 1).
  { split; [reflexivity|]. split; [reflexivity|].
    exists idB, (0, vals4). repeat split; reflexivity. }
  assert (H2 : blockStoreHeight (cs_of rs_commit) < Block_Height (ProposalBlock rs_commit)).
  { simpl. lia. }
  assert (H3 : wal (cs_of rs_commit) <> None).
  { simpl. discriminate. }
  split; [exact H1|]. split; [exact H2|]. split; [exact H3|].
  destruct (finalizeCommit_order 1 (cs_of rs_commit)) as (_ & _ & _ & _ & _ & H).
  exact (H H1 H2 H3).
Defined.

(** C3 at work: A, B and C prevote block B, D prevotes nil, and the tally
    has +2/3 for B. The aggregate built has the bit of D set as well, and
    carries the BlockID of the last vote in the list (nil), not B. *)
Lemma sendMaj23SignAggr_mixed_votes :
  VoteSet_TwoThirdsMajority (HVS_Prevotes (Votes rs_mixed) 0) = (idB, true)
  /\ exists sa,
       out_trace (sendMaj23SignAggr VoteTypePrevote (cs_of rs_mixed))
       = [Fire (EventSignAggr sa);
          SendInternal {| Msg := Maj23SignAggrMessage sa; PeerKey := "" |}]
       /\ SignAggr.BitArray sa = [true; true; true; true]
       /\ SignAggr.BitArray sa <> [true; true; true; false]
       /\ SignAggr.BlockID sa = BlockID.zero
       /\ SignAggr.Maj23 sa = idB.
Proof.
  split; [reflexivity|].
  eexists. split; [vm_compute; reflexivity|].
  repeat split; try reflexivity. simpl. discriminate.
Qed.

Lemma BLSVerifySignAggr_quorum_witness :
  powers_fit (Validators rs0)
  /\ sizes_match rs0 aggr_1110
  /\ signature_ok rs0 aggr_1110
  /\ fst (BLSVerifySignAggr rs0 (Some aggr_1110)) = true
  /\ fst (BLSVerifySignAggr rs0 (Some aggr_1100)) <> true.
Proof.
  assert (H1 : powers_fit (Validators rs0)).
  { split; [|by vm_compute]. apply (bool_decide_unpack _). by vm_compute. }
  assert (H2 : sizes_match rs0 aggr_1110) by reflexivity.
  assert (H3 : signature_ok rs0 aggr_1110).
  { exists [], []. repeat split; reflexivity. }
  assert (H2' : sizes_match rs0 aggr_1100) by reflexivity.
  assert (H3' : signature_ok rs0 aggr_1100).
  { exists [], []. repeat split; reflexivity. }
  split; [exact H1|]. split; [exact H2|]. split; [exact H3|]. split.
  - destruct (BLSVerifySignAggr_quorum rs0 aggr_1110) as [H _].
    destruct (H H1 H2 H3) as [_ Hiff]. apply Hiff. by vm_compute.
  - destruct (BLSVerifySignAggr_quorum rs0 aggr_1100) as [H _].
    destruct (H H1 H2' H3') as [_ Hiff]. intros Ht. apply Hiff in Ht.
    by vm_compute in Ht.
Defined.

Lemma setProposal_installs_only_accepted_witness :
  accepts (cs_of rs0) proposalB
  /\ setProposal_variant true proposalB (cs_of rs0)
     = Ret None (installed true proposalB (cs_of rs0)) []
  /\ applies (cs_of rs0) proposalB_badpol
  /\ ~ polround_ok proposalB_badpol
  /\ setProposal_variant true proposalB_badpol (cs_of rs0)
     = Ret (Some ErrInvalidProposalPOLRound) (cs_of rs0) [].
Proof.
  assert (Happ : forall p, Proposal.Height p = 1 -> Proposal.Round p = 0 ->
                           applies (cs_of rs0) p).
  { intros p Hh Hr. split; [reflexivity|]. split; [exact Hh|].
    split; [exact Hr|]. simpl. lia. }
  assert (H1 : accepts (cs_of rs0) proposalB).
  { split; [by apply Happ|]. split; [left; reflexivity|].
    exists (val addrA), (0, vals4). repeat split; reflexivity. }
  assert (H2 : applies (cs_of rs0) proposalB_badpol) by (by apply Happ).
  assert (H3 : ~ polround_ok proposalB_badpol).
  { unfold polround_ok. simpl. lia. }
  destruct (setProposal_installs_only_accepted true (cs_of rs0) proposalB)
    as (Ha & _).
  destruct (setProposal_installs_only_accepted true (cs_of rs0) proposalB_badpol)
    as (_ & _ & _ & Hb & _).
  split; [exact H1|]. split; [exact (proj1 (Ha H1))|].
  split; [exact H2|]. split; [exact H3|]. exact (Hb H2 H3).
Defined.

Lemma setMaj23SignAggr_rejections_witness :
  aggr_applies (cs_of rs0) aggr_1100
  /\ signed_power (Validators rs0) (SignAggr.BitArray aggr_1100)
     < spec_quorum (Validators rs0)
  /\ setMaj23SignAggr aggr_1100 (cs_of rs0)
     = Ret (Some ErrInvalidSignatureAggr, false) (cs_of rs0) []
  /\ aggr_duplicate (cs_of rs_has_prevote_aggr) aggr_1110
  /\ setMaj23SignAggr aggr_1110 (cs_of rs_has_prevote_aggr)
     = Ret (Some ErrDuplicateSignatureAggr, false) (cs_of rs_has_prevote_aggr) [].
Proof.
  assert (Hfit : powers_fit vals4).
  { split; [|by vm_compute]. apply (bool_decide_unpack _). by vm_compute. }
  assert (Hsig : forall rs sa, SignAggr.SignatureAggr sa = Some [] -> signature_ok rs sa).
  { intros rs sa Hs. exists [], []. split; [exact Hs|]. split; reflexivity. }
  assert (H1 : aggr_applies (cs_of rs0) aggr_1100) by (split; reflexivity).
  assert (H2 : signed_power (Validators rs0) (SignAggr.BitArray aggr_1100)
               < spec_quorum (Validators rs0)) by (by vm_compute).
  assert (H3 : aggr_applies (cs_of rs_has_prevote_aggr) aggr_1110) by (split; reflexivity).
  assert (H4 : spec_quorum vals4 <= signed_power vals4 (SignAggr.BitArray aggr_1110))
    by (by vm_compute).
  assert (H5 : aggr_duplicate (cs_of rs_has_prevote_aggr) aggr_1110).
  { left. split; [reflexivity | simpl; discriminate]. }
  destruct (setMaj23SignAggr_rejections (cs_of rs0) aggr_1100) as (Ha & _).
  destruct (setMaj23SignAggr_rejections (cs_of rs_has_prevote_aggr) aggr_1110)
    as (_ & Hb & _).
  split; [exact H1|]. split; [exact H2|].
  split; [exact (Ha H1 Hfit eq_refl (Hsig _ aggr_1100 eq_refl) H2)|].
  split; [exact H5|].
  exact (Hb H3 Hfit eq_refl (Hsig _ aggr_1110 eq_refl) H4 H5).
Defined.

(** C6 as stated fails: four validators of power 1, an aggregate with
    bitmap 1100 and a good signature (power 2, quorum 3) is rejected with
    ErrInvalidSignatureAggr, not ErrNotMaj23SignatureAggr. *)
Lemma setMaj23SignAggr_short_is_invalid :
  aggr_applies (cs_of rs0) aggr_1100
  /\ signed_power (Validators rs0) (SignAggr.BitArray aggr_1100) = 2
  /\ spec_quorum (Validators rs0) = 3
  /\ BLSVerifySignAggr rs0 (Some aggr_1100) = (false, None)
  /\ out_value (setMaj23SignAggr aggr_1100 (cs_of rs0))
     = Some (Some ErrInvalidSignatureAggr, false)
  /\ out_value (setMaj23SignAggr aggr_1100 (cs_of rs0))
     <> Some (Some ErrNotMaj23SignatureAggr, false).
Proof.
  split; [split; reflexivity|]. split; [reflexivity|]. split; [reflexivity|].
  split; [vm_compute; reflexivity|]. split; [vm_compute; reflexivity|].
  vm_compute. discriminate.
Qed.

Lemma doPrevote_decision_witness :
  LockedBlock (roundState (cs_of rs_nil_polka)) <> None
  /\ sent_votes (out_trace (doPrevote 1 2 (cs_of rs_nil_polka)))
     = option_list (our_vote (cs_of rs_nil_polka) VoteTypePrevote hashB headerB)
  /\ LockedBlock (roundState (cs_of rs0)) = None
  /\ Proposal (roundState (cs_of rs0)) = None
  /\ sent_votes (out_trace (doPrevote 1 0 (cs_of rs0)))
     = option_list (our_vote (cs_of rs0) VoteTypePrevote [] PartSetHeader.zero).
Proof.
  assert (H1 : LockedBlock (roundState (cs_of rs_nil_polka)) <> None).
  { simpl. discriminate. }
  destruct (doPrevote_decision 1 2 (cs_of rs_nil_polka)) as (_ & Ha & _).
  destruct (doPrevote_decision 1 0 (cs_of rs0)) as (_ & _ & Hb & _).
  split; [exact H1|]. split; [exact (Ha H1)|].
  split; [reflexivity|]. split; [reflexivity|]. exact (Hb eq_refl eq_refl).
Defined.

Lemma receiveRoutine_wal_first_witness :
  wal (cs_of rs0) <> None
  /\ served 0 [FromTimeoutTicker tick_propose; FromQuit] (cs_of rs0)
       (out_trace (receiveRoutine 0 [FromTimeoutTicker tick_propose; FromQuit]
                     (cs_of rs0))).
Proof.
  assert (H1 : wal (cs_of rs0) <> None) by (simpl; discriminate).
  split; [exact H1|].
  exact (receiveRoutine_wal_first 0 [FromTimeoutTicker tick_propose; FromQuit]
           (cs_of rs0) H1).
Defined.

Lemma enterNewRound_clears_proposal_keeps_lock_witness :
  may_enter_new_round (cs_of rs_locked_r0) 1 1
  /\ Proposal (roundState (out_state (enterNewRound 1 1 (cs_of rs_locked_r0)))) = None
  /\ LockedBlock (roundState (out_state (enterNewRound 1 1 (cs_of rs_locked_r0))))
     = Some blockB
  /\ may_enter_new_round (cs_of rs_has_prevote_aggr) 1 0
  /\ PrevoteMaj23SignAggr
       (roundState (out_state (enterNewRound 1 0 (cs_of rs_has_prevote_aggr))))
     = PrevoteMaj23SignAggr (roundState (cs_of rs_has_prevote_aggr))
  /\ PrecommitMaj23SignAggr
       (roundState (out_state (enterNewRound 1 0 (cs_of rs_has_prevote_aggr))))
     = PrecommitMaj23SignAggr (roundState (cs_of rs_has_prevote_aggr)).
Proof.
  assert (H1 : may_enter_new_round (cs_of rs_locked_r0) 1 1).
  { split; [reflexivity|]. split; [simpl; lia|]. simpl. intros H. lia. }
  assert (H2 : may_enter_new_round (cs_of rs_has_prevote_aggr) 1 0).
  { split; [reflexivity|]. split; [simpl; lia|]. intros _. reflexivity. }
  destruct (enterNewRound_clears_proposal_keeps_lock 1 1 (cs_of rs_locked_r0) H1)
    as (Ha & _ & Hb & _).
  destruct (enterNewRound_clears_proposal_keeps_lock 1 0 (cs_of rs_has_prevote_aggr) H2)
    as (_ & Hc & _).
  destruct (Hc eq_refl) as (_ & _ & _ & Hd & He).
  split; [exact H1|]. split; [apply Ha; lia|]. split; [exact Hb|].
  split; [exact H2|]. split; [exact Hd|exact He].
Defined.

(** C9 as stated fails: locked on B in round 0, entering round 1 clears the
    proposal and the proposal block but keeps LockedBlock. *)
Lemma enterNewRound_keeps_locked_block :
  may_enter_new_round (cs_of rs_locked_r0) 1 1
  /\ LockedBlock (roundState (cs_of rs_locked_r0)) = Some blockB
  /\ Proposal (roundState (out_state (enterNewRound 1 1 (cs_of rs_locked_r0)))) = None
  /\ ProposalBlock (roundState (out_state (enterNewRound 1 1 (cs_of rs_locked_r0)))) = None
  /\ LockedBlock (roundState (out_state (enterNewRound 1 1 (cs_of rs_locked_r0))))
     = Some blockB
  /\ LockedBlock (roundState (out_state (enterNewRound 1 1 (cs_of rs_locked_r0))))
     <> None.
Proof.
  split; [split; [reflexivity|]; split; [simpl; lia|]; simpl; intros H; lia|].
  split; [reflexivity|].
  split; [vm_compute; reflexivity|]. split; [vm_compute; reflexivity|].
  split; [vm_compute; reflexivity|]. vm_compute. discriminate.
Qed.

Lemma setProposal_silently_ignores_witness :
  ignored (cs_of rs0) proposalB_h2
  /\ setProposal_variant true proposalB_h2 (cs_of rs0) = Ret None (cs_of rs0) []
  /\ accepts (cs_of rs0) proposalB
  /\ out_value (setProposal_variant true proposalB (cs_of rs0)) = Some None.
Proof.
  assert (H1 : ignored (cs_of rs0) proposalB_h2).
  { right. left. simpl. lia. }
  assert (H2 : accepts (cs_of rs0) proposalB).
  { split; [split; [reflexivity|]; split; [reflexivity|]; split; [reflexivity|];
            simpl; lia|].
    split; [left; reflexivity|].
    exists (val addrA), (0, vals4). repeat split; reflexivity. }
  destruct (setProposal_silently_ignores true (cs_of rs0) proposalB_h2) as (Ha & _).
  destruct (setProposal_silently_ignores true (cs_of rs0) proposalB) as (_ & Hb).
  split; [exact H1|]. split; [exact (Ha H1)|]. split; [exact H2|].
  destruct (Hb H2) as (cs' & Heq & _). rewrite Heq. reflexivity.
Defined.

(** ** The further properties at work on the small instances *)

Import ToyRuns.

Lemma CompareHRS_lexicographic_witness :
  hrs_lt 1 0 RoundStepPropose 1 1 RoundStepNewRound
  /\ CompareHRS 1 0 RoundStepPropose 1 1 RoundStepNewRound = -1.
Proof.
  assert (H : hrs_lt 1 0 RoundStepPropose 1 1 RoundStepNewRound).
  { right. split; [reflexivity|]. left. reflexivity. }
  destruct (CompareHRS_lexicographic 1 0 RoundStepPropose 1 1 RoundStepNewRound)
    as ((_ & Hlt) & _).
  exact (conj H (Hlt H)).
Defined.

Lemma RoundStepType_String_names_witness :
  (10 < 1 \/ 9 < 10)
  /\ RoundStepType_String 10 = "RoundStepUnknown"
  /\ RoundStepType_String (step_code RoundStepCommit)
     = RoundStepType_String (step_code RoundStepCommit).
Proof.
  assert (H : 10 < 1 \/ 9 < 10) by (right; reflexivity).
  destruct RoundStepType_String_names as (_ & _ & Hunknown).
  split; [exact H|]. split; [exact (Hunknown 10 H)|reflexivity].
Defined.


Lemma enterNewRound_lands_in_propose_witness :
  may_enter_new_round (cs_of rs_locked_r0) 1 1
  /\ Round (roundState (out_state (enterNewRound 1 1 (cs_of rs_locked_r0)))) = 1
  /\ Proposal (roundState (out_state (enterNewRound 1 1 (cs_of rs_locked_r0)))) = None
  /\ Step (roundState (out_state (enterNewRound 1 1 (cs_of rs_locked_r0))))
     = RoundStepPropose.
Proof.
  assert (H : may_enter_new_round (cs_of rs_locked_r0) 1 1).
  { split; [reflexivity|]. split; [simpl; lia|]. simpl. intros H. lia. }
  destruct (enterNewRound_lands_in_propose 1 1 (cs_of rs_locked_r0) H)
    as (_ & Hr & Hp & Hs & _).
  split; [exact H|]. split; [exact Hr|]. split; [exact Hp|exact Hs].
Defined.

Lemma wait_steps_need_two_thirds_any_witness :
  may_enter (cs_of rs_mixed) 1 0 RoundStepPrevoteWait
  /\ out_state (enterPrevoteWait 1 0 (cs_of rs_mixed))
     = stepped 0 RoundStepPrevoteWait (cs_of rs_mixed)
  /\ may_enter (cs_of rs0) 1 0 RoundStepPrecommitWait
  /\ out_value (enterPrecommitWait 1 0 (cs_of rs0)) = None
  /\ out_state (enterPrecommitWait 1 0 (cs_of rs0)) = cs_of rs0.
Proof.
  assert (H1 : may_enter (cs_of rs_mixed) 1 0 RoundStepPrevoteWait).
  { split; [reflexivity|]. split; [simpl; lia|]. intros _. simpl. lia. }
  assert (H2 : may_enter (cs_of rs0) 1 0 RoundStepPrecommitWait).
  { split; [reflexivity|]. split; [simpl; lia|]. intros _. simpl. lia. }
  destruct (wait_steps_need_two_thirds_any 1 0 (cs_of rs_mixed)) as (Ha & _).
  destruct (wait_steps_need_two_thirds_any 1 0 (cs_of rs0)) as (_ & Hb).
  split; [exact H1|]. split; [rewrite (Ha H1); reflexivity|].
  split; [exact H2|]. rewrite (Hb H2). split; reflexivity.
Defined.

Lemma observer_never_signs_witness :
  privValidator (observer_of rs0) = None
  /\ Step (roundState (out_state
             (receiveRoutine 0 [FromTimeoutTicker tick_propose; FromQuit]
                (observer_of rs0)))) = RoundStepPrevote
  /\ sent_votes (out_trace
                   (receiveRoutine 0 [FromTimeoutTicker tick_propose; FromQuit]
                      (observer_of rs0))) = [].
Proof.
  assert (H : privValidator (observer_of rs0) = None) by reflexivity.
  destruct (observer_never_signs 0 [FromTimeoutTicker tick_propose; FromQuit]
              (observer_of rs0) H) as (_ & Hv & _).
  split; [exact H|]. split; [vm_compute; reflexivity|exact Hv].
Defined.

Lemma enterPrecommit_precommits_only_locked_witness :
  precommitB ∈ sent_votes (out_trace (enterPrecommit 1 0 (cs_of rs_polka_B)))
  /\ length (BlockID.Hash (Vote.BlockID precommitB)) <> 0%nat
  /\ sent_votes (out_trace (enterPrecommit 1 0 (cs_of rs_polka_B))) = [precommitB]
  /\ LockedRound (roundState (out_state (enterPrecommit 1 0 (cs_of rs_polka_B)))) = 0
  /\ Block_HashesTo
       (LockedBlock (roundState (out_state (enterPrecommit 1 0 (cs_of rs_polka_B)))))
       (BlockID.Hash (Vote.BlockID precommitB)) = true.
Proof.
  assert (Hs : sent_votes (out_trace (enterPrecommit 1 0 (cs_of rs_polka_B)))
               = [precommitB]) by (vm_compute; reflexivity).
  assert (H1 : precommitB ∈ sent_votes (out_trace (enterPrecommit 1 0 (cs_of rs_polka_B)))).
  { rewrite Hs. apply list_elem_of_here. }
  assert (H2 : length (BlockID.Hash (Vote.BlockID precommitB)) <> 0%nat).
  { simpl. discriminate. }
  destruct (enterPrecommit_precommits_only_locked 1 0 (cs_of rs_polka_B) precommitB H1)
    as (Hone & _ & _ & _ & Hlock).
  split; [exact H1|]. split; [exact H2|]. split; [exact Hone|]. exact (Hlock H2).
Defined.

Lemma enterPrecommit_without_polka_witness :
  may_enter (cs_of rs0) 1 0 RoundStepPrecommit
  /\ HVSA_Prevotes (VoteSignAggr (roundState (cs_of rs0))) 0 = None
  /\ out_value (enterPrecommit 1 0 (cs_of rs0)) = None
  /\ Step (roundState (out_state (enterPrecommit 1 0 (cs_of rs0)))) = RoundStepPrecommit
  /\ may_enter (ToyFaulty.cs_of ToyFaulty.rs_weak_polka) 1 0 RoundStepPrecommit
  /\ HVSA_Prevotes (VoteSignAggr (roundState (ToyFaulty.cs_of ToyFaulty.rs_weak_polka))) 0
     <> None
  /\ sent_votes (out_trace (enterPrecommit 1 0 (ToyFaulty.cs_of ToyFaulty.rs_weak_polka)))
     = option_list (our_vote (ToyFaulty.cs_of ToyFaulty.rs_weak_polka)
                      VoteTypePrecommit [] PartSetHeader.zero).
Proof.
  assert (H1 : may_enter (cs_of rs0) 1 0 RoundStepPrecommit).
  { split; [reflexivity|]. split; [simpl; lia|]. intros _. simpl. lia. }
  assert (H2 : HVSA_Prevotes (VoteSignAggr (roundState (cs_of rs0))) 0 = None)
    by reflexivity.
  assert (H3 : may_enter (ToyFaulty.cs_of ToyFaulty.rs_weak_polka) 1 0 RoundStepPrecommit).
  { split; [reflexivity|]. split; [simpl; lia|]. intros _. simpl. lia. }
  assert (H4 : HVSA_Prevotes
                 (VoteSignAggr (roundState (ToyFaulty.cs_of ToyFaulty.rs_weak_polka))) 0
               <> None).
  { vm_compute. discriminate. }
  destruct (enterPrecommit_without_polka 1 0 (cs_of rs0) H1) as (Ha & _).
  destruct (enterPrecommit_without_polka 1 0 (ToyFaulty.cs_of ToyFaulty.rs_weak_polka) H3)
    as (_ & Hb).
  split; [exact H1|]. split; [exact H2|].
  split; [rewrite (Ha H2); reflexivity|]. split; [rewrite (Ha H2); reflexivity|].
  split; [exact H3|]. split; [exact H4|].
  destruct (Hb H4 eq_refl) as (_ & Hv). exact Hv.
Defined.

Lemma signAddVote_forwards_to_proposer_witness :
  privValidator (cs_of rs0) = Some signerA
  /\ GetProposer (Validators (roundState (cs_of rs0))) = Some (val addrA)
  /\ our_vote (cs_of rs0) VoteTypePrecommit [] PartSetHeader.zero = Some precommit_nil
  /\ out_trace (signAddVote VoteTypePrecommit [] PartSetHeader.zero (cs_of rs0))
     = [SendInternal {| Msg := VoteMessage precommit_nil; PeerKey := "" |}].
Proof.
  assert (H1 : privValidator (cs_of rs0) = Some signerA) by reflexivity.
  assert (H2 : GetProposer (Validators (roundState (cs_of rs0))) = Some (val addrA))
    by reflexivity.
  assert (H3 : our_vote (cs_of rs0) VoteTypePrecommit [] PartSetHeader.zero
               = Some precommit_nil) by (vm_compute; reflexivity).
  split; [exact H1|]. split; [exact H2|]. split; [exact H3|].
  rewrite (signAddVote_forwards_to_proposer VoteTypePrecommit [] PartSetHeader.zero
             (cs_of rs0) signerA (val addrA) precommit_nil H1 H2 H3).
  reflexivity.
Defined.

Lemma tryAddVote_error_kinds_witness :
  Vote.Height prevote_h2 <> Height (roundState (cs_of rs0))
  /\ tryAddVote prevote_h2 "p" (cs_of rs0)
     = Ret (Some ErrVoteHeightMismatch) (cs_of rs0) []
  /\ out_value (tryAddVote prevote_h2 "p" (cs_of rs0)) = Some (Some ErrVoteHeightMismatch)
  /\ (ErrVoteHeightMismatch = ErrVoteHeightMismatch
      \/ ErrVoteHeightMismatch = ErrVoteConflictingVotes
      \/ ErrVoteHeightMismatch = ErrAddingVote).
Proof.
  assert (H1 : Vote.Height prevote_h2 <> Height (roundState (cs_of rs0))).
  { simpl. lia. }
  assert (H2 : out_value (tryAddVote prevote_h2 "p" (cs_of rs0))
               = Some (Some ErrVoteHeightMismatch)) by (vm_compute; reflexivity).
  destruct (tryAddVote_error_kinds prevote_h2 "p" (cs_of rs0)) as (Ha & Hb).
  split; [exact H1|]. split; [exact (Ha H1)|]. split; [exact H2|].
  exact (Hb ErrVoteHeightMismatch H2).
Defined.

Lemma defaultDecideProposal_reproposes_locked_block_witness :
  LockedBlock (roundState (cs_of rs_locked_r0)) = Some blockB
  /\ privValidator (cs_of rs_locked_r0) = Some signerA
  /\ out_state (defaultDecideProposal 1 0 (cs_of rs_locked_r0)) = cs_of rs_locked_r0
  /\ head (out_trace (defaultDecideProposal 1 0 (cs_of rs_locked_r0)))
     = Some (Fire (EventProposalBlockParts proposalB (Some headerB))).
Proof.
  assert (H1 : LockedBlock (roundState (cs_of rs_locked_r0)) = Some blockB) by reflexivity.
  assert (H2 : privValidator (cs_of rs_locked_r0) = Some signerA) by reflexivity.
  split; [exact H1|]. split; [exact H2|].
  rewrite (defaultDecideProposal_reproposes_locked_block 1 0 (cs_of rs_locked_r0) blockB
             signerA {| ListenAddres := "a:1"; KeyString := "ka" |} (0, vals4) addrA
             H1 eq_refl H2 eq_refl eq_refl).
  split; [reflexivity|]. vm_compute. reflexivity.
Defined.

Lemma defaultDecideProposal_needs_last_commit_witness :
  LockedBlock (roundState (cs_of rs_height2)) = None
  /\ Height (roundState (cs_of rs_height2)) <> 1
  /\ SignAggr_HasTwoThirdsMajority (LastCommit (roundState (cs_of rs_height2)))
       (Validators (roundState (cs_of rs_height2))) = false
  /\ defaultDecideProposal 2 0 (cs_of rs_height2) = Ret tt (cs_of rs_height2) [].
Proof.
  assert (H1 : LockedBlock (roundState (cs_of rs_height2)) = None) by reflexivity.
  assert (H2 : Height (roundState (cs_of rs_height2)) <> 1) by (simpl; lia).
  assert (H3 : SignAggr_HasTwoThirdsMajority (LastCommit (roundState (cs_of rs_height2)))
                 (Validators (roundState (cs_of rs_height2))) = false) by reflexivity.
  split; [exact H1|]. split; [exact H2|]. split; [exact H3|].
  exact (defaultDecideProposal_needs_last_commit 2 0 (cs_of rs_height2) H1 H2 H3).
Defined.

Lemma enterPropose_when_not_proposer_witness :
  may_enter (observer_of rs0) 1 0 RoundStepPropose
  /\ Proposal (roundState (observer_of rs0)) = None
  /\ privValidator (observer_of rs0) = None
  /\ out_state (enterPropose 1 0 (observer_of rs0))
     = stepped 0 RoundStepPropose (observer_of rs0).
Proof.
  assert (H1 : may_enter (observer_of rs0) 1 0 RoundStepPropose).
  { split; [reflexivity|]. split; [simpl; lia|]. intros _. simpl. lia. }
  assert (H2 : Proposal (roundState (observer_of rs0)) = None) by reflexivity.
  assert (H3 : privValidator (observer_of rs0) = None) by reflexivity.
  split; [exact H1|]. split; [exact H2|]. split; [exact H3|].
  rewrite (enterPropose_when_not_proposer 1 0 (observer_of rs0) H1 H2 (or_introl H3)).
  reflexivity.
Defined.

Lemma handleMsg_proposal_enters_prevote_witness :
  step_code (Step (roundState (cs_of rs0))) < step_code RoundStepPrevote
  /\ accepts (cs_of rs0) proposalB
  /\ Step (roundState (out_state
             (handleMsg {| Msg := ProposalMessage proposalB; PeerKey := "ka" |}
                rs0 (cs_of rs0)))) = RoundStepPrevote
  /\ Proposal (roundState (out_state
                 (handleMsg {| Msg := ProposalMessage proposalB; PeerKey := "ka" |}
                    rs0 (cs_of rs0)))) = Some proposalB.
Proof.
  assert (H1 : step_code (Step (roundState (cs_of rs0))) < step_code RoundStepPrevote).
  { simpl. lia. }
  assert (H2 : accepts (cs_of rs0) proposalB).
  { split; [split; [reflexivity|]; split; [reflexivity|]; split; [reflexivity|];
            simpl; lia|].
    split; [left; reflexivity|].
    exists (val addrA), (0, vals4). repeat split; reflexivity. }
  destruct (handleMsg_proposal_enters_prevote proposalB "ka" rs0 (cs_of rs0) H1)
    as (Ha & Hb & _).
  split; [exact H1|]. split; [exact H2|].
  destruct (Ha (or_intror H2)) as (_ & _ & Hs).
  split; [exact Hs|exact (Hb H2)].
Defined.

Lemma addProposalBlockPart_installs_complete_block_witness :
  (Height (roundState (cs_of rs0)) <> 1 \/ ProposalBlockParts (roundState (cs_of rs0)) = None)
  /\ @addProposalBlockPart collab 1 tt true (cs_of rs0) = Ret (false, None) (cs_of rs0) [].
Proof.
  assert (H : Height (roundState (cs_of rs0)) <> 1
              \/ ProposalBlockParts (roundState (cs_of rs0)) = None)
    by (right; reflexivity).
  destruct (@addProposalBlockPart_installs_complete_block collab 1 tt true (cs_of rs0))
    as (_ & _ & Hdrop & _).
  exact (conj H (Hdrop H)).
Defined.

Lemma updateToStateAndEpoch_starts_height_witness :
  next_state_fits (cs_of rs_commit) (1, vals4)
  /\ Height (roundState (out_state (updateToStateAndEpoch (1, vals4) tt (cs_of rs_commit))))
     = 2
  /\ state (cs_of rs0) = Some (0, vals4)
  /\ State_LastBlockHeight (0, vals4) <= State_LastBlockHeight (0, vals4)
  /\ updateToStateAndEpoch (0, vals4) tt (cs_of rs0) = Ret tt (cs_of rs0) [].
Proof.
  assert (H1 : next_state_fits (cs_of rs_commit) (1, vals4)).
  { split; [intros _ _; reflexivity|].
    intros cur Hcur. simpl in Hcur. injection Hcur as <-.
    split; [reflexivity|]. simpl. lia. }
  assert (H2 : state (cs_of rs0) = Some (0, vals4)) by reflexivity.
  assert (H3 : State_LastBlockHeight (0, vals4) <= State_LastBlockHeight (0, vals4)).
  { simpl. lia. }
  destruct (@updateToStateAndEpoch_starts_height collab (1, vals4) tt (cs_of rs_commit))
    as (Ha & _).
  destruct (@updateToStateAndEpoch_starts_height collab (0, vals4) tt (cs_of rs0))
    as (_ & Hb).
  split; [exact H1|]. split; [rewrite (Ha H1); vm_compute; reflexivity|].
  split; [exact H2|]. split; [exact H3|].
  apply (Hb (0, vals4) H2); [reflexivity| |exact H3].
  simpl. intros H. lia.
Defined.

Lemma finalizeCommit_stays_when_apply_fails_witness :
  finalizes (ToyFaulty.cs_of ToyFaulty.rs_commit) 1
  /\ @State_ApplyBlock ToyFaulty.collab (0, vals4) (ProposalBlock ToyFaulty.rs_commit)
       (PartSet_Header (ProposalBlockParts ToyFaulty.rs_commit)) tt
     = ((0, vals4), false)
  /\ out_value (finalizeCommit 1 (ToyFaulty.cs_of ToyFaulty.rs_commit)) = Some tt
  /\ roundState (out_state (finalizeCommit 1 (ToyFaulty.cs_of ToyFaulty.rs_commit)))
     = ToyFaulty.rs_commit.
Proof.
  assert (H1 : finalizes (ToyFaulty.cs_of ToyFaulty.rs_commit) 1).
  { split; [reflexivity|]. split; [reflexivity|].
    exists idB, (0, vals4). repeat split; reflexivity. }
  destruct (finalizeCommit_stays_when_apply_fails 1 (ToyFaulty.cs_of ToyFaulty.rs_commit)
              (0, vals4) (0, vals4) H1 eq_refl eq_refl) as (Hv & _ & Hrs & _).
  split; [exact H1|]. split; [reflexivity|]. split; [exact Hv|exact Hrs].
Defined.

Lemma finalizeCommit_starts_next_height_witness :
  finalizes (cs_of rs_commit) 1
  /\ next_state_fits (cs_of rs_commit) (1, vals4)
  /\ out_value (finalizeCommit 1 (cs_of rs_commit)) = Some tt
  /\ Height (roundState (out_state (finalizeCommit 1 (cs_of rs_commit)))) = 2
  /\ Step (roundState (out_state (finalizeCommit 1 (cs_of rs_commit))))
     = RoundStepNewHeight.
Proof.
  assert (H1 : finalizes (cs_of rs_commit) 1).
  { split; [reflexivity|]. split; [reflexivity|].
    exists idB, (0, vals4). repeat split; reflexivity. }
  assert (H2 : next_state_fits (cs_of rs_commit) (1, vals4)).
  { split; [intros _ _; reflexivity|].
    intros cur Hcur. simpl in Hcur. injection Hcur as <-.
    split; [reflexivity|]. simpl. lia. }
  destruct (finalizeCommit_starts_next_height 1 (cs_of rs_commit) (0, vals4) (1, vals4)
              H1 eq_refl eq_refl H2) as (Hv & Hs & _).
  split; [exact H1|]. split; [exact H2|]. split; [exact Hv|].
  rewrite Hs. split; vm_compute; reflexivity.
Defined.

Lemma enterCommit_applies_only_committed_block_witness :
  ApplyBlock (Some blockB) headerB ∈ out_trace (enterCommit 1 0 (cs_of rs_precommitted))
  /\ exists blockID st,
       Height (roundState (cs_of rs_precommitted)) = 1
       /\ SignAggr_TwoThirdsMajority
            (HVSA_Precommits (VoteSignAggr (roundState (cs_of rs_precommitted))) 0)
          = (blockID, true)
       /\ Block_HashesTo (Some blockB) (BlockID.Hash blockID) = true
       /\ state (cs_of rs_precommitted) = Some st
       /\ State_ValidateBlock st (Some blockB) = true.
Proof.
  assert (H : ApplyBlock (Some blockB) headerB
              ∈ out_trace (enterCommit 1 0 (cs_of rs_precommitted))).
  { apply (list_elem_of_lookup_2 _ 6%nat). vm_compute. reflexivity. }
  exact (conj H (enterCommit_applies_only_committed_block 1 0 (cs_of rs_precommitted)
                   (Some blockB) headerB H)).
Defined.

Lemma enterCommit_panics_after_step_change_witness :
  Height (roundState (cs_of rs0)) = 1
  /\ step_leb RoundStepCommit (Step (roundState (cs_of rs0))) = false
  /\ SignAggr_TwoThirdsMajority (HVSA_Precommits (VoteSignAggr (roundState (cs_of rs0))) 0)
     = (BlockID.zero, false)
  /\ out_value (enterCommit 1 0 (cs_of rs0)) = None
  /\ Step (roundState (out_state (enterCommit 1 0 (cs_of rs0)))) = RoundStepCommit
  /\ CommitRound (roundState (out_state (enterCommit 1 0 (cs_of rs0)))) = 0.
Proof.
  destruct (enterCommit_panics_after_step_change 1 0 (cs_of rs0) BlockID.zero
              eq_refl eq_refl eq_refl) as (Hv & Hs & _).
  split; [reflexivity|]. split; [reflexivity|]. split; [reflexivity|].
  split; [exact Hv|]. rewrite Hs. split; reflexivity.
Defined.

Lemma enterCommit_waits_for_missing_block_witness :
  SignAggr_TwoThirdsMajority
    (HVSA_Precommits (VoteSignAggr (roundState (cs_of rs_precommitted_no_block))) 0)
  = (idB, true)
  /\ Block_HashesTo (ProposalBlock (roundState (cs_of rs_precommitted_no_block)))
       (BlockID.Hash idB) = false
  /\ out_value (enterCommit 1 0 (cs_of rs_precommitted_no_block)) = Some tt
  /\ Step (roundState (out_state (enterCommit 1 0 (cs_of rs_precommitted_no_block))))
     = RoundStepCommit
  /\ CommitRound (roundState (out_state (enterCommit 1 0 (cs_of rs_precommitted_no_block))))
     = 0.
Proof.
  destruct (enterCommit_waits_for_missing_block 1 0 (cs_of rs_precommitted_no_block) idB
              eq_refl eq_refl eq_refl eq_refl eq_refl eq_refl)
    as (Hv & _ & _ & _ & Hs & Hc & _).
  split; [reflexivity|]. split; [reflexivity|]. split; [exact Hv|].
  split; [exact Hs|exact Hc].
Defined.

Lemma sendMaj23SignAggr_maj23_from_prevotes_witness :
  SendInternal {| Msg := Maj23SignAggrMessage aggr_mixed; PeerKey := "" |}
    ∈ out_trace (sendMaj23SignAggr VoteTypePrevote (cs_of rs_mixed))
  /\ SignAggr.Maj23 aggr_mixed
     = fst (VoteSet_TwoThirdsMajority
              (HVS_Prevotes (Votes (roundState (cs_of rs_mixed)))
                 (Round (roundState (cs_of rs_mixed)))))
  /\ BlockID.IsZero (SignAggr.Maj23 aggr_mixed) = false.
Proof.
  assert (H : SendInternal {| Msg := Maj23SignAggrMessage aggr_mixed; PeerKey := "" |}
              ∈ out_trace (sendMaj23SignAggr VoteTypePrevote (cs_of rs_mixed))).
  { apply (list_elem_of_lookup_2 _ 1%nat). vm_compute. reflexivity. }
  destruct (sendMaj23SignAggr_maj23_from_prevotes VoteTypePrevote (cs_of rs_mixed)
              aggr_mixed H) as (_ & Hm & Hz & _).
  split; [exact H|]. split; [exact Hm|exact Hz].
Defined.

Lemma round_timeouts_grow_witness :
  0 <= 0 <= 1
  /\ timeout_fits (Propose0 tp0) (ProposeDelta tp0) 1
  /\ tp_Propose tp0 1 = (Propose0 tp0 + ProposeDelta tp0 * 1) * Millisecond
  /\ 0 <= tp_Propose tp0 0 <= tp_Propose tp0 1.
Proof.
  assert (H1 : 0 <= 0 <= 1) by lia.
  assert (H2 : timeout_fits (Propose0 tp0) (ProposeDelta tp0) 1).
  { unfold timeout_fits. simpl. unfold Millisecond. lia. }
  destruct (round_timeouts_grow tp0 0 1 H1) as (Ha & _).
  exact (conj H1 (conj H2 (Ha H2))).
Defined.

Lemma setMaj23SignAggr_acts_only_on_verified_witness :
  (out_state (setMaj23SignAggr aggr_1110 (cs_of rs0)) <> cs_of rs0
   \/ out_trace (setMaj23SignAggr aggr_1110 (cs_of rs0)) <> [])
  /\ aggr_applies (cs_of rs0) aggr_1110
  /\ verifyMaj23SignAggr (roundState (cs_of rs0)) aggr_1110 = (true, None).
Proof.
  assert (H : out_state (setMaj23SignAggr aggr_1110 (cs_of rs0)) <> cs_of rs0
              \/ out_trace (setMaj23SignAggr aggr_1110 (cs_of rs0)) <> []).
  { left. intros Heq.
    apply (f_equal (fun c => PrevoteMaj23SignAggr (roundState c))) in Heq.
    vm_compute in Heq. discriminate Heq. }
  destruct (setMaj23SignAggr_acts_only_on_verified (cs_of rs0) aggr_1110 H)
    as (Ha & Hv & _).
  split; [exact H|]. split; [exact Ha|exact Hv].
Defined.

Lemma receiveRoutine_app_witness :
  0 <= 0
  /\ (FromQuit ∉ [FromTimeoutTicker tick_propose])
  /\ receiveRoutine 0 ([FromTimeoutTicker tick_propose] ++ [FromQuit]) (cs_of rs0)
     = (receiveRoutine 0 [FromTimeoutTicker tick_propose] ;;; receiveRoutine 0 [FromQuit])
         (cs_of rs0).
Proof.
  assert (H1 : 0 <= 0) by lia.
  assert (H2 : FromQuit ∉ [FromTimeoutTicker tick_propose]).
  { intros Hin. apply list_elem_of_singleton in Hin. discriminate Hin. }
  exact (conj H1 (conj H2 (receiveRoutine_app 0 [FromTimeoutTicker tick_propose]
                             [FromQuit] (cs_of rs0) H1 H2))).
Defined.
